(** * Survev SPI calculator: scoring and paste extraction

    A shallow embedding of the two source variants of the calculator
    ([src/survev_spi_app.py] and [src/unnamed/part_000]) and the proofs of
    the properties stated about them.

    Conventions of the embedding.
    - A Python [int] is a [Z]; a Python [float] is an IEEE 754 binary64
      number, a [spec_float] operated on with the Standard Library's
      [SpecFloat] at precision 53 and maximal exponent 1024.
    - A Python [str] is a [list ascii]; a character is a code point below
      256 (texts with code points beyond U+00FF are outside the embedding).
    - A call that may raise returns in [py]: [inl e] is the exception [e]
      propagating, [inr v] is the value [v] returned.
    - [Optional[T]] is [option T]; a [dict] is an association list in
      insertion order with unique keys. *)

From Stdlib Require Import ZArith QArith Qround Lia Lqa List Ascii String Bool.
From Stdlib Require Import SpecFloat DecimalString Qpower.
Import ListNotations.

Set Implicit Arguments.

Open Scope string_scope.
Open Scope Z_scope.
Open Scope list_scope.

(** ** Exceptions and results *)

Inductive exn : Type :=
| ZeroDivisionError
| OverflowError
| ValueError
| TypeError
| AttributeError.

Definition py (A : Type) : Type := (exn + A)%type.

Definition ret {A : Type} (a : A) : py A := inr a.
Definition raise {A : Type} (e : exn) : py A := inl e.
Definition bind {A B : Type} (m : py A) (f : A -> py B) : py B :=
  match m with
  | inl e => inl e
  | inr a => f a
  end.

Notation "x <- m ;; k" := (bind m (fun x => k))
  (at level 61, m at next level, right associativity).

(** [try: body except: handler] with a bare [except]. *)
Definition try_except {A : Type} (body : py A) (handler : py A) : py A :=
  match body with
  | inl _ => handler
  | inr a => inr a
  end.

(** ** binary64 *)

Module Float64.

Definition prec : Z := 53.
Definition emax : Z := 1024.

Definition float : Type := spec_float.

Definition add : float -> float -> float := SFadd prec emax.
Definition sub : float -> float -> float := SFsub prec emax.
Definition mul : float -> float -> float := SFmul prec emax.

Definition ltb : float -> float -> bool := SFltb.
Definition leb : float -> float -> bool := SFleb.
Definition eqb : float -> float -> bool := SFeqb.

Definition is_zero (x : float) : bool :=
  match x with S754_zero _ => true | _ => false end.

Definition is_finite (x : float) : bool :=
  match x with S754_zero _ | S754_finite _ _ _ => true | _ => false end.

(** The sign bit is clear and the value is a number (not a NaN). *)
Definition nonneg (x : float) : bool :=
  match x with
  | S754_zero _ => true
  | S754_finite s _ _ | S754_infinity s => negb s
  | S754_nan => false
  end.

(** The integer [n] rounded to the nearest binary64 (ties to even);
    an infinity when [n] is beyond the range. *)
Definition of_Z (n : Z) : float := binary_normalize prec emax n 0 false.

(** The quotient [a / b] of two integers, [b <> 0], rounded once to the
    nearest binary64 (ties to even). *)
Definition quot_Z (a b : Z) : float :=
  match a with
  | Z0 => S754_zero (b <? 0)
  | _ => SFdiv prec emax
           (S754_finite (a <? 0) (Z.to_pos (Z.abs a)) 0)
           (S754_finite (b <? 0) (Z.to_pos (Z.abs b)) 0)
  end.

(** [float(n)] for an [int]: OverflowError when [n] is too large. *)
Definition of_int (n : Z) : py float :=
  let x := of_Z n in
  if is_finite x then ret x else raise OverflowError.

(** [a / b] on two [int]s (true division). *)
Definition int_truediv (a b : Z) : py float :=
  if b =? 0 then raise ZeroDivisionError
  else
    let q := quot_Z a b in
    if is_finite q then ret q else raise OverflowError.

(** [x / y] on two [float]s. *)
Definition div (x y : float) : py float :=
  if is_zero y then raise ZeroDivisionError else ret (SFdiv prec emax x y).

(** [x >= n] for a [float] and an [int] whose conversion is exact
    (|n| < 2^53), which is the exact comparison Python makes. *)
Definition ge_int (x : float) (n : Z) : bool := leb (of_Z n) x.

(** [round(x)] for a [float]: the nearest [int], ties to even. *)
Definition round_half_even (m : Z) (d : Z) : Z :=
  let q := m / d in
  let r := m mod d in
  match 2 * r ?= d with
  | Lt => q
  | Gt => q + 1
  | Eq => if Z.even q then q else q + 1
  end.

Definition round (x : float) : py Z :=
  match x with
  | S754_zero _ => ret 0
  | S754_infinity _ => raise OverflowError
  | S754_nan => raise ValueError
  | S754_finite s m e =>
      let n := if 0 <=? e then Zpos m * 2 ^ e
               else round_half_even (Zpos m) (2 ^ (- e)) in
      ret (if s then - n else n)
  end.

(** [bool(x)]: a float is falsy exactly when it is a zero. *)
Definition truthy (x : float) : bool := negb (is_zero x).

End Float64.

(** ** The arithmetic the scoring code is written in

    The scoring methods use [int / int], [float * float], [float - int],
    [int + float] and [float >= int]. They are written once over this
    interface; [binary64_arith] is what the program runs, [exact_arith]
    is the same text read over the rationals, with no rounding. *)

Class Arith (F : Type) : Type := {
  (** an [int] constant or a float literal with an integer value *)
  const : Z -> F;
  (** conversion of an [int] operand in mixed arithmetic *)
  of_int : Z -> py F;
  add : F -> F -> F;
  sub : F -> F -> F;
  mul : F -> F -> F;
  div : F -> F -> py F;
  int_truediv : Z -> Z -> py F;
  ge_int : F -> Z -> bool
}.

#[export] Instance binary64_arith : Arith Float64.float := {
  const := Float64.of_Z;
  of_int := Float64.of_int;
  add := Float64.add;
  sub := Float64.sub;
  mul := Float64.mul;
  div := Float64.div;
  int_truediv := Float64.int_truediv;
  ge_int := Float64.ge_int
}.

Definition Q_div (x y : Q) : py Q :=
  if Qeq_bool y 0 then raise ZeroDivisionError else ret (x / y)%Q.

Definition Q_int_truediv (a b : Z) : py Q :=
  if b =? 0 then raise ZeroDivisionError else ret (inject_Z a / inject_Z b)%Q.

#[export] Instance exact_arith : Arith Q := {
  const := inject_Z;
  of_int := fun n => ret (inject_Z n);
  add := Qplus;
  sub := Qminus;
  mul := Qmult;
  div := Q_div;
  int_truediv := Q_int_truediv;
  ge_int := fun x n => Qle_bool (inject_Z n) x
}.

(** ** Configuration *)

Definition TIERS : list (string * Z) :=
  [ ("Grandmaster", 750);
    ("Master", 650);
    ("Diamond", 550);
    ("Platinum", 450);
    ("Gold", 350);
    ("Silver", 250);
    ("Bronze", - 10 ^ 9) ].

Definition CONFIDENCE_CONST : Z := 50.
Definition NEUTRAL_BASELINE : Z := 300.
Definition SURVIVAL_CAP_SEC : Z := 180.

(** ** Score calculator *)

Section Scoring.

Context {F : Type} `{Arith F}.

(** [for name, threshold in TIERS: if score >= threshold: return name]
    and the final [return "Bronze"]. *)
Fixpoint tier_loop (score : F) (tiers : list (string * Z)) : string :=
  match tiers with
  | [] => "Bronze"
  | (name, threshold) :: rest =>
      if ge_int score threshold then name else tier_loop score rest
  end.

Definition tier_from_score (score : F) : string := tier_loop score TIERS.

Record ModeStats : Type := {
  games : Z;
  kills : Z;
  win_pct : F;
  avg_survived_sec : Z;
  avg_damage : F
}.

(** The dictionary [spi_components] returns, one field per key. *)
Record Components : Type := {
  Base : F;
  Survival : F;
  Damage : F;
  WinBonus : F
}.

Definition spi_components (self : ModeStats) : py Components :=
  base <- (if games self >? 0
           then q <- int_truediv (kills self) (games self) ;;
                ret (mul q (const 100))
           else ret (const 0)) ;;
  r <- int_truediv (Z.min (avg_survived_sec self) SURVIVAL_CAP_SEC)
                   SURVIVAL_CAP_SEC ;;
  let survival := mul r (const 50) in
  d <- div (avg_damage self) (const 500) ;;
  let damage := mul d (const 40) in
  let win_bonus := mul (win_pct self) (const 2) in
  ret {| Base := base; Survival := survival;
         Damage := damage; WinBonus := win_bonus |}.

Definition spi (self : ModeStats) : py F :=
  comps <- spi_components self ;;
  ret (add (add (add (Base comps) (Survival comps)) (Damage comps))
           (WinBonus comps)).

Definition adj_spi (self : ModeStats) : py F :=
  s <- spi self ;;
  w <- (if games self >? 0
        then int_truediv (games self) (games self + CONFIDENCE_CONST)
        else ret (const 0)) ;;
  ret (add (const NEUTRAL_BASELINE) (mul w (sub s (const NEUTRAL_BASELINE)))).

(** [sum(m.games for m in modes.values())] *)
Definition total_games (modes : list (string * ModeStats)) : Z :=
  fold_left (fun acc kv => acc + games (snd kv)) modes 0.

(** [sum(m.adj_spi() * m.games for m in modes.values())]: the terms are
    added from left to right, starting from [0], with the float addition.
    (An interpreter that compensates the rounding errors of a sum of
    floats gives the same result on one or two terms.) *)
Fixpoint weighted_sum (acc : F) (modes : list (string * ModeStats)) : py F :=
  match modes with
  | [] => ret acc
  | (_, m) :: rest =>
      a <- adj_spi m ;;
      g <- of_int (games m) ;;
      weighted_sum (add acc (mul a g)) rest
  end.

Definition overall_adj_spi (modes : list (string * ModeStats)) : py F :=
  let total := total_games modes in
  if total =? 0 then ret (const 0)
  else
    weighted <- weighted_sum (const 0) modes ;;
    t <- of_int total ;;
    div weighted t.

End Scoring.

Arguments ModeStats F : clear implicits.
Arguments Components F : clear implicits.

(** ** Text *)

Definition str : Type := list ascii.

Coercion list_ascii_of_string : string >-> list.

Module Text.

Definition code (c : ascii) : N := N_of_ascii c.

Definition in_range (lo hi : N) (c : ascii) : bool :=
  (N.leb lo (code c) && N.leb (code c) hi)%bool.

(** [\d] and [str.isdecimal]: the decimal digits below U+0100. *)
Definition is_digit (c : ascii) : bool := in_range 48 57 c.

(** [\s] and [str.isspace] below U+0100: tab, line feed, vertical tab,
    form feed, carriage return, the four separators U+001C..U+001F, space,
    next line U+0085 and no-break space U+00A0. *)
Definition is_space (c : ascii) : bool :=
  (in_range 9 13 c || in_range 28 32 c
   || N.eqb (code c) 133 || N.eqb (code c) 160)%bool.

(** [\w] below U+0100: the alphanumeric characters and the underscore. *)
Definition is_word (c : ascii) : bool :=
  (in_range 48 57 c || in_range 65 90 c || N.eqb (code c) 95
   || in_range 97 122 c || N.eqb (code c) 170 || in_range 178 179 c
   || N.eqb (code c) 181 || in_range 185 186 c || in_range 188 190 c
   || in_range 192 214 c || in_range 216 246 c || in_range 248 255 c)%bool.

Definition is_newline (c : ascii) : bool := N.eqb (code c) 10.

(** Lower case of an ASCII letter; other characters are left alone. *)
Definition lower (c : ascii) : ascii :=
  if in_range 65 90 c then ascii_of_N (code c + 32) else c.

(** [str.upper] on the ASCII letters; it is only ever applied to a match of
    [SOLO|DUO|SQUAD], which is made of ASCII letters. *)
Definition upper_char (c : ascii) : ascii :=
  if in_range 97 122 c then ascii_of_N (code c - 32) else c.

Definition upper (s : str) : str := map upper_char s.

Definition eqb_char (a b : ascii) : bool := Ascii.eqb a b.

(** A pattern letter under [re.I]: below U+0100 it matches its two cases. *)
Definition eqb_nocase (a b : ascii) : bool := Ascii.eqb (lower a) (lower b).

Fixpoint lstrip (s : str) : str :=
  match s with
  | c :: s' => if is_space c then lstrip s' else s
  | [] => []
  end.

Definition rstrip (s : str) : str := rev (lstrip (rev s)).

(** [s.strip()] *)
Definition strip (s : str) : str := rstrip (lstrip s).

(** [s.replace(a, b)] for two one-character strings. *)
Definition replace (a b : ascii) (s : str) : str :=
  map (fun c => if eqb_char c a then b else c) s.

Definition digit_val (c : ascii) : Z := Z.of_N (code c) - 48.

(** The number a run of decimal digits writes, most significant first. *)
Definition digits_val (s : str) : Z :=
  fold_left (fun acc c => 10 * acc + digit_val c) s 0.

Definition all_digits (s : str) : bool := forallb is_digit s.

(** A leading sign and what follows it. *)
Definition split_sign (s : str) : bool * str :=
  match s with
  | "-"%char :: s' => (true, s')
  | "+"%char :: s' => (false, s')
  | _ => (false, s)
  end.

(** [int(s)] on a string made of an optional sign and decimal digits; any
    other string is a ValueError here. (Python also accepts surrounding
    white space and underscores between digits; the program calls [int] on
    matches of [\d{1,2}] and [\d{2}] only.) *)
Definition int_of_str (s : str) : py Z :=
  let '(neg, body) := split_sign s in
  match body with
  | [] => raise ValueError
  | _ => if all_digits body
         then ret (if neg then - digits_val body else digits_val body)
         else raise ValueError
  end.

(** The digits before the first ['.'] and the text after it, if any. *)
Fixpoint split_point (s : str) : str * option str :=
  match s with
  | [] => ([], None)
  | c :: s' =>
      if eqb_char c "."%char then ([], Some s')
      else let '(a, b) := split_point s' in (c :: a, b)
  end.

(** The binary64 nearest to [n / 10^k], for [0 <= n], with sign [neg]. *)
Definition decimal_to_float (neg : bool) (n : Z) (k : nat) : Float64.float :=
  match n with
  | Z0 => S754_zero neg
  | _ => SFdiv Float64.prec Float64.emax
           (S754_finite neg (Z.to_pos n) 0)
           (S754_finite false (Z.to_pos (10 ^ Z.of_nat k)) 0)
  end.

(** [float(s)] on a string made of an optional sign, decimal digits and at
    most one ['.'], with a digit on at least one side of it: the decimal
    value correctly rounded, an infinity when it is beyond the range. Any
    other string is a ValueError here. (Python also accepts surrounding
    white space, underscores, an exponent and the spellings of infinity
    and NaN; the program calls [float] on matches of [\d+], [[\d.]+] and
    [[\d.,]+] only.) *)
Definition float_of_str (s : str) : py Float64.float :=
  let '(neg, body) := split_sign s in
  let '(ip, rest) := split_point body in
  let fp := match rest with Some f => f | None => [] end in
  if (all_digits ip && all_digits fp
      && negb (Nat.eqb (List.length ip + List.length fp) 0))%bool
  then ret (decimal_to_float neg (digits_val (ip ++ fp)) (List.length fp))
  else raise ValueError.

(** [str(n)] for an [int]. *)
Definition str_of_int (n : Z) : str :=
  match n with
  | Z0 => "0"
  | Zpos p => NilEmpty.string_of_uint (Pos.to_uint p)
  | Zneg p => "-"%char :: list_ascii_of_string (NilEmpty.string_of_uint (Pos.to_uint p))
  end.

(** [format(n, "02d")]: at least two characters, padded with a zero. *)
Definition format_02d (n : Z) : str :=
  let s := str_of_int n in
  match s with
  | [c] => ["0"%char; c]
  | _ => s
  end.

End Text.

(** ** Regular expressions

    The fragment of Python's [re] the program uses, with the semantics of
    its backtracking matcher: alternatives are tried from left to right, a
    greedy repetition tries the longest run first and a lazy one the
    shortest, and the first way to match that succeeds is the match.
    Every repetition in the program's patterns is over a single character
    class, which is what [Rep] offers. *)

Module Re.

Inductive regex : Type :=
| Eps
| Chr (p : ascii -> bool)
| Rep (p : ascii -> bool) (lo : nat) (hi : option nat) (greedy : bool)
| Seq (r1 r2 : regex)
| Alt (r1 r2 : regex)
| Group (n : nat) (r : regex)
| WordB
| Bos
| Eos.

(** The groups matched so far, latest first. *)
Definition captures : Type := list (nat * str).

(** A match object: its groups and the text that follows the match. *)
Record match_object : Type := {
  groups : captures;
  after : str
}.

Fixpoint lookup (n : nat) (g : captures) : option str :=
  match g with
  | [] => None
  | (i, s) :: g' => if Nat.eqb i n then Some s else lookup n g'
  end.

(** [m.group(n)]: [None] when the group took no part in the match. *)
Definition group (m : match_object) (n : nat) : option str :=
  lookup n (groups m).

(** The text between two positions of one string, the second being a
    suffix of the first. *)
Definition consumed (s s' : str) : str :=
  firstn (List.length s - List.length s') s.

Definition word_before (prev : option ascii) : bool :=
  match prev with Some c => Text.is_word c | None => false end.

Definition word_after (s : str) : bool :=
  match s with c :: _ => Text.is_word c | [] => false end.

Definition may_repeat (hi : option nat) : bool :=
  match hi with Some O => false | _ => true end.

(** Between [lo] and [hi] characters of class [p], then [k]. [prev] is the
    character before the position, [s] the text from it on. *)
Fixpoint rep {A : Type} (p : ascii -> bool) (greedy : bool) (lo : nat)
    (hi : option nat) (prev : option ascii) (s : str)
    (k : option ascii -> str -> option A) : option A :=
  match s with
  | c :: s' =>
      if (p c && may_repeat hi)%bool then
        if greedy then
          match rep p greedy (pred lo) (option_map pred hi) (Some c) s' k with
          | Some a => Some a
          | None => match lo with O => k prev s | S _ => None end
          end
        else
          match (match lo with O => k prev s | S _ => None end) with
          | Some a => Some a
          | None => rep p greedy (pred lo) (option_map pred hi) (Some c) s' k
          end
      else match lo with O => k prev s | S _ => None end
  | [] => match lo with O => k prev s | S _ => None end
  end.

Fixpoint rmatch {A : Type} (r : regex) (prev : option ascii) (s : str)
    (g : captures) (k : option ascii -> str -> captures -> option A)
    : option A :=
  match r with
  | Eps => k prev s g
  | Chr p =>
      match s with
      | c :: s' => if p c then k (Some c) s' g else None
      | [] => None
      end
  | Rep p lo hi greedy =>
      rep p greedy lo hi prev s (fun prev' s' => k prev' s' g)
  | Seq r1 r2 =>
      rmatch r1 prev s g (fun prev' s' g' => rmatch r2 prev' s' g' k)
  | Alt r1 r2 =>
      match rmatch r1 prev s g k with
      | Some a => Some a
      | None => rmatch r2 prev s g k
      end
  | Group n r1 =>
      rmatch r1 prev s g
        (fun prev' s' g' => k prev' s' ((n, consumed s s') :: g'))
  | WordB =>
      if xorb (word_before prev) (word_after s) then k prev s g else None
  | Bos =>
      match prev with
      | None => k prev s g
      | Some _ => None
      end
  | Eos =>
      match s with
      | [] => k prev s g
      | [c] => if Text.is_newline c then k prev s g else None
      | _ => None
      end
  end.

Definition accept (_ : option ascii) (s : str) (g : captures)
  : option match_object :=
  Some {| groups := g; after := s |}.

(** A match of [r] at the position before [s]. *)
Definition match_at (r : regex) (prev : option ascii) (s : str)
  : option match_object :=
  rmatch r prev s [] accept.

(** [re.match(r, s)] *)
Definition match_ (r : regex) (s : str) : option match_object :=
  match_at r None s.

(** The leftmost match from the position before [s] on. *)
Fixpoint search_from (r : regex) (prev : option ascii) (s : str)
  : option match_object :=
  match match_at r prev s with
  | Some m => Some m
  | None =>
      match s with
      | [] => None
      | c :: s' => search_from r (Some c) s'
      end
  end.

(** [re.search(r, s)] *)
Definition search (r : regex) (s : str) : option match_object :=
  search_from r None s.

(** How many characters a match starting before [s] spans. *)
Definition span (s : str) (m : match_object) : nat :=
  List.length s - List.length (after m).

(** [re.sub(r, repl, s)] for a pattern with no empty match: every
    leftmost non-overlapping match is replaced. [skip] counts the
    characters of the current match still to pass. *)
Fixpoint sub_loop (r : regex) (repl : str) (prev : option ascii) (s : str)
    (skip : nat) : str :=
  match s with
  | [] => []
  | c :: s' =>
      match skip with
      | S n => sub_loop r repl (Some c) s' n
      | O =>
          match match_at r prev s with
          | Some m =>
              match span s m with
              | S n => repl ++ sub_loop r repl (Some c) s' n
              | O => c :: sub_loop r repl (Some c) s' O
              end
          | None => c :: sub_loop r repl (Some c) s' O
          end
      end
  end.

Definition sub (r : regex) (repl : str) (s : str) : str :=
  sub_loop r repl None s O.

(** [re.split(r, s)] for a pattern with one capturing group and no empty
    match: the pieces between the matches, each followed by the group of
    the match that ends it. [piece] is the current piece, reversed. *)
Fixpoint split_loop (r : regex) (prev : option ascii) (s : str)
    (skip : nat) (piece : str) : list str :=
  match s with
  | [] => [rev piece]
  | c :: s' =>
      match skip with
      | S n => split_loop r (Some c) s' n piece
      | O =>
          match match_at r prev s with
          | Some m =>
              match span s m with
              | S n =>
                  rev piece
                  :: match group m 1 with Some g => g | None => [] end
                  :: split_loop r (Some c) s' n []
              | O => split_loop r (Some c) s' O (c :: piece)
              end
          | None => split_loop r (Some c) s' O (c :: piece)
          end
      end
  end.

Definition split (r : regex) (s : str) : list str :=
  split_loop r None s O [].

(** *** Writing patterns *)

(** A literal under [re.I]. *)
Fixpoint lit (s : str) : regex :=
  match s with
  | [] => Eps
  | [c] => Chr (Text.eqb_nocase c)
  | c :: s' => Seq (Chr (Text.eqb_nocase c)) (lit s')
  end.

Fixpoint seq (rs : list regex) : regex :=
  match rs with
  | [] => Eps
  | [r] => r
  | r :: rs' => Seq r (seq rs')
  end.

Definition star (p : ascii -> bool) : regex := Rep p 0 None true.
Definition plus (p : ascii -> bool) : regex := Rep p 1 None true.
Definition opt (p : ascii -> bool) : regex := Rep p 0 (Some 1%nat) true.
Definition lazy_star (p : ascii -> bool) : regex := Rep p 0 None false.
Definition between (p : ascii -> bool) (lo hi : nat) : regex :=
  Rep p lo (Some hi) true.

(** [.] without [re.S]: any character but a line feed. *)
Definition dot (c : ascii) : bool := negb (Text.is_newline c).

Definition chr (c : ascii) : ascii -> bool := Text.eqb_char c.
Definition chr_nocase (c : ascii) : ascii -> bool := Text.eqb_nocase c.

(** [[\d.]] and [[\d.,]] *)
Definition digit_dot (c : ascii) : bool :=
  (Text.is_digit c || Text.eqb_char c ".")%bool.
Definition digit_dot_comma (c : ascii) : bool :=
  (Text.is_digit c || Text.eqb_char c "." || Text.eqb_char c ",")%bool.

(** [[:\-]] *)
Definition colon_dash (c : ascii) : bool :=
  (Text.eqb_char c ":" || Text.eqb_char c "-")%bool.

(** [[^\S\r\n]]: white space other than carriage return and line feed. *)
Definition blank (c : ascii) : bool :=
  (Text.is_space c && negb (N.eqb (Text.code c) 13)
   && negb (N.eqb (Text.code c) 10))%bool.

End Re.

(** ** Field extractor: what the two variants share *)

Import Re.

(** [int(x)] and [float(x)] for an [Optional[str]]: [None] is a TypeError. *)
Definition int_of (x : option str) : py Z :=
  match x with
  | Some s => Text.int_of_str s
  | None => raise TypeError
  end.

Definition float_of (x : option str) : py Float64.float :=
  match x with
  | Some s => Text.float_of_str s
  | None => raise TypeError
  end.

(** [r"^(\d{1,2}):(\d{2})$"] *)
Definition TIME_RE : regex :=
  seq [ Bos; Group 1 (between Text.is_digit 1 2); Chr (chr ":");
        Group 2 (between Text.is_digit 2 2); Eos ].

Definition parse_time_to_seconds (s : str) : py (option Z) :=
  let s := Text.strip s in
  match match_ TIME_RE s with
  | None => ret None
  | Some m =>
      minutes <- int_of (group m 1) ;;
      seconds <- int_of (group m 2) ;;
      ret (Some (minutes * 60 + seconds))
  end.

(** The text the manual-entry form shows for a survival time:
    [f"{sec//60}:{sec%60:02d}"]. *)
Definition format_time (sec : Z) : str :=
  Text.str_of_int (sec / 60) ++ ":"%char :: Text.format_02d (sec mod 60).

(** [r"[^\S\r\n]+"] *)
Definition BLANKS_RE : regex := plus blank.

(** [r"(?i)\b(SOLO|DUO|SQUAD)\b"] *)
Definition MODE_RE : regex :=
  seq [ WordB; Group 1 (Alt (lit "SOLO") (Alt (lit "DUO") (lit "SQUAD")));
        WordB ].

(** [d[key] = value] on a dictionary kept in insertion order. *)
Fixpoint dict_set {V : Type} (key : string) (value : V)
    (d : list (string * V)) : list (string * V) :=
  match d with
  | [] => [(key, value)]
  | (k, v) :: d' =>
      if String.eqb k key then (k, value) :: d'
      else (k, v) :: dict_set key value d'
  end.

Fixpoint dict_get {V : Type} (key : string) (d : list (string * V))
  : option V :=
  match d with
  | [] => None
  | (k, v) :: d' => if String.eqb k key then Some v else dict_get key d'
  end.

Section ParseBlock.

Variable parse_stats_in_text : str -> py (option (ModeStats Float64.float)).

(** [for mode, block in zip(it, it)]: the parts taken two at a time. *)
Fixpoint parse_modes (parts : list str)
    (modes : list (string * ModeStats Float64.float))
  : py (list (string * ModeStats Float64.float)) :=
  match parts with
  | mode :: block :: rest =>
      parsed <- parse_stats_in_text block ;;
      match parsed with
      | Some stats =>
          parse_modes rest
            (dict_set (string_of_list_ascii (Text.upper mode)) stats modes)
      | None => parse_modes rest modes
      end
  | _ => ret modes
  end.

Definition parse_block (raw : str) : py (list (string * ModeStats Float64.float)) :=
  let text := Re.sub BLANKS_RE " " raw in
  let parts := Re.split MODE_RE text in
  if (1 <? List.length parts)%nat then
    parse_modes (tl parts) []
  else
    parsed <- parse_stats_in_text text ;;
    match parsed with
    | Some stats => ret (dict_set "SOLO" stats [])
    | None => ret []
    end.

End ParseBlock.

(** ** Field extractor of [src/survev_spi_app.py] *)

Module SurvevSpiApp.

Definition find_number (pattern : regex) (s : str) : py (option Float64.float) :=
  match search pattern s with
  | None => ret None
  | Some m => x <- float_of (group m 1) ;; ret (Some x)
  end.

(** [r"(\d+)\s*GAMES?"] *)
Definition GAMES_BEFORE : regex :=
  seq [ Group 1 (plus Text.is_digit); star Text.is_space; lit "GAME";
        opt (chr_nocase "S") ].

(** [r"\bGames?\b.*?(\d+)"] *)
Definition GAMES_AFTER : regex :=
  seq [ WordB; lit "Game"; opt (chr_nocase "s"); WordB; lazy_star dot;
        Group 1 (plus Text.is_digit) ].

(** [r"\bKILLS?\b.*?(\d+)"] *)
Definition KILLS : regex :=
  seq [ WordB; lit "KILL"; opt (chr_nocase "S"); WordB; lazy_star dot;
        Group 1 (plus Text.is_digit) ].

(** [r"\bWIN\s*%?\b.*?([\d.]+)"] *)
Definition WIN : regex :=
  seq [ WordB; lit "WIN"; star Text.is_space; opt (chr "%"); WordB;
        lazy_star dot; Group 1 (plus digit_dot) ].

(** [r"\bAVG\s*SURVIVED\b.*?(\d{1,2}:\d{2})"] *)
Definition AVG_SURVIVED : regex :=
  seq [ WordB; lit "AVG"; star Text.is_space; lit "SURVIVED"; WordB;
        lazy_star dot;
        Group 1 (seq [ between Text.is_digit 1 2; Chr (chr ":");
                       between Text.is_digit 2 2 ]) ].

(** [r"\bAVG\s*DAMAGE\b.*?([\d.]+)"] *)
Definition AVG_DAMAGE : regex :=
  seq [ WordB; lit "AVG"; star Text.is_space; lit "DAMAGE"; WordB;
        lazy_star dot; Group 1 (plus digit_dot) ].

(** [r"\bK/?G\b.*?([\d.]+)"] *)
Definition KG : regex :=
  seq [ WordB; lit "K"; opt (chr "/"); lit "G"; WordB; lazy_star dot;
        Group 1 (plus digit_dot) ].

(** [bool(x)] for an [Optional[float]]. *)
Definition truthy (x : option Float64.float) : bool :=
  match x with
  | Some v => Float64.truthy v
  | None => false
  end.

(** The five fields as first searched for, before the fallback. *)
Record fields : Type := {
  f_games : option Float64.float;
  f_kills : option Float64.float;
  f_win_pct : option Float64.float;
  f_avg_survived_sec : option Z;
  f_avg_damage : option Float64.float
}.

Definition search_fields (s : str) : py fields :=
  games <- (a <- find_number GAMES_BEFORE s ;;
            if truthy a then ret a else find_number GAMES_AFTER s) ;;
  kills <- find_number KILLS s ;;
  win_pct <- find_number WIN s ;;
  avg_survived_sec <- match search AVG_SURVIVED s with
                      | Some time_match =>
                          match group time_match 1 with
                          | Some t => parse_time_to_seconds t
                          | None => raise AttributeError
                          end
                      | None => ret None
                      end ;;
  avg_damage <- find_number AVG_DAMAGE s ;;
  ret {| f_games := games; f_kills := kills; f_win_pct := win_pct;
         f_avg_survived_sec := avg_survived_sec;
         f_avg_damage := avg_damage |}.

(** [if games is None: kg = ...; if kills is not None and kg: ...] *)
Definition fallback_games (s : str) (games kills : option Float64.float)
  : py (option Float64.float) :=
  match games with
  | Some _ => ret games
  | None =>
      kg <- find_number KG s ;;
      match kills, kg with
      | Some k, Some r =>
          if Float64.truthy r
          then q <- Float64.div k r ;; ret (Some q)
          else ret None
      | _, _ => ret None
      end
  end.

Definition parse_stats_in_text (s : str) : py (option (ModeStats Float64.float)) :=
  f <- search_fields s ;;
  games <- fallback_games s (f_games f) (f_kills f) ;;
  match games, f_kills f, f_win_pct f, f_avg_survived_sec f, f_avg_damage f with
  | Some g, Some k, Some w, Some t, Some d =>
      g' <- Float64.round g ;;
      k' <- Float64.round k ;;
      ret (Some {| games := g'; kills := k'; win_pct := w;
                   avg_survived_sec := t; avg_damage := d |})
  | _, _, _, _, _ => ret None
  end.

Definition parse_block := parse_block parse_stats_in_text.

End SurvevSpiApp.

(** ** Field extractor of [src/unnamed/part_000] *)

Module Part000.

Definition _num (x : option str) : option Float64.float :=
  match x with
  | None => None
  | Some x =>
      let x := Text.replace "," "." (Text.strip x) in
      match Text.float_of_str x with
      | inr v => Some v
      | inl _ => None
      end
  end.

(** Every pattern is searched with [re.I | re.S]; none of them has a
    [.], so [re.S] changes nothing. *)
Fixpoint _take (s : str) (patterns : list regex) : option str :=
  match patterns with
  | [] => None
  | p :: rest =>
      match search p s with
      | Some m => group m 1
      | None => _take s rest
      end
  end.

(** The separator of label and value, the non-capturing group
    [(?: \s* [:\-]? \s* | \s* \n \s* )] (its parts spaced out here);
    [SEP] stands for it in the patterns quoted below. *)
Definition SEP : regex :=
  Alt (seq [ star Text.is_space; opt colon_dash; star Text.is_space ])
      (seq [ star Text.is_space; Chr Text.is_newline; star Text.is_space ]).

(** [r"(\d+)\s*GAMES?"] and [r"\bGAMES?\b" SEP r"(\d+)"] *)
Definition GAMES : list regex :=
  [ seq [ Group 1 (plus Text.is_digit); star Text.is_space; lit "GAME";
          opt (chr_nocase "S") ];
    seq [ WordB; lit "GAME"; opt (chr_nocase "S"); WordB; SEP;
          Group 1 (plus Text.is_digit) ] ].

(** [r"\bKILLS?\b" SEP r"(\d+)"] *)
Definition KILLS : list regex :=
  [ seq [ WordB; lit "KILL"; opt (chr_nocase "S"); WordB; SEP;
          Group 1 (plus Text.is_digit) ] ].

(** [r"\bWIN\s*%?" SEP r"([\d.,]+)"] *)
Definition WIN : list regex :=
  [ seq [ WordB; lit "WIN"; star Text.is_space; opt (chr "%"); SEP;
          Group 1 (plus digit_dot_comma) ] ].

(** [r"\bAVG\s*SURVIVED\b" SEP r"(\d{1,2}:\d{2})"] *)
Definition AVG_SURVIVED : list regex :=
  [ seq [ WordB; lit "AVG"; star Text.is_space; lit "SURVIVED"; WordB; SEP;
          Group 1 (seq [ between Text.is_digit 1 2; Chr (chr ":");
                         between Text.is_digit 2 2 ]) ] ].

(** [r"\bAVG\s*DAMAGE\b" SEP r"([\d.,]+)"] *)
Definition AVG_DAMAGE : list regex :=
  [ seq [ WordB; lit "AVG"; star Text.is_space; lit "DAMAGE"; WordB; SEP;
          Group 1 (plus digit_dot_comma) ] ].

(** [r"\bK/?G\b" SEP r"([\d.,]+)"] *)
Definition KG : list regex :=
  [ seq [ WordB; lit "K"; opt (chr "/"); lit "G"; WordB; SEP;
          Group 1 (plus digit_dot_comma) ] ].

(** [games] holds a [str] from [_take] or a [float] from the fallback. *)
Inductive str_or_float : Type :=
| IsStr (s : str)
| IsFloat (x : Float64.float).

Definition to_float (v : str_or_float) : py Float64.float :=
  match v with
  | IsStr s => Text.float_of_str s
  | IsFloat x => ret x
  end.

(** [bool(x)] for an [Optional[str]]. *)
Definition truthy (x : option str) : bool :=
  match x with
  | Some (_ :: _) => true
  | _ => false
  end.

Record fields : Type := {
  f_games : option str;
  f_kills : option str;
  f_win_pct : option str;
  f_avg_survived_sec : option Z;
  f_avg_damage : option str
}.

Definition search_fields (s : str) : py fields :=
  let games := _take s GAMES in
  let kills := _take s KILLS in
  let win_pct := _take s WIN in
  let t := _take s AVG_SURVIVED in
  avg_survived_sec <- (if truthy t
                       then match t with
                            | Some t' => parse_time_to_seconds t'
                            | None => ret None
                            end
                       else ret None) ;;
  let avg_damage := _take s AVG_DAMAGE in
  ret {| f_games := games; f_kills := kills; f_win_pct := win_pct;
         f_avg_survived_sec := avg_survived_sec;
         f_avg_damage := avg_damage |}.

(** [if games is None: kg = ...; if kills and kg: try: ... except: ...] *)
Definition fallback_games (s : str) (games kills : option str)
  : py (option str_or_float) :=
  match games with
  | Some g => ret (Some (IsStr g))
  | None =>
      let kg := _take s KG in
      if (truthy kills && truthy kg)%bool then
        try_except
          (k <- float_of kills ;;
           r <- float_of (option_map (Text.replace "," ".") kg) ;;
           q <- Float64.div k r ;;
           ret (Some (IsFloat q)))
          (ret None)
      else ret None
  end.

Definition parse_stats_in_text (s : str) : py (option (ModeStats Float64.float)) :=
  f <- search_fields s ;;
  games <- fallback_games s (f_games f) (f_kills f) ;;
  match games, f_kills f, f_win_pct f, f_avg_survived_sec f, f_avg_damage f with
  | Some g, Some k, Some w, Some t, Some d =>
      g0 <- to_float g ;;
      g' <- Float64.round g0 ;;
      k0 <- Text.float_of_str k ;;
      k' <- Float64.round k0 ;;
      w' <- match _num (Some w) with Some x => ret x | None => raise TypeError end ;;
      d' <- match _num (Some d) with Some x => ret x | None => raise TypeError end ;;
      ret (Some {| games := g'; kills := k'; win_pct := w';
                   avg_survived_sec := t; avg_damage := d' |})
  | _, _, _, _, _ => ret None
  end.

Definition parse_block := parse_block parse_stats_in_text.

End Part000.

(** ** What the properties are stated with *)

(** The data-model invariant of a [ModeStats]. *)
Definition valid_stats (st : ModeStats Float64.float) : Prop :=
  0 <= games st /\ 0 <= kills st /\ 0 <= avg_survived_sec st /\
  Float64.leb (Float64.of_Z 0) (win_pct st) = true /\
  Float64.leb (win_pct st) (Float64.of_Z 100) = true /\
  Float64.leb (Float64.of_Z 0) (avg_damage st) = true /\
  Float64.is_finite (avg_damage st) = true.

(** [x < y < z] on floats. *)
Definition between64 (x y z : Float64.float) : bool :=
  (Float64.ltb x y && Float64.ltb y z)%bool.

(** [x] lies strictly between [a] and [b], whichever is the larger. *)
Definition strictly_between64 (a b x : Float64.float) : bool :=
  (between64 a x b || between64 b x a)%bool.

(** Ten games, 22 kills, 39.6 % wins, no survival time, 10 damage: the
    raw score is one unit in the last place above 300. *)
Definition near_baseline_stats : ModeStats Float64.float :=
  {| games := 10; kills := 22;
     win_pct := Text.decimal_to_float false 396 1;
     avg_survived_sec := 0;
     avg_damage := Float64.of_Z 10 |}.

(** The survival component for [k] capped seconds. *)
Definition survival_of (k : Z) : Float64.float :=
  Float64.mul (Float64.quot_Z k SURVIVAL_CAP_SEC) (Float64.of_Z 50).






(** A mode with 100 games whose raw score is 450, and a mode never played. *)
Definition solo_450 : ModeStats Float64.float :=
  {| games := 100; kills := 300; win_pct := Float64.of_Z 30;
     avg_survived_sec := 180; avg_damage := Float64.of_Z 500 |}.

Definition duo_unplayed : ModeStats Float64.float :=
  {| games := 0; kills := 77; win_pct := Float64.of_Z 99;
     avg_survived_sec := 10; avg_damage := Float64.of_Z 999 |}.

(** The shape [M:SS] or [MM:SS] in the spec's words: one or two digits, a
    colon, two digits, and nothing else. *)
Definition time_shape (s : str) : bool :=
  match s with
  | [m; c; a; b] =>
      (Text.is_digit m && Text.eqb_char ":" c
       && Text.is_digit a && Text.is_digit b)%bool
  | [m1; m2; c; a; b] =>
      (Text.is_digit m1 && Text.is_digit m2 && Text.eqb_char ":" c
       && Text.is_digit a && Text.is_digit b)%bool
  | _ => false
  end.

(** [minutes * 60 + seconds] of a string of that shape. *)
Definition time_value (s : str) : Z :=
  match s with
  | [m; _; a; b] =>
      Text.digit_val m * 60 + (10 * Text.digit_val a + Text.digit_val b)
  | [m1; m2; _; a; b] =>
      (10 * Text.digit_val m1 + Text.digit_val m2) * 60
      + (10 * Text.digit_val a + Text.digit_val b)
  | _ => 0
  end.

(** The last character read once [w] has been read after [prev]. *)
Definition last_char (prev : option ascii) (w : str) : option ascii :=
  fold_left (fun _ c => Some c) w prev.

(** [matches r prev w rest g g']: at a position preceded by [prev] and
    followed by [w ++ rest], the pattern [r] can match [w], taking the
    groups from [g] to [g']. *)
Inductive matches : regex -> option ascii -> str -> str ->
                    captures -> captures -> Prop :=
| M_Eps prev rest g : matches Eps prev [] rest g g
| M_Chr p c prev rest g :
    p c = true -> matches (Chr p) prev [c] rest g g
| M_Rep p lo hi greedy prev w rest g :
    Forall (fun c => p c = true) w ->
    (lo <= List.length w)%nat ->
    (forall h, hi = Some h -> (List.length w <= h)%nat) ->
    matches (Rep p lo hi greedy) prev w rest g g
| M_Seq r1 r2 prev w1 w2 rest g g1 g2 :
    matches r1 prev w1 (w2 ++ rest) g g1 ->
    matches r2 (last_char prev w1) w2 rest g1 g2 ->
    matches (Seq r1 r2) prev (w1 ++ w2) rest g g2
| M_Alt_l r1 r2 prev w rest g g' :
    matches r1 prev w rest g g' -> matches (Alt r1 r2) prev w rest g g'
| M_Alt_r r1 r2 prev w rest g g' :
    matches r2 prev w rest g g' -> matches (Alt r1 r2) prev w rest g g'
| M_Group n r prev w rest g g' :
    matches r prev w rest g g' ->
    matches (Group n r) prev w rest g ((n, w) :: g')
| M_WordB prev rest g :
    xorb (word_before prev) (word_after rest) = true ->
    matches WordB prev [] rest g g
| M_Bos rest g : matches Bos None [] rest g g
| M_Eos prev rest g :
    (rest = [] \/ exists c, rest = [c] /\ Text.is_newline c = true) ->
    matches Eos prev [] rest g g.

(** The bodies of the groups numbered [n] in a pattern. *)
Fixpoint group_bodies (n : nat) (r : regex) : list regex :=
  match r with
  | Seq r1 r2 | Alt r1 r2 => group_bodies n r1 ++ group_bodies n r2
  | Group m r1 => (if Nat.eqb m n then [r1] else []) ++ group_bodies n r1
  | _ => []
  end.

(** The sign bit is clear, or the value is a NaN. *)
Definition no_sign (x : Float64.float) : bool :=
  match x with
  | S754_nan | S754_zero _ => true
  | S754_infinity s | S754_finite s _ _ => negb s
  end.

(** The parts [re.split] returns for a pattern with one group: a piece,
    then any number of times a group satisfying [P] and a piece. *)
Inductive separated (P : str -> Prop) : list str -> Prop :=
| sep_last piece : separated P [piece]
| sep_more piece g rest :
    P g -> separated P rest -> separated P (piece :: g :: rest).

(** The keys a result mapping may hold. *)
Definition MODE_NAMES : list string := ["SOLO"; "DUO"; "SQUAD"].

(** What the extractor guarantees of a record: no field is negative. *)
Definition stats_nonnegative (st : ModeStats Float64.float) : Prop :=
  0 <= games st /\ 0 <= kills st /\ 0 <= avg_survived_sec st /\
  Float64.leb (Float64.of_Z 0) (win_pct st) = true /\
  Float64.leb (Float64.of_Z 0) (avg_damage st) = true.



(** Texts the properties are checked on. *)
Definition sample_paste : str :=
  "SOLO 280 GAMES ... KILLS 1062 ... WIN % 20.7 ... AVG SURVIVED 2:37 ... AVG DAMAGE 432".

Definition sample_stats : ModeStats Float64.float :=
  {| games := 280; kills := 1062;
     win_pct := Text.decimal_to_float false 207 1;
     avg_survived_sec := 157;
     avg_damage := Float64.of_Z 432 |}.


Definition ratio_paste : str :=
  "KILLS 120 K/G 1.2 WIN 10 AVG SURVIVED 1:00 AVG DAMAGE 100".

Definition zero_ratio_paste : str :=
  "KILLS 120 K/G 0 WIN 10 AVG SURVIVED 1:00 AVG DAMAGE 100".

Definition malformed_win_paste : str :=
  "10 GAMES KILLS 5 WIN 1.2.3 AVG SURVIVED 1:00 AVG DAMAGE 100".

Definition lone_point_paste : str :=
  "1 GAME KILL 1 WIN . AVG SURVIVED 1:00 AVG DAMAGE 1".

Definition comma_paste : str :=
  "10 GAMES KILLS 5 WIN 20,7 AVG SURVIVED 1:00 AVG DAMAGE 100".

Definition point_paste : str :=
  "10 GAMES KILLS 5 WIN 20.7 AVG SURVIVED 1:00 AVG DAMAGE 100".

(** A valid record whose base does not fit a float. *)
Definition huge_kills_stats : ModeStats Float64.float :=
  {| games := 1; kills := 2 ^ 1024; win_pct := Float64.of_Z 0;
     avg_survived_sec := 0; avg_damage := Float64.of_Z 0 |}.

(** ** Further code of the two files: the page around the core *)

(** [parsed_modes = parse_block(raw) if raw.strip() else {}] *)
Definition parsed_modes
    (parse_block : str -> py (list (string * ModeStats Float64.float)))
    (raw : str) : py (list (string * ModeStats Float64.float)) :=
  match Text.strip raw with
  | [] => ret []
  | _ :: _ => parse_block raw
  end.

(** [sec = parse_time_to_seconds(time_str) or 0] in the manual-entry form. *)
Definition manual_seconds (time_str : str) : py Z :=
  r <- parse_time_to_seconds time_str ;;
  ret (match r with
       | Some v => if v =? 0 then 0 else v
       | None => 0
       end).

(** [for m, key in [(m1, "SOLO"), (m2, "DUO"), (m3, "SQUAD")]:
       if m: manual_modes[key] = m] *)
Definition manual_modes (m1 m2 m3 : option (ModeStats Float64.float))
  : list (string * ModeStats Float64.float) :=
  fold_left (fun modes mk =>
               match fst mk with
               | Some m => dict_set (snd mk) m modes
               | None => modes
               end)
            [(m1, "SOLO"); (m2, "DUO"); (m3, "SQUAD")] [].

(** [d.update(other)]: the entries of [other] are set in their order. *)
Definition dict_update {V : Type} (d other : list (string * V))
  : list (string * V) :=
  fold_left (fun acc kv => dict_set (fst kv) (snd kv) acc) other d.

(** [modes = parsed_modes.copy(); modes.update(manual_modes)] *)
Definition merge_modes (parsed manual : list (string * ModeStats Float64.float))
  : list (string * ModeStats Float64.float) :=
  dict_update parsed manual.

(** The "Tier" cell of a mode's row: [tier_from_score(ms.adj_spi())]. *)
Definition mode_tier (ms : ModeStats Float64.float) : py string :=
  adj <- adj_spi ms ;;
  ret (tier_from_score adj).

(** The tier under "Overall Rating":
    [tier_from_score(overall_adj_spi(modes))]. *)
Definition overall_tier (modes : list (string * ModeStats Float64.float))
  : py string :=
  overall <- overall_adj_spi modes ;;
  ret (tier_from_score overall).

(** ** What the further properties are stated with *)

(** The place of a name in a list, the length when it is not there. *)
Fixpoint index_of (name : string) (l : list string) : nat :=
  match l with
  | [] => O
  | n :: l' => if String.eqb n name then O else S (index_of name l')
  end.

(** The rank of a tier: 0 for "Grandmaster", 6 for "Bronze". *)
Definition tier_rank (name : string) : nat := index_of name (map fst TIERS).

(** The length of the run of characters of class [p] a text starts with,
    and the text after that run. *)
Fixpoint run (p : ascii -> bool) (s : str) : nat :=
  match s with
  | c :: s' => if p c then S (run p s') else O
  | [] => O
  end.

Fixpoint drop_run (p : ascii -> bool) (s : str) : str :=
  match s with
  | c :: s' => if p c then drop_run p s' else s
  | [] => []
  end.

(** A text with every run of blanks replaced by one space; [in_run] tells
    that the character before was a blank. *)
Fixpoint collapse (in_run : bool) (s : str) : str :=
  match s with
  | [] => []
  | c :: s' =>
      if blank c then
        if in_run then collapse true s' else " "%char :: collapse true s'
      else c :: collapse false s'
  end.

(** The characters below U+0100. *)
Definition all_ascii : list ascii := map ascii_of_nat (List.seq 0%nat 256%nat).

(** Every character of class [p] is of class [q]. *)
Definition class_within (p q : ascii -> bool) : bool :=
  forallb (fun c => implb (p c) (q c)) all_ascii.

(** A sufficient test that every text a pattern matches holds a character
    of class [q]. *)
Fixpoint requires (q : ascii -> bool) (r : regex) : bool :=
  match r with
  | Chr p => class_within p q
  | Rep p lo _ _ => (Nat.ltb 0 lo && class_within p q)%bool
  | Seq r1 r2 => (requires q r1 || requires q r2)%bool
  | Alt r1 r2 => (requires q r1 && requires q r2)%bool
  | Group _ r1 => requires q r1
  | Eps | WordB | Bos | Eos => false
  end.

(** A sufficient test that every match of a pattern sets group [n]. *)
Fixpoint sets_group (n : nat) (r : regex) : bool :=
  match r with
  | Group m r1 => (Nat.eqb m n || sets_group n r1)%bool
  | Seq r1 r2 => (sets_group n r1 || sets_group n r2)%bool
  | Alt r1 r2 => (sets_group n r1 && sets_group n r2)%bool
  | Eps | Chr _ | Rep _ _ _ _ | WordB | Bos | Eos => false
  end.

(** ** What the rounding of binary64 is described with *)

(** [2^e] as a rational, for any integer [e]. *)
Definition pow2 (e : Z) : Q := (2 ^ e)%Q.

(** The real number a float stands for; zeros, and the values that are not
    numbers, are given 0. *)
Definition value (x : Float64.float) : Q :=
  match x with
  | S754_finite s m e =>
      if s then (- (inject_Z (Z.pos m) * pow2 e))%Q
      else (inject_Z (Z.pos m) * pow2 e)%Q
  | _ => 0%Q
  end.

(** The number of binary digits of a positive integer. *)
Definition digits (m : positive) : Z := Z.pos (digits2_pos m).

(** The exponent a binary64 number of that magnitude is written with. *)
Definition cexp (magnitude : Z) : Z :=
  fexp Float64.prec Float64.emax magnitude.

(** The float with sign [s] whose mantissa was rounded to [m] at exponent
    [e]: a mantissa of 2^53 is written 2^52 one exponent higher, and an
    exponent beyond the range gives an infinity. *)
Definition rounded (s : bool) (m e : Z) : Float64.float :=
  match m with
  | Z.pos p =>
      if m =? 2 ^ 53 then
        if e + 1 <=? 971 then S754_finite s (2 ^ 52)%positive (e + 1)
        else S754_infinity s
      else if e <=? 971 then S754_finite s p e else S754_infinity s
  | Z0 => S754_zero s
  | Z.neg _ => S754_nan
  end.

(** A float that is a zero or a positive number, in canonical form. *)
Definition nonneg_number (x : Float64.float) : bool :=
  match x with
  | S754_zero _ => true
  | S754_finite false m e => bounded Float64.prec Float64.emax m e
  | _ => false
  end.

(** A float [d] is at most one unit in the last place above [x], and then
    has 53 digits. *)
Definition just_above (d : Float64.float) (x : Q) : Prop :=
  (value d <= x)%Q \/
  exists (m : positive) (e : Z),
    d = S754_finite false m e /\ 2 ^ 52 <= Z.pos m /\
    (inject_Z (Z.pos m - 1) * pow2 e <= x)%Q.

(** 10^18 games, for which the weight [games / (games + 50)] rounds to
    1.0, and a kill count whose score, less 300, is rounded up. *)
Definition huge_games_stats : ModeStats Float64.float :=
  {| games := 10 ^ 18; kills := 360287970189642822500000000000000;
     win_pct := Float64.of_Z 0; avg_survived_sec := 0;
     avg_damage := Float64.of_Z 0 |}.

(** * Properties of the score calculator *)

Ltac eval_float x :=
  let t := fresh "t" in set (t := x); vm_compute in t; subst t.

(** ** Tiers *)

Lemma tier_first_match {F : Type} `{Arith F} (score : F) :
  forall (before : list (string * Z)) (name : string) (threshold : Z)
         (after : list (string * Z)),
    (forall n t, In (n, t) before -> ge_int score t = false) ->
    ge_int score threshold = true ->
    tier_loop score (before ++ (name, threshold) :: after) = name.
Proof.
  induction before as [|[n t] before IH]; intros name threshold after Hb Hge; simpl.
  - now rewrite Hge.
  - rewrite (Hb n t) by (left; reflexivity).
    apply IH; [intros n0 t0 Hin; apply (Hb n0 t0); right; exact Hin | assumption].
Qed.

Lemma SFleb_exponent (m1 : positive) (e1 : Z) (m : positive) (e : Z) :
  SFleb (S754_finite false m1 e1) (S754_finite false m e) = true -> e1 <= e.
Proof.
  unfold SFleb, SFcompare.
  destruct (Z.compare_spec e1 e); intros Hc; try lia; discriminate Hc.
Qed.

Lemma SFltb_exponent (m1 : positive) (e1 : Z) (m : positive) (e : Z) :
  SFltb (S754_finite false m1 e1) (S754_finite false m e) = true -> e1 <= e.
Proof.
  unfold SFltb, SFcompare.
  destruct (Z.compare_spec e1 e); intros Hc; try lia; discriminate Hc.
Qed.

Lemma SFltb_not_leb (x y : spec_float) : SFltb x y = true -> SFleb y x = false.
Proof.
  unfold SFltb, SFleb, SFcompare.
  destruct x as [sx|sx| |sx mx ex], y as [sy|sy| |sy my ey];
    try destruct sx; try destruct sy; intros Hc; try reflexivity;
    try discriminate Hc;
    rewrite (Z.compare_antisym ex ey);
    change (Pos.compare_cont Eq my mx) with (Pos.compare my mx);
    change (Pos.compare_cont Eq mx my) with (Pos.compare mx my) in Hc;
    rewrite (Pos.compare_antisym mx my);
    destruct (ex ?= ey); simpl in *; try reflexivity; try discriminate Hc;
    destruct (Pos.compare mx my); simpl in *; try reflexivity; discriminate Hc.
Qed.

(** A score below 250 reaches none of the six thresholds above the floor. *)
Lemma below_250_no_threshold (score : Float64.float) (th : Z) :
  Float64.ltb score (Float64.of_Z 250) = true ->
  In th [750; 650; 550; 450; 350; 250] ->
  Float64.ge_int score th = false.
Proof.
  unfold Float64.ge_int, Float64.ltb, Float64.leb. intros Hlt Hin.
  assert (Hth : th = 250 \/
                exists m e, Float64.of_Z th = S754_finite false m e /\ -45 < e).
  { simpl in Hin.
    destruct Hin as [<-|[<-|[<-|[<-|[<-|[<-|[]]]]]]];
      [right|right|right|right|right|left; reflexivity];
      eexists; eexists; (split; [vm_compute; reflexivity | lia]). }
  destruct Hth as [-> | (m & e & -> & He)].
  - now apply SFltb_not_leb.
  - revert Hlt. eval_float (Float64.of_Z 250). intros Hlt.
    destruct score as [s|s| |s m0 e0]; try destruct s; try reflexivity;
      try discriminate Hlt.
    apply SFltb_exponent in Hlt.
    destruct (SFleb (S754_finite false m e) (S754_finite false m0 e0)) eqn:Hle;
      [apply SFleb_exponent in Hle; lia | reflexivity].
Qed.

Lemma below_250_is_bronze (score : Float64.float) :
  Float64.ltb score (Float64.of_Z 250) = true ->
  tier_from_score score = "Bronze".
Proof.
  intros Hlt.
  unfold tier_from_score, TIERS, tier_loop, ge_int, binary64_arith.
  rewrite !(below_250_no_threshold _ Hlt) by (simpl; tauto).
  now destruct (Float64.ge_int score (- 10 ^ 9)).
Qed.

(** C3: [tier_from_score] returns the name of the first threshold, in the
    descending order of [TIERS], that the score reaches; 750 is
    "Grandmaster", the float written 749.999 is "Master", -5 is "Bronze",
    and every score below 250 (any negative number, minus infinity) is
    "Bronze". *)
Theorem tier_from_score_first_match :
  (forall (score : Float64.float) before name threshold after,
     TIERS = before ++ (name, threshold) :: after ->
     (forall n t, In (n, t) before -> ge_int score t = false) ->
     ge_int score threshold = true ->
     tier_from_score score = name) /\
  tier_from_score (Float64.of_Z 750) = "Grandmaster" /\
  (exists x, Text.float_of_str "749.999" = inr x /\
             tier_from_score x = "Master") /\
  tier_from_score (Float64.of_Z (-5)) = "Bronze" /\
  (forall score : Float64.float,
     Float64.ltb score (Float64.of_Z 250) = true ->
     tier_from_score score = "Bronze").
Proof.
  split; [|split; [|split; [|split]]].
  - intros score before name threshold after Ht Hb Hge.
    unfold tier_from_score. rewrite Ht. now apply tier_first_match.
  - vm_compute. reflexivity.
  - eexists. split; vm_compute; reflexivity.
  - vm_compute. reflexivity.
  - exact below_250_is_bronze.
Qed.

Lemma tier_from_score_first_match_witness :
  Float64.ltb (Float64.of_Z (-1000000)) (Float64.of_Z 250) = true /\
  tier_from_score (Float64.of_Z (-1000000)) = "Bronze".
Proof.
  split; [vm_compute; reflexivity|].
  apply (proj2 (proj2 (proj2 (proj2 tier_from_score_first_match)))).
  vm_compute. reflexivity.
Defined.

(** ** Components *)

Lemma survival_table :
  forallb (fun n => let k := Z.of_nat n in
             (Float64.is_finite (Float64.quot_Z k SURVIVAL_CAP_SEC)
              && Float64.leb (Float64.of_Z 0) (survival_of k)
              && Float64.leb (survival_of k) (Float64.of_Z 50))%bool)
          (List.seq 0%nat 181%nat) = true.
Proof. vm_compute. reflexivity. Qed.

Lemma survival_in_range (k : Z) :
  0 <= k <= 180 ->
  Float64.is_finite (Float64.quot_Z k SURVIVAL_CAP_SEC) = true /\
  Float64.leb (Float64.of_Z 0) (survival_of k) = true /\
  Float64.leb (survival_of k) (Float64.of_Z 50) = true.
Proof.
  intros Hk.
  pose proof (proj1 (forallb_forall _ _) survival_table (Z.to_nat k)) as Ht.
  cbv beta zeta in Ht. rewrite Z2Nat.id in Ht by lia.
  assert (Hin : In (Z.to_nat k) (List.seq 0%nat 181%nat)) by (apply in_seq; lia).
  apply Ht in Hin. apply andb_prop in Hin. destruct Hin as [Hin H3].
  apply andb_prop in Hin. tauto.
Qed.

(** What [spi_components] does once the base is known. *)
Lemma spi_components_after_base (st : ModeStats Float64.float) :
  0 <= avg_survived_sec st ->
  spi_components st =
    (base <- (if games st >? 0
              then q <- Float64.int_truediv (kills st) (games st) ;;
                   ret (Float64.mul q (Float64.of_Z 100))
              else ret (Float64.of_Z 0)) ;;
     ret {| Base := base;
            Survival := survival_of (Z.min (avg_survived_sec st) SURVIVAL_CAP_SEC);
            Damage := Float64.mul (SFdiv Float64.prec Float64.emax
                                     (avg_damage st) (Float64.of_Z 500))
                                  (Float64.of_Z 40);
            WinBonus := Float64.mul (win_pct st) (Float64.of_Z 2) |}).
Proof.
  intros Ha. unfold spi_components.
  assert (Hr : int_truediv (Z.min (avg_survived_sec st) SURVIVAL_CAP_SEC)
                           SURVIVAL_CAP_SEC
               = ret (Float64.quot_Z (Z.min (avg_survived_sec st) SURVIVAL_CAP_SEC)
                                     SURVIVAL_CAP_SEC)).
  { destruct (survival_in_range (k := Z.min (avg_survived_sec st) SURVIVAL_CAP_SEC))
      as (Hf & _); [unfold SURVIVAL_CAP_SEC; lia|].
    unfold int_truediv, binary64_arith, Float64.int_truediv.
    change (SURVIVAL_CAP_SEC =? 0) with false. cbv iota. now rewrite Hf. }
  rewrite Hr.
  destruct (if games st >? 0 then _ else _) as [e|base]; reflexivity.
Qed.

Lemma finite_below_infinity (b : Float64.float) :
  Float64.is_finite b = true -> Float64.ltb b (S754_infinity false) = true.
Proof. destruct b as [s|s| |s m e]; try discriminate; intros _; reflexivity. Qed.

(** Statistics whose base, damage and win bonus overflow to infinity. *)
Lemma components_reach_infinity :
  exists (st : ModeStats Float64.float) (c : Components Float64.float),
    0 <= games st /\ 0 <= kills st /\ 0 <= avg_survived_sec st /\
    spi_components st = inr c /\
    Base c = S754_infinity false /\ Damage c = S754_infinity false /\
    WinBonus c = S754_infinity false.
Proof.
  exists {| games := 1; kills := 2 ^ 1023; win_pct := S754_infinity false;
            avg_survived_sec := 0; avg_damage := S754_infinity false |}.
  eexists. repeat split; try (simpl; lia); vm_compute; reflexivity.
Qed.

(** Over the rationals the three uncapped components pass any bound. *)
Lemma components_unbounded_exact (bound : Q) :
  exists (st : ModeStats Q) (c : Components Q),
    0 <= games st /\ 0 <= kills st /\ 0 <= avg_survived_sec st /\
    spi_components st = inr c /\
    (bound < Base c)%Q /\ (bound < Damage c)%Q /\ (bound < WinBonus c)%Q.
Proof.
  set (n := Z.max 0 (Qceiling bound) + 1).
  assert (Hn : (bound < inject_Z n)%Q).
  { apply Qle_lt_trans with (inject_Z (Qceiling bound)); [apply Qle_ceiling|].
    rewrite <- Zlt_Qlt. unfold n. lia. }
  assert (Hn1 : (1 <= inject_Z n)%Q).
  { change 1%Q with (inject_Z 1). rewrite <- Zle_Qle. unfold n. lia. }
  exists {| games := 1; kills := n; win_pct := inject_Z n;
            avg_survived_sec := 0; avg_damage := inject_Z (13 * n) |}.
  eexists. split; [simpl; lia|]. split; [simpl; unfold n; lia|].
  split; [simpl; lia|]. split; [reflexivity|].
  cbn [Base Damage WinBonus kills games win_pct avg_damage].
  unfold mul, const, exact_arith. rewrite inject_Z_mult.
  change (inject_Z 1) with 1%Q. change (inject_Z 2) with 2%Q.
  change (inject_Z 13) with 13%Q. change (inject_Z 40) with 40%Q.
  change (inject_Z 100) with 100%Q. change (inject_Z 500) with 500%Q.
  revert Hn Hn1. generalize (inject_Z n). intros x Hn Hn1.
  unfold Qdiv. change (/ 1)%Q with 1%Q. change (/ 500)%Q with (1 # 500)%Q.
  repeat split; lra.
Qed.

(** C2: for every record with a non-negative survival time, the survival
    component is (min(avg_survived_sec, 180) / 180) * 50, lies in [0, 50],
    and is exactly 50.0 from 180 seconds on (so at 180 and at 500); the
    base, damage and win-bonus components are not capped: in binary64 they
    reach infinity, and over the rationals they pass every bound. *)
Theorem survival_component_capped :
  (forall (st : ModeStats Float64.float) (c : Components Float64.float),
     0 <= avg_survived_sec st ->
     spi_components st = inr c ->
     Survival c = Float64.mul
                    (Float64.quot_Z (Z.min (avg_survived_sec st) 180) 180)
                    (Float64.of_Z 50) /\
     Float64.leb (Float64.of_Z 0) (Survival c) = true /\
     Float64.leb (Survival c) (Float64.of_Z 50) = true /\
     (180 <= avg_survived_sec st -> Survival c = Float64.of_Z 50)) /\
  (forall st : ModeStats Float64.float,
     0 <= avg_survived_sec st ->
     games st <= 0 \/
     Float64.is_finite (Float64.quot_Z (kills st) (games st)) = true ->
     exists c, spi_components st = inr c) /\
  (forall bound : Float64.float,
     Float64.is_finite bound = true ->
     exists (st : ModeStats Float64.float) (c : Components Float64.float),
       0 <= games st /\ 0 <= kills st /\ 0 <= avg_survived_sec st /\
       spi_components st = inr c /\
       Float64.ltb bound (Base c) = true /\
       Float64.ltb bound (Damage c) = true /\
       Float64.ltb bound (WinBonus c) = true) /\
  (forall bound : Q,
     exists (st : ModeStats Q) (c : Components Q),
       0 <= games st /\ 0 <= kills st /\ 0 <= avg_survived_sec st /\
       spi_components st = inr c /\
       (bound < Base c)%Q /\ (bound < Damage c)%Q /\ (bound < WinBonus c)%Q).
Proof.
  split; [|split; [|split]].
  - intros st c Ha Hc. rewrite (spi_components_after_base _ Ha) in Hc.
    destruct (if games st >? 0 then _ else _) as [e|base]; [discriminate Hc|].
    cbn [bind ret] in Hc. injection Hc as <-. cbn [Survival].
    destruct (survival_in_range (k := Z.min (avg_survived_sec st) SURVIVAL_CAP_SEC))
      as (_ & H0 & H50); [unfold SURVIVAL_CAP_SEC; lia|].
    split; [reflexivity|]. split; [exact H0|]. split; [exact H50|].
    intros H180. unfold SURVIVAL_CAP_SEC. rewrite Z.min_r by lia.
    vm_compute. reflexivity.
  - intros st Ha Hg. rewrite (spi_components_after_base _ Ha).
    destruct (games st >? 0) eqn:Hpos; [|eexists; reflexivity].
    apply Z.gtb_lt in Hpos. destruct Hg as [Hg|Hg]; [lia|].
    unfold Float64.int_truediv.
    assert (Hz : (games st =? 0) = false) by (apply Z.eqb_neq; lia).
    rewrite Hz, Hg. eexists. reflexivity.
  - intros bound Hb.
    destruct components_reach_infinity
      as (st & c & Hg & Hk & Ha & Hc & HB & HD & HW).
    exists st, c. rewrite HB, HD, HW.
    repeat split; try assumption; now apply finite_below_infinity.
  - exact components_unbounded_exact.
Qed.

Lemma survival_component_capped_witness :
  exists c : Components Float64.float,
    spi_components solo_450 = inr c /\
    Survival c = Float64.of_Z 50.
Proof.
  eexists. split; [vm_compute; reflexivity|].
  apply (proj1 survival_component_capped solo_450);
    [simpl; lia | vm_compute; reflexivity | simpl; lia].
Defined.

(** ** Shrinkage *)

(** C1 (as stated): in binary64 the adjusted score of a valid record with
    games > 0 and a raw score other than 300 is not always strictly between
    300 and the raw score. For 10 games, 22 kills, 39.6 % wins and 10
    average damage the raw score is the float next above 300 and the
    adjusted score is exactly 300.0. *)
Lemma shrinkage_not_strict_in_binary64 :
  ~ (forall (st : ModeStats Float64.float) (s a : Float64.float),
       valid_stats st -> 0 < games st ->
       spi st = inr s -> adj_spi st = inr a ->
       Float64.eqb s (Float64.of_Z NEUTRAL_BASELINE) = false ->
       strictly_between64 (Float64.of_Z NEUTRAL_BASELINE) s a = true).
Proof.
  intros Hclaim.
  assert (Hv : valid_stats near_baseline_stats).
  { unfold valid_stats. simpl. repeat split; try lia; vm_compute; reflexivity. }
  assert (H0 : 0 < games near_baseline_stats) by (simpl; lia).
  assert (Hs : spi near_baseline_stats
               = inr (S754_finite false 5277655813324801 (-44)))
    by (vm_compute; reflexivity).
  assert (Ha : adj_spi near_baseline_stats
               = inr (S754_finite false 5277655813324800 (-44)))
    by (vm_compute; reflexivity).
  assert (Hne : Float64.eqb (S754_finite false 5277655813324801 (-44))
                            (Float64.of_Z NEUTRAL_BASELINE) = false)
    by (vm_compute; reflexivity).
  pose proof (Hclaim _ _ _ Hv H0 Hs Ha Hne) as Hb.
  vm_compute in Hb. discriminate Hb.
Qed.

(** ** Aggregation *)















(** * The matcher is sound for [matches] *)

Lemma last_char_app (prev : option ascii) (w1 w2 : str) :
  last_char prev (w1 ++ w2) = last_char (last_char prev w1) w2.
Proof. unfold last_char. apply fold_left_app. Qed.

Lemma consumed_app (w rest : str) : consumed (w ++ rest) rest = w.
Proof.
  unfold consumed. rewrite length_app, Nat.add_sub.
  rewrite firstn_app, Nat.sub_diag, firstn_all. simpl. apply app_nil_r.
Qed.

Lemma rep_sound {A : Type} (p : ascii -> bool) (greedy : bool) :
  forall (s : str) (lo : nat) (hi : option nat) (prev : option ascii)
         (k : option ascii -> str -> option A) (res : A),
    rep p greedy lo hi prev s k = Some res ->
    exists w rest,
      s = w ++ rest /\
      Forall (fun c => p c = true) w /\
      (lo <= List.length w)%nat /\
      (forall h, hi = Some h -> (List.length w <= h)%nat) /\
      k (last_char prev w) rest = Some res.
Proof.
  assert (Hstop : forall s lo hi prev (k : option ascii -> str -> option A) res,
             match lo with O => k prev s | S _ => None end = Some res ->
             exists w rest,
               s = w ++ rest /\ Forall (fun c => p c = true) w /\
               (lo <= List.length w)%nat /\
               (forall h, hi = Some h -> (List.length w <= h)%nat) /\
               k (last_char prev w) rest = Some res).
  { intros s lo hi prev k res H. destruct lo; [|discriminate H].
    exists [], s. repeat split; simpl; auto; intros; lia. }
  assert (Hmore : forall c s' lo hi prev (k : option ascii -> str -> option A) res,
             p c = true -> may_repeat hi = true ->
             (exists w rest,
                 s' = w ++ rest /\ Forall (fun c => p c = true) w /\
                 (pred lo <= List.length w)%nat /\
                 (forall h, option_map pred hi = Some h -> (List.length w <= h)%nat) /\
                 k (last_char (Some c) w) rest = Some res) ->
             exists w rest,
               c :: s' = w ++ rest /\ Forall (fun c => p c = true) w /\
               (lo <= List.length w)%nat /\
               (forall h, hi = Some h -> (List.length w <= h)%nat) /\
               k (last_char prev w) rest = Some res).
  { intros c s' lo hi prev k res Hp Hm (w & rest & -> & Hall & Hlo & Hhi & Hk).
    exists (c :: w), rest. split; [reflexivity|]. split; [now constructor|].
    split; [simpl; lia|]. split; [|exact Hk].
    intros h ->. simpl in *. destruct h; [discriminate Hm|].
    specialize (Hhi h eq_refl). lia. }
  induction s as [|c s' IH]; intros lo hi prev k res H; simpl in H.
  - now apply Hstop.
  - destruct (p c && may_repeat hi)%bool eqn:Hc; [|now apply Hstop].
    apply andb_prop in Hc. destruct Hc as [Hp Hm].
    destruct greedy.
    + destruct (rep p true (pred lo) (option_map pred hi) (Some c) s' k) eqn:Hr.
      * injection H as <-. apply Hmore; auto.
      * now apply Hstop.
    + destruct (match lo with O => k prev (c :: s') | S _ => None end) eqn:Hs.
      * injection H as <-. now apply Hstop.
      * apply Hmore; auto.
Qed.

Lemma rmatch_sound {A : Type} (r : regex) :
  forall (prev : option ascii) (s : str) (g : captures)
         (k : option ascii -> str -> captures -> option A) (res : A),
    rmatch r prev s g k = Some res ->
    exists w rest g',
      s = w ++ rest /\ matches r prev w rest g g' /\
      k (last_char prev w) rest g' = Some res.
Proof.
  induction r as [|p|p lo hi greedy|r1 IH1 r2 IH2|r1 IH1 r2 IH2|n r1 IH1| | |];
    intros prev s g k res H; simpl in H.
  - exists [], s, g. repeat split; [constructor | exact H].
  - destruct s as [|c s']; [discriminate H|].
    destruct (p c) eqn:Hp; [|discriminate H].
    exists [c], s', g. repeat split; [now constructor | exact H].
  - apply rep_sound in H. destruct H as (w & rest & -> & Hall & Hlo & Hhi & Hk).
    exists w, rest, g. repeat split; [now constructor | exact Hk].
  - apply IH1 in H. destruct H as (w1 & rest1 & g1 & -> & Hm1 & H).
    apply IH2 in H. destruct H as (w2 & rest & g2 & -> & Hm2 & H).
    exists (w1 ++ w2), rest, g2. rewrite app_assoc. split; [reflexivity|].
    split; [now apply M_Seq with g1 | now rewrite last_char_app].
  - destruct (rmatch r1 prev s g k) eqn:H1.
    + injection H as <-. apply IH1 in H1.
      destruct H1 as (w & rest & g' & -> & Hm & Hk).
      exists w, rest, g'. repeat split; [now apply M_Alt_l | exact Hk].
    + apply IH2 in H. destruct H as (w & rest & g' & -> & Hm & Hk).
      exists w, rest, g'. repeat split; [now apply M_Alt_r | exact Hk].
  - apply IH1 in H. destruct H as (w & rest & g' & -> & Hm & Hk).
    rewrite consumed_app in Hk.
    exists w, rest, ((n, w) :: g'). repeat split; [now constructor | exact Hk].
  - destruct (xorb (word_before prev) (word_after s)) eqn:Hb; [|discriminate H].
    exists [], s, g. repeat split; [now constructor | exact H].
  - destruct prev; [discriminate H|].
    exists [], s, g. repeat split; [constructor | exact H].
  - exists [], s, g.
    destruct s as [|c [|c' s']]; try discriminate H.
    + repeat split; [constructor; now left | exact H].
    + destruct (Text.is_newline c) eqn:Hn; [|discriminate H].
      repeat split; [constructor; right; now exists c | exact H].
Qed.

(** A group of the result was there before or was matched by a body. *)
Lemma capture_origin (r : regex) (prev : option ascii) (w rest : str)
    (g g' : captures) :
  matches r prev w rest g g' ->
  forall (n : nat) (x : str),
    lookup n g' = Some x ->
    lookup n g = Some x \/
    exists body prev' rest' ga gb,
      In body (group_bodies n r) /\ matches body prev' x rest' ga gb.
Proof.
  induction 1 as [ | | |r1 r2 prev w1 w2 rest g g1 g2 H1 IH1 H2 IH2
                 |r1 r2 prev w rest g g' H1 IH1|r1 r2 prev w rest g g' H1 IH1
                 |m r prev w rest g g' H1 IH1| | | ];
    intros n x Hx; simpl; auto.
  - apply IH2 in Hx. destruct Hx as [Hx | (b & p' & r' & ga & gb & Hin & Hm)].
    + apply IH1 in Hx. destruct Hx as [Hx | (b & p' & r' & ga & gb & Hin & Hm)];
        [now left|]. right. exists b, p', r', ga, gb. split; [|exact Hm].
      apply in_or_app. now left.
    + right. exists b, p', r', ga, gb. split; [|exact Hm].
      apply in_or_app. now right.
  - apply IH1 in Hx. destruct Hx as [Hx | (b & p' & r' & ga & gb & Hin & Hm)];
      [now left|]. right. exists b, p', r', ga, gb. split; [|exact Hm].
    apply in_or_app. now left.
  - apply IH1 in Hx. destruct Hx as [Hx | (b & p' & r' & ga & gb & Hin & Hm)];
      [now left|]. right. exists b, p', r', ga, gb. split; [|exact Hm].
    apply in_or_app. now right.
  - simpl in Hx. destruct (Nat.eqb m n) eqn:Hmn.
    + injection Hx as <-. right. exists r, prev, rest, g, g'.
      split; [now left | exact H1].
    + apply IH1 in Hx. destruct Hx as [Hx | (b & p' & r' & ga & gb & Hin & Hm)];
        [now left|]. right. exists b, p', r', ga, gb. split; [exact Hin | exact Hm].
Qed.

Lemma match_at_group (r : regex) (prev : option ascii) (s : str)
    (m : match_object) (n : nat) (x : str) :
  match_at r prev s = Some m -> group m n = Some x ->
  exists body prev' rest' ga gb,
    In body (group_bodies n r) /\ matches body prev' x rest' ga gb.
Proof.
  unfold match_at, group. intros Hm Hx.
  apply rmatch_sound in Hm. destruct Hm as (w & rest & g' & _ & Hm & Hk).
  unfold accept in Hk. injection Hk as <-. simpl in Hx.
  destruct (capture_origin Hm _ Hx) as [Hnil | H]; [discriminate Hnil | exact H].
Qed.

Lemma search_from_match (r : regex) :
  forall (s : str) (prev : option ascii) (m : match_object),
    search_from r prev s = Some m ->
    exists prev' s', match_at r prev' s' = Some m.
Proof.
  induction s as [|c s' IH]; intros prev m H; simpl in H.
  - destruct (match_at r prev []) eqn:Hm; [|discriminate H].
    injection H as <-. now exists prev, [].
  - destruct (match_at r prev (c :: s')) eqn:Hm.
    + injection H as <-. now exists prev, (c :: s').
    + now apply IH in H.
Qed.

Lemma search_group (r : regex) (s : str) (m : match_object) (n : nat) (x : str) :
  search r s = Some m -> group m n = Some x ->
  exists body prev' rest' ga gb,
    In body (group_bodies n r) /\ matches body prev' x rest' ga gb.
Proof.
  unfold search. intros Hs Hx. apply search_from_match in Hs.
  destruct Hs as (prev' & s' & Hm). eapply match_at_group; eassumption.
Qed.

(** * Survival times *)

Lemma lstrip_head (s : str) (c : ascii) (t : str) :
  Text.lstrip s = c :: t -> Text.is_space c = false.
Proof.
  induction s as [|a s IH]; simpl; [discriminate|].
  destruct (Text.is_space a) eqn:Ha; [exact IH|].
  intros H. injection H as <- _. exact Ha.
Qed.

Lemma strip_last (s l : str) (c : ascii) :
  Text.strip s = l ++ [c] -> Text.is_space c = false.
Proof.
  unfold Text.strip, Text.rstrip. intros H.
  apply (f_equal (@rev ascii)) in H.
  rewrite rev_involutive, rev_app_distr in H. simpl in H.
  now apply lstrip_head in H.
Qed.

Lemma newline_is_space (c : ascii) :
  Text.is_newline c = true -> Text.is_space c = true.
Proof.
  unfold Text.is_newline, Text.is_space, Text.in_range. intros H.
  apply N.eqb_eq in H. rewrite H. reflexivity.
Qed.

Lemma digit_not_sign (c : ascii) (s : str) :
  Text.is_digit c = true -> Text.split_sign (c :: s) = (false, c :: s).
Proof.
  destruct c as [[] [] [] [] [] [] [] []]; intros H;
    try discriminate H; reflexivity.
Qed.

Lemma int_of_digits (c : ascii) (s : str) :
  Text.is_digit c = true -> Text.all_digits s = true ->
  Text.int_of_str (c :: s) = inr (Text.digits_val (c :: s)).
Proof.
  intros Hc Hs. unfold Text.int_of_str. rewrite (@digit_not_sign c s Hc).
  unfold Text.all_digits in *. simpl. now rewrite Hc, Hs.
Qed.

Lemma digit_not_colon (c : ascii) :
  Text.is_digit c = true -> Text.eqb_char ":" c = false.
Proof.
  destruct c as [[] [] [] [] [] [] [] []]; intros H;
    try discriminate H; reflexivity.
Qed.

Lemma no_trailing_newline (x : str) :
  (forall l c, x = l ++ [c] -> Text.is_newline c = false) ->
  x <> [] -> Text.is_newline (last x "000"%char) = false.
Proof.
  intros Hlast Hx. apply (Hlast (removelast x)).
  now apply app_removelast_last.
Qed.

Ltac classify c :=
  let Hd := fresh "Hd" in
  let Hc := fresh "Hc" in
  destruct (Text.is_digit c) eqn:Hd;
  [ pose proof (@digit_not_colon c Hd) as Hc
  | destruct (Text.eqb_char ":" c) eqn:Hc ].

Ltac use_classes :=
  repeat match goal with
         | H : ?f ?c = ?b |- context [?f ?c] => rewrite H
         end.

Ltac step_matcher :=
  cbn [rmatch rep may_repeat option_map pred andb orb accept bind ret
       int_of group groups lookup Nat.eqb consumed List.length
       Nat.sub firstn].

Ltac finish_time :=
  rewrite !int_of_digits
    by (try assumption; unfold Text.all_digits; simpl; use_classes; reflexivity);
  cbn [bind ret]; unfold Text.digits_val, time_value, ret; cbn [fold_left];
  do 2 f_equal; lia.

Ltac need c :=
  match goal with
  | |- context [Text.is_digit c] => classify c
  | |- context [Text.eqb_char ":" c] => classify c
  end.

Ltac settle := step_matcher; use_classes; step_matcher.

Lemma time_re_spec (x : str) :
  (forall l c, x = l ++ [c] -> Text.is_newline c = false) ->
  match match_ TIME_RE x with
  | None => ret None
  | Some m =>
      minutes <- int_of (group m 1) ;;
      seconds <- int_of (group m 2) ;;
      ret (Some (minutes * 60 + seconds))
  end = inr (if time_shape x then Some (time_value x) else None).
Proof.
  intros Hlast. pose proof (no_trailing_newline Hlast) as Hnl.
  unfold match_, match_at, TIME_RE, seq, between, time_shape, chr.
  destruct x as [|c1 [|c2 [|c3 [|c4 [|c5 [|c6 [|c7 x]]]]]]];
    try (assert (Hn := Hnl ltac:(discriminate)); cbn [last] in Hn);
    clear Hnl Hlast.
  - reflexivity.
  - repeat (settle; need c1); settle; reflexivity.
  - repeat (settle; first [need c1 | need c2]); settle; reflexivity.
  - repeat (settle; first [need c1 | need c2 | need c3]); settle; reflexivity.
  - repeat (settle; first [need c1 | need c2 | need c3 | need c4]); settle;
      try reflexivity; finish_time.
  - repeat (settle; first [need c1 | need c2 | need c3 | need c4 | need c5]);
      settle; try reflexivity; finish_time.
  - repeat (settle;
            first [need c1 | need c2 | need c3 | need c4 | need c5 | need c6]);
      settle; reflexivity.
  - repeat (settle;
            first [need c1 | need c2 | need c3 | need c4 | need c5 | need c6]);
      settle; reflexivity.
Qed.

Lemma parse_time_to_seconds_spec (s : str) :
  parse_time_to_seconds s
  = inr (if time_shape (Text.strip s)
         then Some (time_value (Text.strip s)) else None).
Proof.
  unfold parse_time_to_seconds. apply time_re_spec.
  intros l c Hx. apply strip_last in Hx.
  destruct (Text.is_newline c) eqn:Hn; [|reflexivity].
  apply newline_is_space in Hn. congruence.
Qed.

Lemma digit_val_nonneg (c : ascii) :
  Text.is_digit c = true -> 0 <= Text.digit_val c <= 9.
Proof.
  unfold Text.is_digit, Text.in_range, Text.digit_val. intros H.
  apply andb_prop in H. destruct H as [H1 H2].
  apply N.leb_le in H1, H2. lia.
Qed.

Lemma time_value_nonneg (x : str) : time_shape x = true -> 0 <= time_value x.
Proof.
  unfold time_shape, time_value.
  destruct x as [|c1 [|c2 [|c3 [|c4 [|c5 [|c6 x]]]]]]; try discriminate;
    intros H; rewrite !andb_true_iff in H; decompose [and] H;
    repeat match goal with
           | H : Text.is_digit _ = true |- _ => apply digit_val_nonneg in H
           end; lia.
Qed.

Lemma format_roundtrip_table :
  forallb (fun n => match parse_time_to_seconds (format_time (Z.of_nat n)) with
                    | inr (Some v) => v =? Z.of_nat n
                    | _ => false
                    end)
          (List.seq 0%nat (60 * 100)%nat) = true.
Proof. vm_compute. reflexivity. Qed.

Lemma format_roundtrip (sec : Z) :
  0 <= sec <= 5999 ->
  parse_time_to_seconds (format_time sec) = inr (Some sec).
Proof.
  intros Hs.
  pose proof (proj1 (forallb_forall _ _) format_roundtrip_table (Z.to_nat sec)) as Ht.
  cbv beta in Ht. rewrite Z2Nat.id in Ht by lia.
  assert (Hin : In (Z.to_nat sec) (List.seq 0%nat (60 * 100)%nat)) by (apply in_seq; lia).
  apply Ht in Hin.
  destruct (parse_time_to_seconds (format_time sec)) as [e|[v|]];
    try discriminate Hin.
  apply Z.eqb_eq in Hin. now subst v.
Qed.

(** C9 (as stated): a string that is not of the exact shape is not always
    rejected: " 3:18", with a leading space, parses to 198. *)
Lemma padded_time_is_accepted :
  ~ (forall s : str,
       time_shape s = false -> parse_time_to_seconds s = inr None).
Proof.
  intros Hclaim. specialize (Hclaim " 3:18" eq_refl).
  vm_compute in Hclaim. discriminate Hclaim.
Qed.

(** C9 (amended): [parse_time_to_seconds "3:18"] is 198; formatting any
    [sec] in [0, 5999] as minutes and two-digit seconds and parsing it
    back gives [sec]; and for every string the result is decided by the
    string with its surrounding white space stripped: minutes * 60 +
    seconds when that is one or two digits, a colon and two digits, and
    no value otherwise. The function never raises. *)
Theorem parse_time_to_seconds_roundtrip :
  parse_time_to_seconds "3:18" = inr (Some 198) /\
  (forall sec : Z, 0 <= sec <= 5999 ->
     parse_time_to_seconds (format_time sec) = inr (Some sec)) /\
  (forall s : str,
     time_shape (Text.strip s) = false ->
     parse_time_to_seconds s = inr None) /\
  (forall s : str,
     time_shape (Text.strip s) = true ->
     parse_time_to_seconds s = inr (Some (time_value (Text.strip s)))).
Proof.
  split; [vm_compute; reflexivity|].
  split; [exact format_roundtrip|].
  split; intros s Hs; rewrite parse_time_to_seconds_spec, Hs; reflexivity.
Qed.

Lemma parse_time_to_seconds_roundtrip_witness :
  parse_time_to_seconds (format_time 157) = inr (Some 157).
Proof.
  apply (proj1 (proj2 parse_time_to_seconds_roundtrip) 157). lia.
Defined.

(** * Signs of the floats the extractor builds *)

Lemma shr_1_nonneg (mrs : shr_record) :
  0 <= shr_m mrs -> 0 <= shr_m (shr_1 mrs).
Proof.
  destruct mrs as [m r s]. simpl.
  destruct m as [|[p|p|]|[p|p|]]; simpl; lia.
Qed.

Lemma iter_shr_1_nonneg (p : positive) :
  forall mrs, 0 <= shr_m mrs -> 0 <= shr_m (iter_pos shr_1 p mrs).
Proof.
  induction p as [p IH|p IH|]; intros mrs H; simpl.
  - apply IH, IH. now apply shr_1_nonneg.
  - apply IH, IH. exact H.
  - now apply shr_1_nonneg.
Qed.

Lemma shr_fexp_nonneg (m e : Z) (l : location) :
  0 <= m -> 0 <= shr_m (fst (shr_fexp Float64.prec Float64.emax m e l)).
Proof.
  intros Hm. unfold shr_fexp, shr.
  assert (H0 : 0 <= shr_m (shr_record_of_loc m l))
    by (destruct l as [|[]]; exact Hm).
  destruct (fexp Float64.prec Float64.emax (Zdigits2 m + e) - e);
    simpl; try exact H0. now apply iter_shr_1_nonneg.
Qed.

Lemma round_nearest_even_nonneg (m : Z) (l : location) :
  0 <= m -> 0 <= round_nearest_even m l.
Proof.
  intros Hm. destruct l as [|[]]; simpl; try lia.
  destruct (Z.even m); lia.
Qed.

Lemma binary_round_aux_nonneg (m e : Z) (l : location) :
  0 <= m ->
  Float64.nonneg (binary_round_aux Float64.prec Float64.emax false m e l) = true.
Proof.
  intros Hm. unfold binary_round_aux.
  pose proof (shr_fexp_nonneg e l Hm) as H1.
  destruct (shr_fexp Float64.prec Float64.emax m e l) as [mrs' e'].
  simpl in H1.
  pose proof (@shr_fexp_nonneg
                (round_nearest_even (shr_m mrs') (loc_of_shr_record mrs'))
                e' loc_Exact
                (round_nearest_even_nonneg (loc_of_shr_record mrs') H1)) as H2.
  destruct (shr_fexp Float64.prec Float64.emax
              (round_nearest_even (shr_m mrs') (loc_of_shr_record mrs')) e'
              loc_Exact) as [mrs'' e''].
  simpl in H2. destruct (shr_m mrs'') as [|p|p]; try lia; [reflexivity|].
  destruct (e'' <=? Float64.emax - Float64.prec); reflexivity.
Qed.

Lemma div_finite_nonneg (a : positive) (ea : Z) (b : positive) (eb : Z) :
  Float64.nonneg (SFdiv Float64.prec Float64.emax
                    (S754_finite false a ea) (S754_finite false b eb)) = true.
Proof.
  unfold SFdiv, SFdiv_core_binary.
  set (e' := Z.min _ _). set (s := ea - eb - e').
  set (m' := match s with Z.pos _ => Z.shiftl (Z.pos a) s | 0 => Z.pos a | Z.neg _ => 0 end).
  assert (Hm' : 0 <= m').
  { unfold m'. destruct s; try lia. apply Z.shiftl_nonneg. lia. }
  pose proof (Z.div_pos m' (Z.pos b) Hm' ltac:(lia)) as Hq.
  unfold Z.div in Hq. destruct (Z.div_eucl m' (Z.pos b)) as [q r].
  simpl in Hq. now apply binary_round_aux_nonneg.
Qed.

Lemma nonneg_no_sign (x : Float64.float) :
  Float64.nonneg x = true -> no_sign x = true.
Proof. destruct x; simpl; auto. Qed.

Lemma div_no_sign (x y q : Float64.float) :
  Float64.nonneg x = true -> Float64.nonneg y = true ->
  Float64.div x y = inr q -> no_sign q = true.
Proof.
  unfold Float64.div. intros Hx Hy H.
  destruct (Float64.is_zero y) eqn:Hz; [discriminate H|].
  injection H as <-.
  destruct x as [sx|sx| |sx mx ex], y as [sy|sy| |sy my ey];
    try discriminate Hx; try discriminate Hy; try discriminate Hz;
    simpl in Hx, Hy; try (apply negb_true_iff in Hx);
    try (apply negb_true_iff in Hy); subst; try reflexivity.
  apply nonneg_no_sign, div_finite_nonneg.
Qed.

Lemma nonneg_ge_zero (x : Float64.float) :
  Float64.nonneg x = true -> Float64.leb (Float64.of_Z 0) x = true.
Proof.
  change (Float64.of_Z 0) with (S754_zero false).
  destruct x as [s|s| |s m e]; simpl; intros H; try discriminate H;
    try reflexivity; apply negb_true_iff in H; subst; reflexivity.
Qed.

Lemma round_half_even_nonneg (m d : Z) :
  0 <= m -> 0 < d -> 0 <= Float64.round_half_even m d.
Proof.
  intros Hm Hd. unfold Float64.round_half_even.
  pose proof (Z.div_pos m d Hm Hd).
  destruct (2 * (m mod d) ?= d); try lia. destruct (Z.even (m / d)); lia.
Qed.

Lemma round_magnitude_nonneg (m : positive) (e : Z) :
  0 <= (if 0 <=? e then Z.pos m * 2 ^ e
        else Float64.round_half_even (Z.pos m) (2 ^ (- e))).
Proof.
  destruct (0 <=? e) eqn:He.
  - apply Z.leb_le in He. pose proof (Z.pow_nonneg 2 e ltac:(lia)). nia.
  - apply Z.leb_gt in He. apply round_half_even_nonneg; [lia|].
    apply Z.pow_pos_nonneg; lia.
Qed.

Lemma round_nonneg (x : Float64.float) (n : Z) :
  no_sign x = true -> Float64.round x = inr n -> 0 <= n.
Proof.
  destruct x as [s|s| |s m e]; unfold Float64.round, no_sign, ret, raise;
    intros Hs H; try discriminate H.
  - injection H as <-. lia.
  - apply negb_true_iff in Hs. subst s.
    pose proof (round_magnitude_nonneg m e) as Hm.
    assert (Hn : (if 0 <=? e then Z.pos m * 2 ^ e
                  else Float64.round_half_even (Z.pos m) (2 ^ (- e))) = n)
      by congruence.
    now rewrite <- Hn.
Qed.

Lemma decimal_to_float_nonneg (n : Z) (k : nat) :
  Float64.nonneg (Text.decimal_to_float false n k) = true.
Proof.
  unfold Text.decimal_to_float. destruct n; try reflexivity;
    apply div_finite_nonneg.
Qed.

Lemma digit_dot_not_sign (c : ascii) (s : str) :
  digit_dot c = true -> Text.split_sign (c :: s) = (false, c :: s).
Proof.
  destruct c as [[] [] [] [] [] [] [] []]; intros H;
    try discriminate H; reflexivity.
Qed.

(** [float] of a string that starts with a digit or a point is not
    negative. *)
Lemma float_of_str_nonneg (x : str) (v : Float64.float) :
  match x with c :: _ => digit_dot c = true | [] => True end ->
  Text.float_of_str x = inr v -> Float64.nonneg v = true.
Proof.
  intros Hx. unfold Text.float_of_str.
  assert (Hs : Text.split_sign x = (false, x)).
  { destruct x as [|c x]; [reflexivity | now apply digit_dot_not_sign]. }
  rewrite Hs. destruct (Text.split_point x) as [ip rest].
  destruct (_ && _)%bool; [|discriminate].
  intros H. injection H as <-. apply decimal_to_float_nonneg.
Qed.

(** * What the groups of the program's patterns hold *)

Lemma matches_rep (p : ascii -> bool) (lo : nat) (hi : option nat)
    (greedy : bool) (prev : option ascii) (x rest : str) (g g' : captures) :
  matches (Rep p lo hi greedy) prev x rest g g' ->
  Forall (fun c => p c = true) x /\ (lo <= List.length x)%nat.
Proof. inversion 1; subst; auto. Qed.

(** A group written [(p+)] holds a non-empty run of the class [p]. *)
Lemma search_group_plus (r : regex) (p : ascii -> bool) (s : str)
    (m : match_object) (x : str) :
  group_bodies 1 r = [plus p] ->
  search r s = Some m -> group m 1 = Some x ->
  Forall (fun c => p c = true) x /\ x <> [].
Proof.
  intros Hb Hs Hx.
  destruct (@search_group r s m 1%nat x Hs Hx) as (body & prev' & rest' & ga & gb & Hin & Hm).
  rewrite Hb in Hin. destruct Hin as [<-|[]].
  apply matches_rep in Hm. destruct Hm as [Hall Hlen].
  split; [exact Hall|]. intros ->. simpl in Hlen. lia.
Qed.

Lemma head_of_class (p q : ascii -> bool) (x : str) :
  (forall c, p c = true -> q c = true) ->
  Forall (fun c => p c = true) x ->
  match x with c :: _ => q c = true | [] => True end.
Proof. intros Hpq Hall. destruct x; [exact I|]. inversion Hall; auto. Qed.

Lemma digit_is_digit_dot (c : ascii) : Text.is_digit c = true -> digit_dot c = true.
Proof. unfold digit_dot. now intros ->. Qed.

Lemma parse_time_nonneg (t : str) (v : Z) :
  parse_time_to_seconds t = inr (Some v) -> 0 <= v.
Proof.
  rewrite parse_time_to_seconds_spec.
  destruct (time_shape (Text.strip t)) eqn:Hs; intros H; [|discriminate H].
  injection H as <-. now apply time_value_nonneg.
Qed.

(** ** [src/survev_spi_app.py] *)

Lemma find_number_nonneg (r : regex) (p : ascii -> bool) (s : str)
    (v : Float64.float) :
  group_bodies 1 r = [plus p] ->
  (forall c, p c = true -> digit_dot c = true) ->
  SurvevSpiApp.find_number r s = inr (Some v) -> Float64.nonneg v = true.
Proof.
  intros Hb Hp. unfold SurvevSpiApp.find_number.
  destruct (search r s) as [m|] eqn:Hs; [|discriminate].
  destruct (group m 1) as [x|] eqn:Hx; [|discriminate]. simpl.
  destruct (Text.float_of_str x) as [e|y] eqn:Hf; [discriminate|].
  simpl. intros H. injection H as <-.
  destruct (@search_group_plus r p s m x Hb Hs Hx) as [Hall _].
  eapply float_of_str_nonneg; [|exact Hf].
  now apply head_of_class with p.
Qed.

Lemma survev_fields_nonneg (s : str) (f : SurvevSpiApp.fields) :
  SurvevSpiApp.search_fields s = inr f ->
  (forall g, SurvevSpiApp.f_games f = Some g -> Float64.nonneg g = true) /\
  (forall k, SurvevSpiApp.f_kills f = Some k -> Float64.nonneg k = true) /\
  (forall w, SurvevSpiApp.f_win_pct f = Some w -> Float64.nonneg w = true) /\
  (forall t, SurvevSpiApp.f_avg_survived_sec f = Some t -> 0 <= t) /\
  (forall d, SurvevSpiApp.f_avg_damage f = Some d -> Float64.nonneg d = true).
Proof.
  unfold SurvevSpiApp.search_fields.
  destruct (SurvevSpiApp.find_number SurvevSpiApp.GAMES_BEFORE s) as [e|a] eqn:Ha;
    [discriminate|]. cbn [bind].
  destruct (if SurvevSpiApp.truthy a then ret a
            else SurvevSpiApp.find_number SurvevSpiApp.GAMES_AFTER s)
    as [e|games] eqn:Hg; [discriminate|]. cbn [bind].
  destruct (SurvevSpiApp.find_number SurvevSpiApp.KILLS s) as [e|kills] eqn:Hk;
    [discriminate|]. cbn [bind].
  destruct (SurvevSpiApp.find_number SurvevSpiApp.WIN s) as [e|win] eqn:Hw;
    [discriminate|]. cbn [bind].
  destruct (match search SurvevSpiApp.AVG_SURVIVED s with
            | Some time_match => _
            | None => _
            end) as [e|time] eqn:Ht; [discriminate|]. cbn [bind].
  destruct (SurvevSpiApp.find_number SurvevSpiApp.AVG_DAMAGE s) as [e|dmg] eqn:Hd;
    [discriminate|]. cbn [bind ret].
  intros H. injection H as <-. cbn.
  repeat split.
  - intros g ->. destruct (SurvevSpiApp.truthy a).
    + injection Hg as ->.
      eapply find_number_nonneg; [| |exact Ha];
        [reflexivity | exact digit_is_digit_dot].
    + eapply find_number_nonneg; [| |exact Hg];
        [reflexivity | exact digit_is_digit_dot].
  - intros k ->. eapply find_number_nonneg; [| |exact Hk];
      [reflexivity | exact digit_is_digit_dot].
  - intros w ->. eapply find_number_nonneg; [| |exact Hw];
      [reflexivity | auto].
  - intros t ->. destruct (search SurvevSpiApp.AVG_SURVIVED s) as [tm|];
      [|discriminate Ht].
    destruct (group tm 1) as [x|]; [|discriminate Ht].
    now apply parse_time_nonneg in Ht.
  - intros d ->. eapply find_number_nonneg; [| |exact Hd];
      [reflexivity | auto].
Qed.

Lemma survev_fallback_no_sign (s : str) (games kills : option Float64.float)
    (g : Float64.float) :
  (forall x, games = Some x -> Float64.nonneg x = true) ->
  (forall x, kills = Some x -> Float64.nonneg x = true) ->
  SurvevSpiApp.fallback_games s games kills = inr (Some g) ->
  no_sign g = true.
Proof.
  intros Hg Hk. unfold SurvevSpiApp.fallback_games.
  destruct games as [x|].
  - intros H. injection H as ->. now apply nonneg_no_sign, Hg.
  - destruct (SurvevSpiApp.find_number SurvevSpiApp.KG s) as [e|kg] eqn:Hkg;
      [discriminate|]. cbn [bind].
    destruct kills as [k|]; [|discriminate].
    destruct kg as [r|]; [|discriminate].
    destruct (Float64.truthy r); [|discriminate].
    destruct (Float64.div k r) as [e|q] eqn:Hq; [discriminate|].
    cbn [bind ret]. intros H. injection H as <-.
    eapply div_no_sign; [| |exact Hq]; [now apply Hk|].
    eapply find_number_nonneg; [| |exact Hkg]; [reflexivity | auto].
Qed.

Lemma survev_stats_nonnegative (s : str) (ms : ModeStats Float64.float) :
  SurvevSpiApp.parse_stats_in_text s = inr (Some ms) -> stats_nonnegative ms.
Proof.
  unfold SurvevSpiApp.parse_stats_in_text.
  destruct (SurvevSpiApp.search_fields s) as [e|f] eqn:Hf; [discriminate|].
  cbn [bind].
  destruct (@survev_fields_nonneg s f Hf) as (Hg & Hk & Hw & Ht & Hd).
  destruct (SurvevSpiApp.fallback_games s (SurvevSpiApp.f_games f)
              (SurvevSpiApp.f_kills f)) as [e|games] eqn:Hfb; [discriminate|].
  cbn [bind].
  destruct games as [g|]; [|discriminate].
  pose proof (@survev_fallback_no_sign s _ _ g Hg Hk Hfb) as Hgs.
  destruct (SurvevSpiApp.f_kills f) as [k|]; [|discriminate].
  destruct (SurvevSpiApp.f_win_pct f) as [w|]; [|discriminate].
  destruct (SurvevSpiApp.f_avg_survived_sec f) as [t|]; [|discriminate].
  destruct (SurvevSpiApp.f_avg_damage f) as [d|]; [|discriminate].
  destruct (Float64.round g) as [e|g'] eqn:Hrg; [discriminate|]. cbn [bind].
  destruct (Float64.round k) as [e|k'] eqn:Hrk; [discriminate|]. cbn [bind ret].
  intros H. injection H as <-. unfold stats_nonnegative. cbn.
  repeat split.
  - eapply round_nonneg; [exact Hgs | exact Hrg].
  - eapply round_nonneg; [|exact Hrk]. now apply nonneg_no_sign, Hk.
  - now apply Ht.
  - now apply nonneg_ge_zero, Hw.
  - now apply nonneg_ge_zero, Hd.
Qed.

(** ** [src/unnamed/part_000] *)

Lemma take_group (s : str) (ps : list regex) (x : str) :
  Part000._take s ps = Some x ->
  exists r m, In r ps /\ search r s = Some m /\ group m 1 = Some x.
Proof.
  induction ps as [|r ps IH]; simpl; [discriminate|].
  destruct (search r s) as [m|] eqn:Hs.
  - intros Hx. exists r, m. auto.
  - intros H. destruct (IH H) as (r' & m & Hin & Hs' & Hx).
    exists r', m. auto.
Qed.

Lemma take_plus (ps : list regex) (p : ascii -> bool) (s x : str) :
  (forall r, In r ps -> group_bodies 1 r = [plus p]) ->
  Part000._take s ps = Some x ->
  Forall (fun c => p c = true) x /\ x <> [].
Proof.
  intros Hb Ht. destruct (@take_group s ps x Ht) as (r & m & Hin & Hs & Hx).
  exact (@search_group_plus r p s m x (Hb r Hin) Hs Hx).
Qed.

Lemma Forall_lstrip (P : ascii -> Prop) (s : str) :
  Forall P s -> Forall P (Text.lstrip s).
Proof.
  induction 1 as [|c s Hc Hs IH]; simpl; [constructor|].
  destruct (Text.is_space c); [exact IH | now constructor].
Qed.

Lemma Forall_strip (P : ascii -> Prop) (s : str) :
  Forall P s -> Forall P (Text.strip s).
Proof.
  intros H. unfold Text.strip, Text.rstrip.
  apply Forall_rev, Forall_lstrip, Forall_rev, Forall_lstrip, H.
Qed.

Lemma replace_comma_class (c : ascii) :
  digit_dot_comma c = true ->
  digit_dot (if Text.eqb_char c "," then "."%char else c) = true.
Proof.
  unfold digit_dot_comma. destruct (Text.eqb_char c ",") eqn:Hc; intros H.
  - reflexivity.
  - now rewrite orb_false_r in H.
Qed.

Lemma Forall_replace_comma (s : str) :
  Forall (fun c => digit_dot_comma c = true) s ->
  Forall (fun c => digit_dot c = true) (Text.replace "," "." s).
Proof.
  unfold Text.replace. intros H. apply Forall_map.
  eapply Forall_impl; [|exact H]. intros c. apply replace_comma_class.
Qed.

Lemma num_nonneg (w : str) (v : Float64.float) :
  Forall (fun c => digit_dot_comma c = true) w ->
  Part000._num (Some w) = Some v -> Float64.nonneg v = true.
Proof.
  intros Hw. unfold Part000._num.
  destruct (Text.float_of_str (Text.replace "," "." (Text.strip w)))
    as [e|y] eqn:Hf; [discriminate|].
  intros H. injection H as <-.
  eapply float_of_str_nonneg; [|exact Hf].
  apply head_of_class with (p := digit_dot); [auto|].
  now apply Forall_replace_comma, Forall_strip.
Qed.

Lemma digits_float_nonneg (x : str) (v : Float64.float) :
  Forall (fun c => Text.is_digit c = true) x ->
  Text.float_of_str x = inr v -> Float64.nonneg v = true.
Proof.
  intros Hx Hf. eapply float_of_str_nonneg; [|exact Hf].
  apply head_of_class with (p := Text.is_digit);
    [exact digit_is_digit_dot | exact Hx].
Qed.

Lemma part000_games_plus (r : regex) :
  In r Part000.GAMES -> group_bodies 1 r = [plus Text.is_digit].
Proof. intros [<-|[<-|[]]]; reflexivity. Qed.

Lemma part000_kills_plus (r : regex) :
  In r Part000.KILLS -> group_bodies 1 r = [plus Text.is_digit].
Proof. intros [<-|[]]; reflexivity. Qed.

Lemma part000_win_plus (r : regex) :
  In r Part000.WIN -> group_bodies 1 r = [plus digit_dot_comma].
Proof. intros [<-|[]]; reflexivity. Qed.

Lemma part000_damage_plus (r : regex) :
  In r Part000.AVG_DAMAGE -> group_bodies 1 r = [plus digit_dot_comma].
Proof. intros [<-|[]]; reflexivity. Qed.

Lemma part000_kg_plus (r : regex) :
  In r Part000.KG -> group_bodies 1 r = [plus digit_dot_comma].
Proof. intros [<-|[]]; reflexivity. Qed.

Lemma part000_fallback_no_sign (s : str) (games kills : option str)
    (g : Part000.str_or_float) (g0 : Float64.float) :
  (forall x, games = Some x -> Forall (fun c => Text.is_digit c = true) x) ->
  (forall x, kills = Some x -> Forall (fun c => Text.is_digit c = true) x) ->
  Part000.fallback_games s games kills = inr (Some g) ->
  Part000.to_float g = inr g0 ->
  no_sign g0 = true.
Proof.
  intros Hg Hk. unfold Part000.fallback_games.
  destruct games as [x|].
  - intros H. injection H as <-. simpl. intros Hf.
    apply nonneg_no_sign. eapply digits_float_nonneg; [|exact Hf]. now apply Hg.
  - destruct (Part000.truthy kills && Part000.truthy (Part000._take s Part000.KG))%bool;
      [|discriminate].
    destruct kills as [ks|]; [|discriminate]. cbn [float_of].
    destruct (Text.float_of_str ks) as [e|k] eqn:Hks; [discriminate|].
    cbn [bind].
    destruct (Part000._take s Part000.KG) as [rs|] eqn:Hrs; [|discriminate].
    cbn [option_map float_of].
    destruct (Text.float_of_str (Text.replace "," "." rs)) as [e|r] eqn:Hr;
      [discriminate|]. cbn [bind].
    destruct (Float64.div k r) as [e|q] eqn:Hq; [discriminate|].
    cbn [bind ret try_except]. intros H. injection H as <-. simpl.
    intros H. injection H as <-.
    eapply div_no_sign; [| |exact Hq].
    + eapply digits_float_nonneg; [|exact Hks]. now apply Hk.
    + eapply float_of_str_nonneg; [|exact Hr].
      apply head_of_class with (p := digit_dot); [auto|].
      apply Forall_replace_comma.
      exact (proj1 (@take_plus Part000.KG digit_dot_comma s rs part000_kg_plus Hrs)).
Qed.

Lemma part000_stats_nonnegative (s : str) (ms : ModeStats Float64.float) :
  Part000.parse_stats_in_text s = inr (Some ms) -> stats_nonnegative ms.
Proof.
  unfold Part000.parse_stats_in_text, Part000.search_fields.
  destruct (if Part000.truthy (Part000._take s Part000.AVG_SURVIVED) then _ else _)
    as [e|time] eqn:Ht; [discriminate|]. cbn [bind ret].
  cbn [Part000.f_games Part000.f_kills Part000.f_win_pct
       Part000.f_avg_survived_sec Part000.f_avg_damage].
  destruct (Part000.fallback_games s (Part000._take s Part000.GAMES)
              (Part000._take s Part000.KILLS)) as [e|games] eqn:Hfb;
    [discriminate|]. cbn [bind].
  destruct games as [g|]; [|discriminate].
  destruct (Part000._take s Part000.KILLS) as [k|] eqn:Hk; [|discriminate].
  destruct (Part000._take s Part000.WIN) as [w|] eqn:Hw; [|discriminate].
  destruct time as [t|]; [|discriminate].
  destruct (Part000._take s Part000.AVG_DAMAGE) as [d|] eqn:Hd; [|discriminate].
  destruct (Part000.to_float g) as [e|g0] eqn:Hg0; [discriminate|]. cbn [bind].
  destruct (Float64.round g0) as [e|g'] eqn:Hrg; [discriminate|]. cbn [bind].
  destruct (Text.float_of_str k) as [e|k0] eqn:Hk0; [discriminate|]. cbn [bind].
  destruct (Float64.round k0) as [e|k'] eqn:Hrk; [discriminate|]. cbn [bind].
  destruct (Part000._num (Some w)) as [w'|] eqn:Hw'; [|discriminate]. cbn [bind ret].
  destruct (Part000._num (Some d)) as [d'|] eqn:Hd'; [|discriminate]. cbn [bind ret].
  intros H. injection H as <-. unfold stats_nonnegative. cbn.
  pose proof (proj1 (@take_plus Part000.KILLS Text.is_digit s k part000_kills_plus Hk))
    as Hkd.
  repeat split.
  - eapply round_nonneg; [|exact Hrg].
    eapply part000_fallback_no_sign; [| |exact Hfb|exact Hg0].
    + intros x Hx.
      exact (proj1 (@take_plus Part000.GAMES Text.is_digit s x part000_games_plus Hx)).
    + intros x Hx. injection Hx as <-. exact Hkd.
  - eapply round_nonneg; [|exact Hrk].
    apply nonneg_no_sign. now apply digits_float_nonneg with k.
  - destruct (Part000.truthy (Part000._take s Part000.AVG_SURVIVED));
      [|discriminate Ht].
    destruct (Part000._take s Part000.AVG_SURVIVED) as [t'|]; [|discriminate Ht].
    now apply parse_time_nonneg in Ht.
  - apply nonneg_ge_zero. eapply num_nonneg; [|exact Hw'].
    exact (proj1 (@take_plus Part000.WIN digit_dot_comma s w part000_win_plus Hw)).
  - apply nonneg_ge_zero. eapply num_nonneg; [|exact Hd'].
    exact (proj1 (@take_plus Part000.AVG_DAMAGE digit_dot_comma s d
                    part000_damage_plus Hd)).
Qed.

(** * The result mapping *)

(** A letter of SOLO, DUO or SQUAD matched in either case is that letter
    once in upper case. *)
Lemma nocase_upper (c a : ascii) :
  In c (list_ascii_of_string "SOLDUQA") ->
  Text.eqb_nocase c a = true -> Text.upper_char a = c.
Proof.
  intros Hin.
  destruct Hin as [<-|[<-|[<-|[<-|[<-|[<-|[<-|[]]]]]]]];
    destruct a as [[] [] [] [] [] [] [] []]; intros H;
    try discriminate H; reflexivity.
Qed.

Ltac invert_matches :=
  repeat match goal with
         | H : matches (Seq _ _) _ _ _ _ _ |- _ => inversion H; subst; clear H
         | H : matches (Alt _ _) _ _ _ _ _ |- _ => inversion H; subst; clear H
         | H : matches (Group _ _) _ _ _ _ _ |- _ => inversion H; subst; clear H
         | H : matches (Chr _) _ _ _ _ _ |- _ => inversion H; subst; clear H
         | H : matches WordB _ _ _ _ _ |- _ => inversion H; subst; clear H
         end.

Ltac upper_letters :=
  repeat match goal with
         | H : Text.eqb_nocase _ _ = true |- _ =>
             apply nocase_upper in H; [rewrite H; clear H | simpl; tauto]
         end.

Lemma mode_match (prev : option ascii) (s : str) (m : match_object) :
  match_at MODE_RE prev s = Some m ->
  exists g, group m 1 = Some g /\
            In (string_of_list_ascii (Text.upper g)) MODE_NAMES.
Proof.
  unfold match_at, group. intros Hm.
  apply rmatch_sound in Hm. destruct Hm as (w & rest & g' & _ & Hm & Hk).
  unfold accept in Hk. injection Hk as <-. cbn [groups].
  unfold MODE_RE in Hm. cbn in Hm.
  invert_matches; cbn [lookup Nat.eqb]; eexists; (split; [reflexivity|]);
    cbn [app Text.upper map]; upper_letters; simpl; tauto.
Qed.

Lemma split_loop_separated (r : regex) (P : str -> Prop) :
  (forall prev s m, match_at r prev s = Some m ->
                    P (match group m 1 with Some g => g | None => [] end)) ->
  forall (s : str) (prev : option ascii) (skip : nat) (piece : str),
    separated P (split_loop r prev s skip piece).
Proof.
  intros Hr. induction s as [|c s IH]; intros prev skip piece; simpl.
  - constructor.
  - destruct skip as [|n]; [|apply IH].
    destruct (match_at r prev (c :: s)) as [m|] eqn:Hm; [|apply IH].
    destruct (span (c :: s) m) as [|n]; [apply IH|].
    constructor; [now apply (Hr prev (c :: s)) | apply IH].
Qed.

Lemma split_modes (text : str) :
  separated (fun g => In (string_of_list_ascii (Text.upper g)) MODE_NAMES)
            (split MODE_RE text).
Proof.
  unfold split. apply split_loop_separated. intros prev s m Hm.
  destruct (@mode_match prev s m Hm) as (g & -> & Hg). exact Hg.
Qed.

Lemma dict_set_forall {V : Type} (P : string * V -> Prop) (key : string)
    (value : V) (d : list (string * V)) :
  Forall P d -> P (key, value) -> Forall P (dict_set key value d).
Proof.
  intros Hd Hkv. induction Hd as [|[k v] d Hk Hd IH]; simpl.
  - constructor; [exact Hkv | constructor].
  - destruct (String.eqb k key) eqn:Heq.
    + apply String.eqb_eq in Heq. subst k. now constructor.
    + now constructor.
Qed.

Section ParseBlockFacts.

Variable parse_stats_in_text : str -> py (option (ModeStats Float64.float)).
Variable Q : ModeStats Float64.float -> Prop.
Hypothesis parsed_ok :
  forall block ms, parse_stats_in_text block = inr (Some ms) -> Q ms.

Lemma parse_modes_forall (parts : list str) :
  separated (fun g => In (string_of_list_ascii (Text.upper g)) MODE_NAMES) parts ->
  forall modes result,
    Forall (fun kv => In (fst kv) MODE_NAMES /\ Q (snd kv)) modes ->
    parse_modes parse_stats_in_text (tl parts) modes = inr result ->
    Forall (fun kv => In (fst kv) MODE_NAMES /\ Q (snd kv)) result.
Proof.
  induction 1 as [piece | piece g rest Hg Hrest IH]; intros modes result Hm; simpl.
  - intros H. injection H as <-. exact Hm.
  - destruct Hrest as [block | block g' rest' Hg' Hrest'].
    + destruct (parse_stats_in_text block) as [e|[stats|]] eqn:Hp;
        cbn [bind]; try discriminate; intros H.
      * injection H as <-. apply dict_set_forall; [exact Hm|].
        split; [exact Hg | exact (@parsed_ok _ _ Hp)].
      * injection H as <-. exact Hm.
    + destruct (parse_stats_in_text block) as [e|[stats|]] eqn:Hp;
        cbn [bind]; try discriminate; intros H.
      * apply (IH (dict_set (string_of_list_ascii (Text.upper g)) stats modes));
          [|exact H].
        apply dict_set_forall; [exact Hm|].
        split; [exact Hg | exact (@parsed_ok _ _ Hp)].
      * now apply (IH modes).
Qed.

Lemma parse_block_forall (raw : str)
    (result : list (string * ModeStats Float64.float)) :
  parse_block parse_stats_in_text raw = inr result ->
  Forall (fun kv => In (fst kv) MODE_NAMES /\ Q (snd kv)) result.
Proof.
  unfold parse_block.
  destruct (1 <? List.length (split MODE_RE (sub BLANKS_RE " " raw)))%nat.
  - apply parse_modes_forall; [apply split_modes | constructor].
  - destruct (parse_stats_in_text (sub BLANKS_RE " " raw)) as [e|[stats|]] eqn:Hp;
      cbn [bind]; try discriminate; intros H; injection H as <-.
    + simpl. constructor; [|constructor].
      split; [simpl; tauto | exact (@parsed_ok _ _ Hp)].
    + constructor.
Qed.

End ParseBlockFacts.

(** C10: whatever the text, every entry of the mapping either variant of
    [parse_block] returns has a key among "SOLO", "DUO" and "SQUAD", and a
    record whose games, kills and survival seconds are non-negative
    integers and whose win percentage and average damage are floats
    [>= 0]. *)
Theorem parse_block_entries_valid
    (raw : str) (modes : list (string * ModeStats Float64.float))
    (key : string) (stats : ModeStats Float64.float) :
  SurvevSpiApp.parse_block raw = inr modes \/
  Part000.parse_block raw = inr modes ->
  In (key, stats) modes ->
  In key MODE_NAMES /\ stats_nonnegative stats.
Proof.
  intros Hp Hin.
  assert (Hall : Forall (fun kv => In (fst kv) MODE_NAMES
                                   /\ stats_nonnegative (snd kv)) modes).
  { destruct Hp as [Hp|Hp].
    - exact (@parse_block_forall SurvevSpiApp.parse_stats_in_text
               stats_nonnegative survev_stats_nonnegative raw modes Hp).
    - exact (@parse_block_forall Part000.parse_stats_in_text
               stats_nonnegative part000_stats_nonnegative raw modes Hp). }
  rewrite Forall_forall in Hall. exact (Hall (key, stats) Hin).
Qed.

Lemma parse_block_entries_valid_witness :
  In "SOLO" MODE_NAMES /\ stats_nonnegative sample_stats.
Proof.
  apply (@parse_block_entries_valid sample_paste [("SOLO", sample_stats)]
           "SOLO" sample_stats).
  - left. vm_compute. reflexivity.
  - left. reflexivity.
Defined.

(** * All or nothing *)










(** * The fallback for games *)

(** C8 (as stated): with "KILLS 120" and "K/G 0" and no games token, both
    the kills value and the ratio token are found, the three other fields
    too, and yet no games value is derived: the block gives nothing. *)
Lemma zero_ratio_derives_nothing :
  Part000._take zero_ratio_paste Part000.GAMES = None /\
  Part000._take zero_ratio_paste Part000.KILLS = Some (list_ascii_of_string "120") /\
  Part000._take zero_ratio_paste Part000.KG = Some (list_ascii_of_string "0") /\
  Part000.parse_stats_in_text zero_ratio_paste = inr None /\
  SurvevSpiApp.find_number SurvevSpiApp.GAMES_BEFORE zero_ratio_paste = inr None /\
  SurvevSpiApp.find_number SurvevSpiApp.GAMES_AFTER zero_ratio_paste = inr None /\
  SurvevSpiApp.find_number SurvevSpiApp.KILLS zero_ratio_paste
    = inr (Some (Float64.of_Z 120)) /\
  SurvevSpiApp.find_number SurvevSpiApp.KG zero_ratio_paste
    = inr (Some (Float64.of_Z 0)) /\
  SurvevSpiApp.parse_stats_in_text zero_ratio_paste = inr None.
Proof. repeat split; vm_compute; reflexivity. Qed.

Lemma survev_games_from_ratio (s : str) (f : SurvevSpiApp.fields)
    (k r w d : Float64.float) (t n k' : Z) :
  SurvevSpiApp.search_fields s = inr f ->
  SurvevSpiApp.f_games f = None ->
  SurvevSpiApp.f_kills f = Some k ->
  SurvevSpiApp.find_number SurvevSpiApp.KG s = inr (Some r) ->
  Float64.is_zero r = false ->
  SurvevSpiApp.f_win_pct f = Some w ->
  SurvevSpiApp.f_avg_survived_sec f = Some t ->
  SurvevSpiApp.f_avg_damage f = Some d ->
  Float64.round (SFdiv Float64.prec Float64.emax k r) = inr n ->
  Float64.round k = inr k' ->
  SurvevSpiApp.parse_stats_in_text s
  = inr (Some {| games := n; kills := k'; win_pct := w;
                 avg_survived_sec := t; avg_damage := d |}).
Proof.
  intros Hf Hg Hk Hr Hz Hw Ht Hd Hn Hk'.
  unfold SurvevSpiApp.parse_stats_in_text, SurvevSpiApp.fallback_games.
  rewrite Hf. cbn [bind]. rewrite Hg, Hk, Hr. cbn [bind].
  unfold Float64.truthy, Float64.div. rewrite Hz. cbn [negb bind ret].
  rewrite Hw, Ht, Hd, Hn. cbn [bind]. rewrite Hk'. reflexivity.
Qed.

Lemma survev_zero_ratio (s : str) (f : SurvevSpiApp.fields)
    (r : Float64.float) :
  SurvevSpiApp.search_fields s = inr f ->
  SurvevSpiApp.f_games f = None ->
  SurvevSpiApp.find_number SurvevSpiApp.KG s = inr (Some r) ->
  Float64.is_zero r = true ->
  SurvevSpiApp.parse_stats_in_text s = inr None.
Proof.
  intros Hf Hg Hr Hz.
  unfold SurvevSpiApp.parse_stats_in_text, SurvevSpiApp.fallback_games.
  rewrite Hf. cbn [bind]. rewrite Hg, Hr. cbn [bind].
  unfold Float64.truthy. rewrite Hz. cbn [negb].
  destruct (SurvevSpiApp.f_kills f); reflexivity.
Qed.

Lemma float_of_str_nonempty (x : str) (v : Float64.float) :
  Text.float_of_str x = inr v -> exists c x', x = c :: x'.
Proof. destruct x as [|c x']; [discriminate | now eexists; eexists]. Qed.

Lemma replace_nonempty (a b : ascii) (x : str) (c : ascii) (y : str) :
  Text.replace a b x = c :: y -> exists c' x', x = c' :: x'.
Proof. destruct x as [|c' x']; [discriminate | now eexists; eexists]. Qed.

Lemma part000_games_from_ratio (s : str) (f : Part000.fields)
    (ks rs w d : str) (k r w' d' : Float64.float) (t n k' : Z) :
  Part000.search_fields s = inr f ->
  Part000.f_games f = None ->
  Part000.f_kills f = Some ks ->
  Part000._take s Part000.KG = Some rs ->
  Text.float_of_str ks = inr k ->
  Text.float_of_str (Text.replace "," "." rs) = inr r ->
  Float64.is_zero r = false ->
  Part000.f_win_pct f = Some w -> Part000._num (Some w) = Some w' ->
  Part000.f_avg_survived_sec f = Some t ->
  Part000.f_avg_damage f = Some d -> Part000._num (Some d) = Some d' ->
  Float64.round (SFdiv Float64.prec Float64.emax k r) = inr n ->
  Float64.round k = inr k' ->
  Part000.parse_stats_in_text s
  = inr (Some {| games := n; kills := k'; win_pct := w';
                 avg_survived_sec := t; avg_damage := d' |}).
Proof.
  intros Hf Hg Hk Hrs Hfk Hfr Hz Hw Hw' Ht Hd Hd' Hn Hk'.
  destruct (float_of_str_nonempty _ Hfk) as (c1 & x1 & E1).
  destruct (float_of_str_nonempty _ Hfr) as (c2 & x2 & E2).
  destruct (replace_nonempty _ _ _ E2) as (c3 & x3 & E3).
  unfold Part000.parse_stats_in_text, Part000.fallback_games.
  rewrite Hf. cbn [bind]. rewrite Hg, Hk, Hrs.
  assert (Htr : (Part000.truthy (Some ks) && Part000.truthy (Some rs))%bool = true)
    by (rewrite E1, E3; reflexivity).
  rewrite Htr. cbn [float_of option_map]. rewrite Hfk. cbn [bind].
  rewrite Hfr. cbn [bind]. unfold Float64.div. rewrite Hz.
  cbn [bind ret try_except]. rewrite Hw, Ht, Hd.
  cbn [Part000.to_float bind ret]. rewrite Hn. cbn [bind].
  rewrite Hk'. cbn [bind]. rewrite Hw', Hd'. reflexivity.
Qed.

Lemma part000_zero_ratio (s : str) (f : Part000.fields) (rs : str)
    (r : Float64.float) :
  Part000.search_fields s = inr f ->
  Part000.f_games f = None ->
  Part000._take s Part000.KG = Some rs ->
  Text.float_of_str (Text.replace "," "." rs) = inr r ->
  Float64.is_zero r = true ->
  Part000.parse_stats_in_text s = inr None.
Proof.
  intros Hf Hg Hrs Hfr Hz.
  unfold Part000.parse_stats_in_text, Part000.fallback_games.
  rewrite Hf. cbn [bind]. rewrite Hg, Hrs.
  destruct (Part000.truthy (Part000.f_kills f) && Part000.truthy (Some rs))%bool;
    [|reflexivity].
  destruct (float_of (Part000.f_kills f)) as [e|k]; [reflexivity|].
  cbn [bind option_map float_of]. rewrite Hfr. cbn [bind].
  unfold Float64.div. rewrite Hz. reflexivity.
Qed.

(** C8 (amended): when no games token is found, a kills value is found
    and the ratio after K/G (or KG) parses to a number that is not zero,
    the record of the block (the three other fields being resolved, and
    the roundings defined) has games = round(kills / ratio), the float
    quotient rounded to the nearest integer, ties to even; when the ratio
    is zero the block gives nothing. "KILLS 120" with "K/G 1.2" gives
    games = 100. *)
Theorem games_derived_from_nonzero_ratio :
  (forall s f k r w d t n k',
     SurvevSpiApp.search_fields s = inr f ->
     SurvevSpiApp.f_games f = None ->
     SurvevSpiApp.f_kills f = Some k ->
     SurvevSpiApp.find_number SurvevSpiApp.KG s = inr (Some r) ->
     Float64.is_zero r = false ->
     SurvevSpiApp.f_win_pct f = Some w ->
     SurvevSpiApp.f_avg_survived_sec f = Some t ->
     SurvevSpiApp.f_avg_damage f = Some d ->
     Float64.round (SFdiv Float64.prec Float64.emax k r) = inr n ->
     Float64.round k = inr k' ->
     SurvevSpiApp.parse_stats_in_text s
     = inr (Some {| games := n; kills := k'; win_pct := w;
                    avg_survived_sec := t; avg_damage := d |})) /\
  (forall s f r,
     SurvevSpiApp.search_fields s = inr f ->
     SurvevSpiApp.f_games f = None ->
     SurvevSpiApp.find_number SurvevSpiApp.KG s = inr (Some r) ->
     Float64.is_zero r = true ->
     SurvevSpiApp.parse_stats_in_text s = inr None) /\
  (forall s f ks rs w d k r w' d' t n k',
     Part000.search_fields s = inr f ->
     Part000.f_games f = None ->
     Part000.f_kills f = Some ks ->
     Part000._take s Part000.KG = Some rs ->
     Text.float_of_str ks = inr k ->
     Text.float_of_str (Text.replace "," "." rs) = inr r ->
     Float64.is_zero r = false ->
     Part000.f_win_pct f = Some w -> Part000._num (Some w) = Some w' ->
     Part000.f_avg_survived_sec f = Some t ->
     Part000.f_avg_damage f = Some d -> Part000._num (Some d) = Some d' ->
     Float64.round (SFdiv Float64.prec Float64.emax k r) = inr n ->
     Float64.round k = inr k' ->
     Part000.parse_stats_in_text s
     = inr (Some {| games := n; kills := k'; win_pct := w';
                    avg_survived_sec := t; avg_damage := d' |})) /\
  (forall s f rs r,
     Part000.search_fields s = inr f ->
     Part000.f_games f = None ->
     Part000._take s Part000.KG = Some rs ->
     Text.float_of_str (Text.replace "," "." rs) = inr r ->
     Float64.is_zero r = true ->
     Part000.parse_stats_in_text s = inr None) /\
  (exists ms, SurvevSpiApp.parse_stats_in_text ratio_paste = inr (Some ms)
              /\ games ms = 100) /\
  (exists ms, Part000.parse_stats_in_text ratio_paste = inr (Some ms)
              /\ games ms = 100).
Proof.
  split; [exact survev_games_from_ratio|].
  split; [exact survev_zero_ratio|].
  split; [exact part000_games_from_ratio|].
  split; [exact part000_zero_ratio|].
  split; eexists; (split; [vm_compute; reflexivity | reflexivity]).
Qed.

Lemma games_derived_from_nonzero_ratio_witness :
  Part000.parse_stats_in_text ratio_paste
  = inr (Some {| games := 100; kills := 120;
                 win_pct := Float64.of_Z 10;
                 avg_survived_sec := 60;
                 avg_damage := Float64.of_Z 100 |}).
Proof.
  apply (proj1 (proj2 (proj2 games_derived_from_nonzero_ratio))
           ratio_paste
           {| Part000.f_games := None;
              Part000.f_kills := Some (list_ascii_of_string "120");
              Part000.f_win_pct := Some (list_ascii_of_string "10");
              Part000.f_avg_survived_sec := Some 60;
              Part000.f_avg_damage := Some (list_ascii_of_string "100") |}
           (list_ascii_of_string "120") (list_ascii_of_string "1.2")
           (list_ascii_of_string "10") (list_ascii_of_string "100")
           (Float64.of_Z 120) (Text.decimal_to_float false 12 1));
    vm_compute; reflexivity.
Defined.

(** * Where the extractor raises *)

(** C6: not every call returns. On a block whose five fields are all
    found but whose win value is a lone point (or "1.2.3"),
    [survev_spi_app.py] raises ValueError in [find_number] and [part_000]
    raises TypeError at [float(_num(win_pct))]; so does [parse_block]. The
    base of a valid record with 2^1024 kills in one game raises
    OverflowError. *)
Theorem extraction_is_not_total :
  SurvevSpiApp.parse_block lone_point_paste = inl ValueError /\
  Part000.parse_block lone_point_paste = inl TypeError /\
  SurvevSpiApp.parse_block "WIN ." = inl ValueError /\
  valid_stats huge_kills_stats /\
  spi_components huge_kills_stats = inl OverflowError.
Proof.
  unfold valid_stats.
  repeat split; try (vm_compute; reflexivity); simpl; lia.
Qed.

(** C7: in [part_000] a win value written "20,7" or "20.7" is read as the
    same float 20.7, while [survev_spi_app.py] stops at the comma and
    reads 20.0; a value that does not parse ("1.2.3") is not treated as
    absent by either variant: [_num] gives [None] for it, but the block is
    then converted with [float(None)], a TypeError, and [find_number]
    raises ValueError. *)
Theorem unparsable_value_raises :
  Part000._num (Some (list_ascii_of_string "20,7"))
    = Some (Text.decimal_to_float false 207 1) /\
  Part000._num (Some (list_ascii_of_string "20.7"))
    = Some (Text.decimal_to_float false 207 1) /\
  Part000.parse_block comma_paste = Part000.parse_block point_paste /\
  (exists ms, SurvevSpiApp.parse_block comma_paste = inr [("SOLO", ms)] /\
              win_pct ms = Float64.of_Z 20) /\
  Part000._num (Some (list_ascii_of_string "1.2.3")) = None /\
  Part000.parse_stats_in_text malformed_win_paste = inl TypeError /\
  SurvevSpiApp.parse_stats_in_text malformed_win_paste = inl ValueError.
Proof.
  repeat split; try (vm_compute; reflexivity).
  eexists. split; vm_compute; reflexivity.
Qed.

(** * Further properties of the score calculator *)

Lemma SFleb_trans (x y z : spec_float) :
  SFleb x y = true -> SFleb y z = true -> SFleb x z = true.
Proof.
  unfold SFleb, SFcompare.
  destruct x as [sx|sx| |sx mx ex], y as [sy|sy| |sy my ey],
           z as [sz|sz| |sz mz ez];
    try destruct sx; try destruct sy; try destruct sz;
    intros H1 H2; try reflexivity; try discriminate H1; try discriminate H2;
    change (Pos.compare_cont Eq) with Pos.compare in *;
    repeat match goal with
           | H : context [?a ?= ?b] |- _ =>
               destruct (Z.compare_spec a b); try discriminate H
           | |- context [?a ?= ?b] => destruct (Z.compare_spec a b)
           | H : context [Pos.compare ?a ?b] |- _ =>
               destruct (Pos.compare_spec a b); try discriminate H
           | |- context [Pos.compare ?a ?b] => destruct (Pos.compare_spec a b)
           end;
    simpl in *; try reflexivity; try discriminate; try lia.
Qed.

(** A score that reaches a threshold reaches every lower one. *)
Lemma reaches_lower (score : Float64.float) (lo hi : Z) :
  Float64.leb (Float64.of_Z lo) (Float64.of_Z hi) = true ->
  Float64.ge_int score hi = true -> Float64.ge_int score lo = true.
Proof. unfold Float64.ge_int, Float64.leb. apply SFleb_trans. Qed.

(** A larger score reaches every threshold a smaller one reaches. *)
Lemma reaches_more (x y : Float64.float) (t : Z) :
  Float64.leb x y = true ->
  Float64.ge_int x t = true -> Float64.ge_int y t = true.
Proof.
  unfold Float64.ge_int, Float64.leb. intros Hxy Ht.
  now apply SFleb_trans with x.
Qed.

Ltac split_thresholds score :=
  repeat match goal with
         | |- context [Float64.ge_int score ?t] =>
             destruct (Float64.ge_int score t) eqn:?
         end.

Lemma thresholds_nested (score : Float64.float) :
  (Float64.ge_int score 750 = true -> Float64.ge_int score 650 = true) /\
  (Float64.ge_int score 650 = true -> Float64.ge_int score 550 = true) /\
  (Float64.ge_int score 550 = true -> Float64.ge_int score 450 = true) /\
  (Float64.ge_int score 450 = true -> Float64.ge_int score 350 = true) /\
  (Float64.ge_int score 350 = true -> Float64.ge_int score 250 = true).
Proof.
  repeat split; apply reaches_lower; vm_compute; reflexivity.
Qed.

(** X1: the tier of a binary64 score is decided by the band it falls in:
    "Grandmaster" exactly from 750, "Master" exactly from 650 and short of
    750, and so on down to "Bronze" exactly when 250 is not reached, which
    includes NaN. *)
Theorem tier_bands (score : Float64.float) :
  (tier_from_score score = "Grandmaster" <->
     Float64.ge_int score 750 = true) /\
  (tier_from_score score = "Master" <->
     Float64.ge_int score 650 = true /\ Float64.ge_int score 750 = false) /\
  (tier_from_score score = "Diamond" <->
     Float64.ge_int score 550 = true /\ Float64.ge_int score 650 = false) /\
  (tier_from_score score = "Platinum" <->
     Float64.ge_int score 450 = true /\ Float64.ge_int score 550 = false) /\
  (tier_from_score score = "Gold" <->
     Float64.ge_int score 350 = true /\ Float64.ge_int score 450 = false) /\
  (tier_from_score score = "Silver" <->
     Float64.ge_int score 250 = true /\ Float64.ge_int score 350 = false) /\
  (tier_from_score score = "Bronze" <->
     Float64.ge_int score 250 = false) /\
  tier_from_score S754_nan = "Bronze".
Proof.
  destruct (thresholds_nested score) as (N1 & N2 & N3 & N4 & N5).
  unfold tier_from_score, TIERS, tier_loop, ge_int, binary64_arith.
  split_thresholds score;
    try (specialize (N1 eq_refl); discriminate N1);
    try (specialize (N2 eq_refl); discriminate N2);
    try (specialize (N3 eq_refl); discriminate N3);
    try (specialize (N4 eq_refl); discriminate N4);
    try (specialize (N5 eq_refl); discriminate N5);
    repeat split; intros; try reflexivity; try discriminate;
    try match goal with H : _ /\ _ |- _ => destruct H; discriminate end.
Qed.

(** X2: a larger score never gets a lower tier: if [x <= y] as floats,
    the tier of [y] ranks at least as high as the tier of [x]. *)
Theorem tier_monotone (x y : Float64.float) :
  Float64.leb x y = true ->
  (tier_rank (tier_from_score y) <= tier_rank (tier_from_score x))%nat.
Proof.
  intros Hxy.
  unfold tier_from_score, TIERS, tier_loop, ge_int, binary64_arith.
  split_thresholds x;
    repeat match goal with
           | H : Float64.ge_int x ?t = true |- _ =>
               apply (@reaches_more x y t Hxy) in H
           end;
    split_thresholds y; try congruence; vm_compute; lia.
Qed.

Lemma tier_monotone_witness :
  (tier_rank (tier_from_score (Float64.of_Z 700))
   <= tier_rank (tier_from_score (Float64.of_Z 300)))%nat.
Proof.
  apply (@tier_monotone (Float64.of_Z 300) (Float64.of_Z 700)).
  vm_compute. reflexivity.
Defined.

(** * Converting a non-zero [int] never gives a zero float *)

Lemma shr_1_half (mrs : shr_record) :
  0 <= shr_m mrs -> shr_m (shr_1 mrs) = shr_m mrs / 2.
Proof.
  destruct mrs as [m r s]. cbn [shr_m]. intros Hm.
  destruct m as [|[p|p|]|p]; cbn [shr_1 shr_m]; try lia.
  - reflexivity.
  - apply Z.div_unique with 1; lia.
  - apply Z.div_unique with 0; lia.
  - reflexivity.
Qed.

Lemma pow2_xI (p : positive) :
  2 ^ Z.pos p~1 = 2 * (2 ^ Z.pos p * 2 ^ Z.pos p).
Proof.
  assert (E : Z.pos p~1 = 1 + (Z.pos p + Z.pos p)) by lia.
  rewrite E, !Z.pow_add_r by lia. reflexivity.
Qed.

Lemma pow2_xO (p : positive) : 2 ^ Z.pos p~0 = 2 ^ Z.pos p * 2 ^ Z.pos p.
Proof.
  assert (E : Z.pos p~0 = Z.pos p + Z.pos p) by lia.
  rewrite E, Z.pow_add_r by lia. reflexivity.
Qed.

Lemma iter_shr_1_div (p : positive) :
  forall mrs, 0 <= shr_m mrs ->
    shr_m (iter_pos shr_1 p mrs) = shr_m mrs / 2 ^ Z.pos p.
Proof.
  induction p as [p IH|p IH|]; intros mrs Hm; simpl iter_pos.
  - assert (Hp : 0 < 2 ^ Z.pos p) by (apply Z.pow_pos_nonneg; lia).
    rewrite IH by (apply iter_shr_1_nonneg; now apply shr_1_nonneg).
    rewrite IH by now apply shr_1_nonneg.
    rewrite shr_1_half by exact Hm.
    rewrite !Z.div_div by lia. now rewrite pow2_xI.
  - assert (Hp : 0 < 2 ^ Z.pos p) by (apply Z.pow_pos_nonneg; lia).
    rewrite IH by now apply iter_shr_1_nonneg.
    rewrite IH by exact Hm.
    rewrite Z.div_div by lia. now rewrite pow2_xO.
  - now apply shr_1_half.
Qed.

Lemma digits2_pos_lower (m : positive) :
  2 ^ (Z.pos (digits2_pos m) - 1) <= Z.pos m.
Proof.
  assert (Hs : forall d : positive,
             2 ^ (Z.pos (Pos.succ d) - 1) = 2 * 2 ^ (Z.pos d - 1)).
  { intros d.
    assert (E : Z.pos (Pos.succ d) - 1 = 1 + (Z.pos d - 1)) by lia.
    rewrite E, Z.pow_add_r by lia. reflexivity. }
  induction m as [m IH|m IH|]; cbn [digits2_pos].
  - rewrite Hs. lia.
  - rewrite Hs. lia.
  - reflexivity.
Qed.

Lemma shr_fexp_positive (m : positive) (e : Z) (l : location) :
  -1074 <= e ->
  1 <= shr_m (fst (shr_fexp Float64.prec Float64.emax (Z.pos m) e l)) /\
  -1074 <= snd (shr_fexp Float64.prec Float64.emax (Z.pos m) e l).
Proof.
  intros He. unfold shr_fexp, shr.
  assert (Hr : shr_m (shr_record_of_loc (Z.pos m) l) = Z.pos m)
    by (destruct l as [|[]]; reflexivity).
  set (k := fexp Float64.prec Float64.emax (Zdigits2 (Z.pos m) + e) - e).
  assert (Hk : k = Z.max (Z.pos (digits2_pos m) - 53) (-1074 - e)).
  { unfold k, fexp, emin, Float64.prec, Float64.emax. simpl Zdigits2. lia. }
  destruct k as [|p|p] eqn:Ek; simpl fst; simpl snd.
  - rewrite Hr. lia.
  - rewrite iter_shr_1_div by (rewrite Hr; lia). rewrite Hr.
    pose proof (digits2_pos_lower m) as Hd.
    split; [|lia].
    apply Z.div_le_lower_bound; [apply Z.pow_pos_nonneg; lia|].
    rewrite Z.mul_1_r.
    apply Z.le_trans with (2 ^ (Z.pos (digits2_pos m) - 1)); [|exact Hd].
    apply Z.pow_le_mono_r; lia.
  - rewrite Hr. lia.
Qed.

Lemma binary_round_aux_not_zero (s : bool) (m : positive) (e : Z) (l : location) :
  -1074 <= e ->
  Float64.is_zero (binary_round_aux Float64.prec Float64.emax s (Z.pos m) e l)
  = false.
Proof.
  intros He. unfold binary_round_aux.
  destruct (shr_fexp_positive m l He) as [H1 H1e].
  destruct (shr_fexp Float64.prec Float64.emax (Z.pos m) e l) as [mrs' e'].
  simpl in H1, H1e.
  assert (H2 : 1 <= round_nearest_even (shr_m mrs') (loc_of_shr_record mrs')).
  { destruct (loc_of_shr_record mrs') as [|[]]; simpl; try lia.
    destruct (Z.even (shr_m mrs')); lia. }
  destruct (round_nearest_even (shr_m mrs') (loc_of_shr_record mrs'))
    as [|m2|m2]; try lia.
  destruct (shr_fexp_positive m2 loc_Exact H1e) as [H3 _].
  destruct (shr_fexp Float64.prec Float64.emax (Z.pos m2) e' loc_Exact)
    as [mrs'' e''].
  simpl in H3. destruct (shr_m mrs'') as [|m3|m3]; try lia.
  destruct (e'' <=? Float64.emax - Float64.prec); reflexivity.
Qed.

Lemma of_Z_not_zero (n : Z) :
  n <> 0 -> Float64.is_zero (Float64.of_Z n) = false.
Proof.
  intros Hn. unfold Float64.of_Z, binary_normalize.
  assert (H : forall s m,
             Float64.is_zero (binary_round Float64.prec Float64.emax s m 0) = false).
  { intros s m. unfold binary_round, shl_align.
    set (f := fexp Float64.prec Float64.emax (Z.pos (digits2_pos m) + 0)).
    assert (Hf : -1074 <= f)
      by (unfold f, fexp, emin, Float64.prec, Float64.emax; lia).
    destruct (f - 0) as [|d|d] eqn:Ed;
      apply binary_round_aux_not_zero; lia. }
  destruct n as [|m|m]; [contradiction | apply H | apply H].
Qed.

(** * How scoring fails, and the modes never played *)

Lemma int_truediv_error (a b : Z) (e : exn) :
  b <> 0 -> Float64.int_truediv a b = inl e -> e = OverflowError.
Proof.
  intros Hb. unfold Float64.int_truediv.
  apply Z.eqb_neq in Hb. rewrite Hb.
  destruct (Float64.is_finite (Float64.quot_Z a b)); [discriminate|].
  intros H. now injection H as <-.
Qed.

Lemma of_int_error (n : Z) (e : exn) :
  Float64.of_int n = inl e -> e = OverflowError.
Proof.
  unfold Float64.of_int.
  destruct (Float64.is_finite (Float64.of_Z n)); [discriminate|].
  intros H. now injection H as <-.
Qed.

Lemma of_int_zero (n : Z) (t : Float64.float) :
  n <> 0 -> Float64.of_int n = inr t -> Float64.is_zero t = false.
Proof.
  intros Hn. unfold Float64.of_int.
  destruct (Float64.is_finite (Float64.of_Z n)); [|discriminate].
  intros H. injection H as <-. now apply of_Z_not_zero.
Qed.

Lemma spi_components_error (st : ModeStats Float64.float) (e : exn) :
  spi_components st = inl e -> e = OverflowError.
Proof.
  unfold spi_components.
  destruct (games st >? 0) eqn:Hg.
  - destruct (int_truediv (kills st) (games st)) as [e1|q] eqn:Hq.
    + cbn [bind]. intros H. injection H as <-.
      apply (@int_truediv_error (kills st) (games st) e1); [|exact Hq].
      apply Z.gtb_lt in Hg. lia.
    + cbn [bind ret].
      destruct (int_truediv (Z.min (avg_survived_sec st) SURVIVAL_CAP_SEC)
                  SURVIVAL_CAP_SEC) as [e2|r] eqn:Hr.
      * cbn [bind]. intros H. injection H as <-.
        apply (@int_truediv_error (Z.min (avg_survived_sec st) SURVIVAL_CAP_SEC) SURVIVAL_CAP_SEC e2); [discriminate|exact Hr].
      * cbn [bind]. unfold div, binary64_arith, Float64.div.
        change (Float64.is_zero (Float64.of_Z 500)) with false. discriminate.
  - cbn [bind ret].
    destruct (int_truediv (Z.min (avg_survived_sec st) SURVIVAL_CAP_SEC)
                SURVIVAL_CAP_SEC) as [e2|r] eqn:Hr.
    + cbn [bind]. intros H. injection H as <-.
      apply (@int_truediv_error (Z.min (avg_survived_sec st) SURVIVAL_CAP_SEC) SURVIVAL_CAP_SEC e2); [discriminate|exact Hr].
    + cbn [bind]. unfold div, binary64_arith, Float64.div.
      change (Float64.is_zero (Float64.of_Z 500)) with false. discriminate.
Qed.

Lemma spi_error (st : ModeStats Float64.float) (e : exn) :
  spi st = inl e -> e = OverflowError.
Proof.
  unfold spi. destruct (spi_components st) as [e1|c] eqn:Hc; cbn [bind ret].
  - intros H. injection H as <-. now apply spi_components_error with st.
  - discriminate.
Qed.

Lemma adj_spi_error (st : ModeStats Float64.float) (e : exn) :
  adj_spi st = inl e -> e = OverflowError.
Proof.
  unfold adj_spi. destruct (spi st) as [e1|s] eqn:Hs; cbn [bind].
  - intros H. injection H as <-. now apply spi_error with st.
  - destruct (games st >? 0) eqn:Hg; [|discriminate].
    destruct (int_truediv (games st) (games st + CONFIDENCE_CONST))
      as [e2|w] eqn:Hw; cbn [bind ret]; [|discriminate].
    intros H. injection H as <-.
    apply (@int_truediv_error (games st) (games st + CONFIDENCE_CONST) e2);
      [|exact Hw].
    apply Z.gtb_lt in Hg. unfold CONFIDENCE_CONST. lia.
Qed.

Lemma weighted_sum_error (modes : list (string * ModeStats Float64.float)) :
  forall (acc : Float64.float) (e : exn),
    weighted_sum acc modes = inl e -> e = OverflowError.
Proof.
  induction modes as [|[k m] rest IH]; intros acc e; simpl; [discriminate|].
  destruct (adj_spi m) as [e1|a] eqn:Ha; cbn [bind].
  - intros H. injection H as <-. now apply adj_spi_error with m.
  - destruct (Float64.of_int (games m)) as [e2|g] eqn:Hg; cbn [bind].
    + intros H. injection H as <-. now apply of_int_error with (games m).
    + apply IH.
Qed.

(** X3: whatever the record, games zero or negative included, the
    scoring methods never divide by zero: [spi_components], [spi],
    [adj_spi] and [overall_adj_spi] can only fail with OverflowError. *)
Theorem scoring_fails_only_by_overflow :
  (forall (st : ModeStats Float64.float) (e : exn),
     spi_components st = inl e \/ spi st = inl e \/ adj_spi st = inl e ->
     e = OverflowError) /\
  (forall (modes : list (string * ModeStats Float64.float)) (e : exn),
     overall_adj_spi modes = inl e -> e = OverflowError).
Proof.
  split.
  - intros st e [H|[H|H]];
      [now apply spi_components_error with st | now apply spi_error with st
       | now apply adj_spi_error with st].
  - intros modes e. unfold overall_adj_spi.
    destruct (total_games modes =? 0) eqn:H0; [discriminate|].
    apply Z.eqb_neq in H0.
    destruct (weighted_sum (const 0) modes) as [e1|w] eqn:Hw; cbn [bind].
    + intros H. injection H as <-. now apply weighted_sum_error in Hw.
    + destruct (of_int (total_games modes)) as [e2|t] eqn:Ht; cbn [bind].
      * intros H. injection H as <-. now apply of_int_error in Ht.
      * unfold div, binary64_arith, Float64.div.
        rewrite (@of_int_zero (total_games modes) t H0 Ht). discriminate.
Qed.

Lemma scoring_fails_only_by_overflow_witness :
  spi_components huge_kills_stats = inl OverflowError /\
  OverflowError = OverflowError.
Proof.
  split; [vm_compute; reflexivity|].
  apply (proj1 scoring_fails_only_by_overflow huge_kills_stats OverflowError).
  left. vm_compute. reflexivity.
Defined.

Lemma baseline_plus_zero (d : Float64.float) :
  Float64.add (Float64.of_Z NEUTRAL_BASELINE)
              (Float64.mul (Float64.of_Z 0) d)
  = if Float64.is_finite d then Float64.of_Z NEUTRAL_BASELINE else S754_nan.
Proof. destruct d as [s|s| |s m e]; reflexivity. Qed.

(** X4: a mode with no games (games <= 0) is rated at the baseline: its
    adjusted score is exactly 300.0 and its tier "Silver", whatever its
    other fields, unless its raw score less 300 is not finite, in which
    case the adjusted score is NaN and the tier "Bronze". *)
Theorem unplayed_mode_rated_at_baseline
    (st : ModeStats Float64.float) (s : Float64.float) :
  games st <= 0 -> spi st = inr s ->
  adj_spi st
  = inr (if Float64.is_finite (Float64.sub s (Float64.of_Z 300))
         then Float64.of_Z 300 else S754_nan) /\
  mode_tier st
  = inr (if Float64.is_finite (Float64.sub s (Float64.of_Z 300))
         then "Silver" else "Bronze").
Proof.
  intros Hg Hs.
  assert (Ha : adj_spi st
               = inr (if Float64.is_finite (Float64.sub s (Float64.of_Z 300))
                      then Float64.of_Z 300 else S754_nan)).
  { unfold adj_spi. rewrite Hs. cbn [bind].
    assert (Hz : (games st >? 0) = false)
      by (rewrite Z.gtb_ltb; apply Z.ltb_ge; lia).
    rewrite Hz. unfold ret. cbn [bind]. apply f_equal.
    exact (baseline_plus_zero (Float64.sub s (Float64.of_Z 300))). }
  split; [exact Ha|].
  unfold mode_tier. rewrite Ha. cbn [bind ret].
  destruct (Float64.is_finite (Float64.sub s (Float64.of_Z 300)));
    vm_compute; reflexivity.
Qed.

Lemma unplayed_mode_rated_at_baseline_witness :
  adj_spi duo_unplayed = inr (Float64.of_Z 300) /\
  mode_tier duo_unplayed = inr "Silver".
Proof.
  apply (@unplayed_mode_rated_at_baseline duo_unplayed
           (S754_finite false 4938087528920806 (-44)));
    [simpl; lia | vm_compute; reflexivity].
Defined.

(** X5: when the games of the modes sum to zero the overall rating is
    0.0 and its tier "Bronze", although each mode of the collection is
    rated 300.0 on its own row. *)
Theorem all_unplayed_overall_is_bronze
    (modes : list (string * ModeStats Float64.float)) :
  total_games modes = 0 -> overall_tier modes = inr "Bronze".
Proof.
  intros H0. unfold overall_tier, overall_adj_spi. rewrite H0.
  vm_compute. reflexivity.
Qed.

Lemma all_unplayed_overall_is_bronze_witness :
  overall_tier [("DUO", duo_unplayed)] = inr "Bronze".
Proof.
  apply (@all_unplayed_overall_is_bronze [("DUO", duo_unplayed)]).
  reflexivity.
Defined.

(** * The survival time through the manual-entry form *)

Lemma time_value_range (x : str) :
  time_shape x = true -> 0 <= time_value x <= 6039.
Proof.
  unfold time_shape, time_value.
  destruct x as [|c1 [|c2 [|c3 [|c4 [|c5 [|c6 x]]]]]]; try discriminate;
    intros H; rewrite !andb_true_iff in H; decompose [and] H;
    repeat match goal with
           | H : Text.is_digit _ = true |- _ => apply digit_val_nonneg in H
           end; lia.
Qed.

Lemma parse_time_range (s : str) (v : Z) :
  parse_time_to_seconds s = inr (Some v) -> 0 <= v <= 6039.
Proof.
  rewrite parse_time_to_seconds_spec.
  destruct (time_shape (Text.strip s)) eqn:Hs; [|discriminate].
  intros H. injection H as <-. now apply time_value_range.
Qed.

Lemma manual_form_table :
  forallb (fun n => match manual_seconds (format_time (Z.of_nat n)) with
                    | inr v => v =? (if Z.of_nat n <? 6000 then Z.of_nat n else 0)
                    | inl _ => false
                    end)
          (List.seq 0%nat (60 * 100 + 40)%nat) = true.
Proof. vm_compute. reflexivity. Qed.

(** X6: a survival time read from a paste is between 0 and 6039 seconds
    (99:99); shown in the manual-entry form as minutes and two-digit
    seconds and read back with [parse_time_to_seconds(time_str) or 0], it
    is the same number when below 6000 and 0 from 6000 on (100 minutes
    are three digits, which the form does not read); whatever is typed in
    the field, the form gets a number in that range and no exception. *)
Theorem manual_form_keeps_time :
  (forall (s : str) (v : Z),
     parse_time_to_seconds s = inr (Some v) ->
     0 <= v <= 6039 /\
     manual_seconds (format_time v) = inr (if v <? 6000 then v else 0)) /\
  (forall s : str, exists v : Z,
     manual_seconds s = inr v /\ 0 <= v <= 6039).
Proof.
  split.
  - intros s v Hp. apply parse_time_range in Hp. split; [exact Hp|].
    pose proof (proj1 (forallb_forall _ _) manual_form_table (Z.to_nat v)) as Ht.
    cbv beta in Ht. rewrite Z2Nat.id in Ht by lia.
    assert (Hin : In (Z.to_nat v) (List.seq 0%nat (60 * 100 + 40)%nat))
      by (apply in_seq; lia).
    apply Ht in Hin.
    destruct (manual_seconds (format_time v)) as [e|u]; [discriminate|].
    apply Z.eqb_eq in Hin. now subst u.
  - intros s. unfold manual_seconds.
    destruct (parse_time_to_seconds s) as [e|[v|]] eqn:Hp.
    + rewrite parse_time_to_seconds_spec in Hp. discriminate.
    + apply parse_time_range in Hp. cbn [bind ret].
      destruct (v =? 0); eexists; (split; [reflexivity|lia]).
    + cbn [bind ret]. eexists. split; [reflexivity|lia].
Qed.

Lemma manual_form_keeps_time_witness :
  (0 <= 6015 <= 6039 /\ manual_seconds (format_time 6015) = inr 0) /\
  (0 <= 198 <= 6039 /\ manual_seconds (format_time 198) = inr 198).
Proof.
  split.
  - apply (proj1 manual_form_keeps_time "99:75" 6015). vm_compute. reflexivity.
  - apply (proj1 manual_form_keeps_time "3:18" 198). vm_compute. reflexivity.
Defined.

(** * The mapping of modes: setting, looking up, merging *)

Lemma dict_get_set {V : Type} (k k' : string) (v : V) (d : list (string * V)) :
  dict_get k (dict_set k' v d)
  = if String.eqb k' k then Some v else dict_get k d.
Proof.
  induction d as [|[k0 v0] d IH]; simpl.
  - reflexivity.
  - destruct (String.eqb k0 k') eqn:E0; simpl.
    + apply String.eqb_eq in E0. subst k0.
      destruct (String.eqb k' k); reflexivity.
    + destruct (String.eqb k0 k) eqn:E1.
      * apply String.eqb_eq in E1. subst k0.
        rewrite String.eqb_sym in E0. now rewrite E0.
      * exact IH.
Qed.

Lemma dict_set_keys {V : Type} (k : string) (v : V) (d : list (string * V)) :
  map fst (dict_set k v d)
  = if existsb (String.eqb k) (map fst d) then map fst d
    else map fst d ++ [k].
Proof.
  induction d as [|[k0 v0] d IH]; simpl; [reflexivity|].
  rewrite (String.eqb_sym k k0).
  destruct (String.eqb k0 k); simpl; [reflexivity|].
  rewrite IH. destruct (existsb (String.eqb k) (map fst d)); reflexivity.
Qed.

Lemma dict_set_nodup {V : Type} (k : string) (v : V) (d : list (string * V)) :
  NoDup (map fst d) -> NoDup (map fst (dict_set k v d)).
Proof.
  intros Hd. rewrite dict_set_keys.
  destruct (existsb (String.eqb k) (map fst d)) eqn:E; [exact Hd|].
  apply NoDup_app; [exact Hd | constructor; [intros []|constructor] |].
  intros x Hx [<-|[]].
  assert (existsb (String.eqb k) (map fst d) = true); [|congruence].
  apply existsb_exists. exists k. split; [exact Hx|apply String.eqb_refl].
Qed.

(** X7: manual entries override parsed ones, key by key: after the merge
    a mode whose box is ticked holds the record of the form, a mode whose
    box is not ticked holds what the paste gave for it (or nothing), and
    no other key is touched; the merged mapping has no key twice when the
    parsed one has none. *)
Theorem manual_overrides_parsed
    (parsed : list (string * ModeStats Float64.float))
    (m1 m2 m3 : option (ModeStats Float64.float)) :
  let modes := merge_modes parsed (manual_modes m1 m2 m3) in
  dict_get "SOLO" modes
    = match m1 with Some m => Some m | None => dict_get "SOLO" parsed end /\
  dict_get "DUO" modes
    = match m2 with Some m => Some m | None => dict_get "DUO" parsed end /\
  dict_get "SQUAD" modes
    = match m3 with Some m => Some m | None => dict_get "SQUAD" parsed end /\
  (forall k, ~ In k MODE_NAMES -> dict_get k modes = dict_get k parsed) /\
  (NoDup (map fst parsed) -> NoDup (map fst modes)).
Proof.
  cbv zeta. unfold merge_modes, dict_update, manual_modes.
  repeat split.
  - destruct m1, m2, m3; cbn [fold_left fst snd dict_set String.eqb Ascii.eqb Bool.eqb];
      rewrite ?dict_get_set; reflexivity.
  - destruct m1, m2, m3; cbn [fold_left fst snd dict_set String.eqb Ascii.eqb Bool.eqb];
      rewrite ?dict_get_set; reflexivity.
  - destruct m1, m2, m3; cbn [fold_left fst snd dict_set String.eqb Ascii.eqb Bool.eqb];
      rewrite ?dict_get_set; reflexivity.
  - intros k Hk.
    assert (H1 : String.eqb "SOLO" k = false)
      by (apply String.eqb_neq; intros <-; apply Hk; simpl; tauto).
    assert (H2 : String.eqb "DUO" k = false)
      by (apply String.eqb_neq; intros <-; apply Hk; simpl; tauto).
    assert (H3 : String.eqb "SQUAD" k = false)
      by (apply String.eqb_neq; intros <-; apply Hk; simpl; tauto).
    destruct m1, m2, m3; cbn [fold_left fst snd dict_set String.eqb Ascii.eqb Bool.eqb];
      rewrite ?dict_get_set, ?H1, ?H2, ?H3; reflexivity.
  - intros Hn.
    destruct m1, m2, m3; cbn [fold_left fst snd dict_set String.eqb Ascii.eqb Bool.eqb];
      repeat apply dict_set_nodup; exact Hn.
Qed.

Lemma manual_overrides_parsed_witness :
  dict_get "DUO" (merge_modes [("DUO", sample_stats)]
                    (manual_modes None (Some duo_unplayed) None))
  = Some duo_unplayed.
Proof.
  exact (proj1 (proj2 (@manual_overrides_parsed [("DUO", sample_stats)]
                         None (Some duo_unplayed) None))).
Defined.

(** * Collapsing the blanks of a paste *)

Lemma drop_run_length (p : ascii -> bool) (s : str) :
  (List.length (drop_run p s) + run p s = List.length s)%nat.
Proof.
  induction s as [|c s IH]; simpl; [reflexivity|].
  destruct (p c); simpl; lia.
Qed.

Lemma rep_star_accept (p : ascii -> bool) (g : captures) :
  forall (s : str) (prev : option ascii),
    rep p true 0 None prev s (fun prev' s' => accept prev' s' g)
    = Some {| groups := g; after := drop_run p s |}.
Proof.
  induction s as [|c s IH]; intros prev; simpl; [reflexivity|].
  destruct (p c); simpl; [|reflexivity].
  now rewrite IH.
Qed.

Lemma match_blanks (prev : option ascii) (c : ascii) (s : str) :
  match_at BLANKS_RE prev (c :: s)
  = if blank c then Some {| groups := []; after := drop_run blank s |}
    else None.
Proof.
  unfold match_at, BLANKS_RE, plus. cbn [rmatch rep].
  destruct (blank c); cbn [andb may_repeat pred option_map]; [|reflexivity].
  now rewrite rep_star_accept.
Qed.

Lemma sub_blanks_collapse (s : str) :
  (forall prev, sub_loop BLANKS_RE " " prev s 0 = collapse false s) /\
  (forall prev, sub_loop BLANKS_RE " " prev s (run blank s) = collapse true s).
Proof.
  induction s as [|c s [IH0 IH1]]; [split; reflexivity|].
  assert (H0 : forall prev,
             sub_loop BLANKS_RE " " prev (c :: s) 0 = collapse false (c :: s)).
  { intros prev. cbn [sub_loop collapse]. rewrite match_blanks.
    destruct (blank c) eqn:Hc.
    - unfold span. cbn [after List.length].
      pose proof (drop_run_length blank s) as Hl.
      replace (S (List.length s) - List.length (drop_run blank s))%nat
        with (S (run blank s)) by lia.
      cbn [app list_ascii_of_string]. now rewrite IH1.
    - now rewrite IH0. }
  split; [exact H0|].
  intros prev. cbn [run collapse]. destruct (blank c) eqn:Hc.
  - cbn [sub_loop]. apply IH1.
  - specialize (H0 prev). cbn [collapse] in H0. now rewrite Hc in H0.
Qed.

Lemma sub_collapse (s : str) : Re.sub BLANKS_RE " " s = collapse false s.
Proof. apply sub_blanks_collapse. Qed.

Lemma collapse_app (c : ascii) (v : str) :
  blank c = false ->
  forall (u : str) (b : bool),
    collapse b (u ++ c :: v) = collapse b u ++ c :: collapse false v.
Proof.
  intros Hc. induction u as [|d u IH]; intros b; simpl.
  - rewrite Hc. reflexivity.
  - destruct (blank d); [destruct b|]; simpl; now rewrite IH.
Qed.

Lemma collapse_run (s : str) :
  Forall (fun c => blank c = true) s -> collapse true s = [].
Proof.
  induction 1 as [|c s Hc _ IH]; simpl; [reflexivity|]. now rewrite Hc.
Qed.

Lemma collapse_twice (s : str) :
  collapse false (collapse false s) = collapse false s /\
  collapse true (collapse true s) = collapse true s.
Proof.
  induction s as [|c s [IH0 IH1]]; [split; reflexivity|].
  simpl. destruct (blank c) eqn:Hc.
  - split; [|exact IH1].
    simpl. change (blank " ") with true. cbv iota.
    f_equal.
    (* after its first space the text is read in a run *)
    clear -IH1. destruct s as [|d s]; [reflexivity|].
    exact IH1.
  - simpl. rewrite Hc. split; now rewrite IH0.
Qed.

(** X8: the first step of [parse_block], [re.sub] of the runs of blanks
    (white space other than carriage return and line feed) by a space,
    works run by run: a character that is not a blank, a line break
    included, is kept where it is, with the text before it and the text
    after it collapsed on their own; a run of blanks gives one space; and
    collapsing a collapsed text changes nothing. *)
Theorem blanks_collapsed :
  (forall (u v : str) (c : ascii),
     blank c = false ->
     Re.sub BLANKS_RE " " (u ++ c :: v)
     = Re.sub BLANKS_RE " " u ++ c :: Re.sub BLANKS_RE " " v) /\
  (forall blanks : str,
     blanks <> [] -> Forall (fun c => blank c = true) blanks ->
     Re.sub BLANKS_RE " " blanks = " ") /\
  (forall raw : str,
     Re.sub BLANKS_RE " " (Re.sub BLANKS_RE " " raw)
     = Re.sub BLANKS_RE " " raw).
Proof.
  repeat split.
  - intros u v c Hc. rewrite !sub_collapse. now apply collapse_app.
  - intros blanks Hne Hb. rewrite sub_collapse.
    destruct Hb as [|c s Hc Hs]; [contradiction|].
    simpl. rewrite Hc. now rewrite collapse_run.
  - intros raw. rewrite !sub_collapse. apply collapse_twice.
Qed.

Lemma blanks_collapsed_witness :
  Re.sub BLANKS_RE " " (list_ascii_of_string "SOLO" ++ "010"%char :: list_ascii_of_string "   5 GAMES")
  = Re.sub BLANKS_RE " " "SOLO" ++ "010"%char :: Re.sub BLANKS_RE " " "   5 GAMES".
Proof.
  apply (proj1 blanks_collapsed). reflexivity.
Defined.

(** * A paste with no number in it *)

Lemma in_all_ascii (c : ascii) : In c all_ascii.
Proof.
  unfold all_ascii. apply in_map_iff. exists (nat_of_ascii c).
  split; [apply ascii_nat_embedding|].
  apply in_seq. pose proof (nat_ascii_bounded c). lia.
Qed.

Lemma class_within_sound (p q : ascii -> bool) (c : ascii) :
  class_within p q = true -> p c = true -> q c = true.
Proof.
  unfold class_within. intros H Hp.
  pose proof (proj1 (forallb_forall _ _) H c (in_all_ascii c)) as Hc.
  cbv beta in Hc. now rewrite Hp in Hc.
Qed.

Lemma matches_requires (q : ascii -> bool) (r : regex) (prev : option ascii)
    (w rest : str) (g g' : captures) :
  matches r prev w rest g g' ->
  requires q r = true -> Exists (fun c => q c = true) w.
Proof.
  induction 1 as [prev rest g|p c prev rest g Hp|p lo hi greedy prev w rest g Hall Hlo Hhi
                  |r1 r2 prev w1 w2 rest g g1 g2 _ IH1 _ IH2
                  |r1 r2 prev w rest g g' _ IH|r1 r2 prev w rest g g' _ IH
                  |n r prev w rest g g' _ IH|prev rest g Hb|rest g|prev rest g He];
    cbn [requires]; intros Hr; try discriminate Hr.
  - constructor. now apply class_within_sound with p.
  - apply andb_prop in Hr. destruct Hr as [Hlt Hin].
    apply Nat.ltb_lt in Hlt.
    destruct Hall as [|c w Hc Hw]; [simpl in Hlo; lia|].
    constructor. now apply class_within_sound with p.
  - apply Exists_app. apply orb_prop in Hr. destruct Hr as [Hr|Hr]; auto.
  - apply andb_prop in Hr. now apply IH.
  - apply andb_prop in Hr. now apply IH.
  - now apply IH.
Qed.

Lemma match_at_requires (q : ascii -> bool) (r : regex) (prev : option ascii)
    (s : str) :
  requires q r = true -> Forall (fun c => q c = false) s ->
  match_at r prev s = None.
Proof.
  intros Hr Hs. destruct (match_at r prev s) as [m|] eqn:Hm; [|reflexivity].
  unfold match_at in Hm. apply rmatch_sound in Hm.
  destruct Hm as (w & rest & g' & -> & Hm & _).
  apply (@matches_requires q) in Hm; [|exact Hr].
  apply Forall_app in Hs. destruct Hs as [Hw _].
  apply Exists_exists in Hm. destruct Hm as (c & Hin & Hq).
  rewrite Forall_forall in Hw. apply Hw in Hin. congruence.
Qed.

Lemma search_requires (q : ascii -> bool) (r : regex) (s : str) :
  requires q r = true -> Forall (fun c => q c = false) s ->
  search r s = None.
Proof.
  intros Hr. unfold search. generalize (@None ascii).
  induction s as [|c s IH]; intros prev Hs; cbn [search_from];
    rewrite (@match_at_requires q r prev _ Hr Hs); [reflexivity|].
  apply IH. now inversion Hs.
Qed.

Lemma take_requires (q : ascii -> bool) (ps : list regex) (s : str) :
  forallb (requires q) ps = true -> Forall (fun c => q c = false) s ->
  Part000._take s ps = None.
Proof.
  intros Hps Hs. induction ps as [|p ps IH]; [reflexivity|].
  cbn [forallb] in Hps. apply andb_prop in Hps. destruct Hps as [Hp Hps].
  cbn [Part000._take]. rewrite (@search_requires q p s Hp Hs). now apply IH.
Qed.

Lemma part000_no_digit (s : str) :
  Forall (fun c => Text.is_digit c = false) s ->
  Part000.parse_stats_in_text s = inr None.
Proof.
  intros Hs. unfold Part000.parse_stats_in_text, Part000.search_fields.
  rewrite (@take_requires Text.is_digit Part000.GAMES s) by (vm_compute; auto).
  rewrite (@take_requires Text.is_digit Part000.KILLS s) by (vm_compute; auto).
  rewrite (@take_requires Text.is_digit Part000.AVG_SURVIVED s)
    by (vm_compute; auto).
  cbn [Part000.truthy bind ret Part000.f_games Part000.f_kills
       Part000.fallback_games andb].
  reflexivity.
Qed.

Lemma find_number_requires (q : ascii -> bool) (r : regex) (s : str) :
  requires q r = true -> Forall (fun c => q c = false) s ->
  SurvevSpiApp.find_number r s = inr None.
Proof.
  intros Hr Hs. unfold SurvevSpiApp.find_number.
  now rewrite (@search_requires q r s Hr Hs).
Qed.

Lemma survev_no_digit (s : str) :
  Forall (fun c => digit_dot c = false) s ->
  SurvevSpiApp.parse_stats_in_text s = inr None.
Proof.
  intros Hs.
  unfold SurvevSpiApp.parse_stats_in_text, SurvevSpiApp.search_fields,
         SurvevSpiApp.fallback_games.
  rewrite (@find_number_requires digit_dot SurvevSpiApp.GAMES_BEFORE s)
    by (vm_compute; auto).
  rewrite (@find_number_requires digit_dot SurvevSpiApp.GAMES_AFTER s)
    by (vm_compute; auto).
  rewrite (@find_number_requires digit_dot SurvevSpiApp.KILLS s)
    by (vm_compute; auto).
  rewrite (@find_number_requires digit_dot SurvevSpiApp.WIN s)
    by (vm_compute; auto).
  rewrite (@search_requires digit_dot SurvevSpiApp.AVG_SURVIVED s)
    by (vm_compute; auto).
  rewrite (@find_number_requires digit_dot SurvevSpiApp.AVG_DAMAGE s)
    by (vm_compute; auto).
  cbn [bind ret SurvevSpiApp.truthy SurvevSpiApp.f_games SurvevSpiApp.f_kills].
  rewrite (@find_number_requires digit_dot SurvevSpiApp.KG s)
    by (vm_compute; auto).
  reflexivity.
Qed.

Section NothingToParse.

Variable parse_stats_in_text : str -> py (option (ModeStats Float64.float)).
Variable Q : ascii -> Prop.
Hypothesis space_ok : Q " "%char.
Hypothesis nothing : forall s, Forall Q s -> parse_stats_in_text s = inr None.

Lemma sub_loop_forall (r : regex) :
  forall (s : str) (prev : option ascii) (skip : nat),
    Forall Q s -> Forall Q (sub_loop r " " prev s skip).
Proof.
  induction s as [|c s IH]; intros prev skip Hs; cbn [sub_loop]; [constructor|].
  inversion Hs as [|? ? Hc Hs']; subst.
  destruct skip as [|n]; [|now apply IH].
  destruct (match_at r prev (c :: s)) as [m|].
  - destruct (span (c :: s) m).
    + constructor; [exact Hc | now apply IH].
    + cbn [app list_ascii_of_string]. constructor; [exact space_ok | now apply IH].
  - constructor; [exact Hc | now apply IH].
Qed.

Lemma split_loop_head (r : regex) :
  forall (s : str) (prev : option ascii) (skip : nat) (piece : str),
    Forall Q s -> Forall Q piece ->
    exists h t, split_loop r prev s skip piece = h :: t /\ Forall Q h.
Proof.
  induction s as [|c s IH]; intros prev skip piece Hs Hp; cbn [split_loop].
  - exists (rev piece), []. split; [reflexivity|]. now apply Forall_rev.
  - inversion Hs as [|? ? Hc Hs']; subst.
    destruct skip as [|n]; [|now apply IH].
    destruct (match_at r prev (c :: s)) as [m|].
    + destruct (span (c :: s) m).
      * apply IH; [exact Hs' | now constructor].
      * eexists; eexists. split; [reflexivity|]. now apply Forall_rev.
    + apply IH; [exact Hs' | now constructor].
Qed.

Lemma parse_modes_nothing (r : regex) :
  forall (s : str) (prev : option ascii) (skip : nat) (piece : str)
         (modes : list (string * ModeStats Float64.float)),
    Forall Q s ->
    parse_modes parse_stats_in_text (tl (split_loop r prev s skip piece)) modes
    = inr modes.
Proof.
  induction s as [|c s IH]; intros prev skip piece modes Hs; cbn [split_loop].
  - reflexivity.
  - inversion Hs as [|? ? Hc Hs']; subst.
    destruct skip as [|n]; [|now apply IH].
    destruct (match_at r prev (c :: s)) as [m|]; [|now apply IH].
    destruct (span (c :: s) m) as [|n]; [now apply IH|].
    cbn [tl].
    destruct (@split_loop_head r s (Some c) n [] Hs' (Forall_nil _))
      as (h & t & Hsplit & Hh).
    specialize (IH (Some c) n [] modes Hs'). rewrite Hsplit in IH |- *.
    cbn [tl] in IH. cbn [parse_modes]. rewrite (nothing Hh). cbn [bind].
    exact IH.
Qed.

Lemma parse_block_nothing (raw : str) :
  Forall Q raw -> parse_block parse_stats_in_text raw = inr [].
Proof.
  intros Hraw. unfold parse_block.
  assert (Ht : Forall Q (Re.sub BLANKS_RE " " raw))
    by (now apply sub_loop_forall).
  destruct (1 <? _)%nat.
  - unfold Re.split. now apply parse_modes_nothing.
  - now rewrite (nothing Ht).
Qed.

End NothingToParse.

(** X9: a paste in which nothing can be a number gives the empty mapping
    and no exception, whatever headers and labels it holds: in [part_000]
    when it has no decimal digit, in [survev_spi_app.py] when it has no
    decimal digit and no point. The empty and the all-blank paste are
    such texts. *)
Theorem no_number_no_modes (raw : str) :
  (Forall (fun c => Text.is_digit c = false) raw ->
   Part000.parse_block raw = inr []) /\
  (Forall (fun c => digit_dot c = false) raw ->
   SurvevSpiApp.parse_block raw = inr []).
Proof.
  split; intros Hraw.
  - apply (@parse_block_nothing Part000.parse_stats_in_text
             (fun c => Text.is_digit c = false)); auto using part000_no_digit.
  - apply (@parse_block_nothing SurvevSpiApp.parse_stats_in_text
             (fun c => digit_dot c = false)); auto using survev_no_digit.
Qed.

Lemma no_number_no_modes_witness :
  Part000.parse_block "SOLO WIN %: ... DUO no games yet" = inr [] /\
  SurvevSpiApp.parse_block "SOLO no games yet, SQUAD KILLS: none" = inr [].
Proof.
  split.
  - apply (proj1 (no_number_no_modes "SOLO WIN %: ... DUO no games yet")).
    repeat constructor.
  - apply (proj2 (no_number_no_modes "SOLO no games yet, SQUAD KILLS: none")).
    repeat constructor.
Defined.

(** * The exceptions of the extractors *)

Lemma bind_error {A B : Type} (m : py A) (f : A -> py B) (e : exn) :
  bind m f = inl e -> m = inl e \/ exists a, m = inr a /\ f a = inl e.
Proof.
  destruct m as [e'|a]; simpl; intros H; [left; congruence | right; eauto].
Qed.

Lemma matches_keeps_group (r : regex) (prev : option ascii) (w rest : str)
    (g g' : captures) (n : nat) :
  matches r prev w rest g g' -> lookup n g <> None -> lookup n g' <> None.
Proof.
  induction 1; intros Hg; auto.
  cbn [lookup]. destruct (Nat.eqb n0 n); [discriminate | auto].
Qed.

Lemma matches_sets_group (r : regex) (prev : option ascii) (w rest : str)
    (g g' : captures) (n : nat) :
  matches r prev w rest g g' -> sets_group n r = true -> lookup n g' <> None.
Proof.
  induction 1 as [prev rest g|p c prev rest g Hp|p lo hi greedy prev w rest g Hall Hlo Hhi
                  |r1 r2 prev w1 w2 rest g g1 g2 H1 IH1 H2 IH2
                  |r1 r2 prev w rest g g' _ IH|r1 r2 prev w rest g g' _ IH
                  |m r prev w rest g g' _ IH|prev rest g Hb|rest g|prev rest g He];
    cbn [sets_group]; intros Hr; try discriminate Hr.
  - apply orb_prop in Hr. destruct Hr as [Hr|Hr]; [|now apply IH2].
    eapply matches_keeps_group; [exact H2|]. now apply IH1.
  - apply andb_prop in Hr. now apply IH.
  - apply andb_prop in Hr. now apply IH.
  - cbn [lookup]. destruct (Nat.eqb m n); [discriminate|].
    apply IH. exact Hr.
Qed.

Lemma search_sets_group (r : regex) (s : str) (m : match_object) (n : nat) :
  sets_group n r = true -> search r s = Some m -> group m n <> None.
Proof.
  intros Hr Hs. apply search_from_match in Hs. destruct Hs as (prev & s' & Hm).
  unfold match_at in Hm. apply rmatch_sound in Hm.
  destruct Hm as (w & rest & g' & _ & Hm & Hk).
  unfold accept in Hk. injection Hk as <-. unfold group. cbn [groups].
  eapply matches_sets_group; [exact Hm | exact Hr].
Qed.

Lemma float_of_str_error (s : str) (e : exn) :
  Text.float_of_str s = inl e -> e = ValueError.
Proof.
  unfold Text.float_of_str.
  destruct (Text.split_sign s) as [neg body].
  destruct (Text.split_point body) as [ip rest].
  match goal with |- (if ?b then _ else _) = _ -> _ => destruct b end;
    [discriminate|].
  intros H. now injection H as <-.
Qed.

Lemma round_error (x : Float64.float) (e : exn) :
  Float64.round x = inl e -> e = ValueError \/ e = OverflowError.
Proof.
  destruct x; simpl; try discriminate; intros H; injection H as <-; auto.
Qed.

Lemma find_number_error (r : regex) (s : str) (e : exn) :
  sets_group 1 r = true ->
  SurvevSpiApp.find_number r s = inl e -> e = ValueError.
Proof.
  intros Hr. unfold SurvevSpiApp.find_number.
  destruct (search r s) as [m|] eqn:Hs; [|discriminate].
  pose proof (@search_sets_group r s m 1%nat Hr Hs) as Hg.
  destruct (group m 1) as [x|]; [|contradiction].
  cbn [float_of]. destruct (Text.float_of_str x) as [e'|v] eqn:Hf;
    cbn [bind ret]; [|discriminate].
  intros H. injection H as <-. now apply float_of_str_error in Hf.
Qed.

Lemma parse_time_no_error (s : str) (e : exn) :
  parse_time_to_seconds s <> inl e.
Proof. rewrite parse_time_to_seconds_spec. discriminate. Qed.

Ltac first_error H :=
  apply bind_error in H;
  destruct H as [H | (? & ? & H)].

Lemma survev_search_fields_error (s : str) (e : exn) :
  SurvevSpiApp.search_fields s = inl e -> e = ValueError.
Proof.
  unfold SurvevSpiApp.search_fields. intros H.
  first_error H.
  { first_error H.
    - apply find_number_error in H; [exact H | reflexivity].
    - destruct (SurvevSpiApp.truthy _); [discriminate|].
      apply find_number_error in H; [exact H | reflexivity]. }
  first_error H; [apply find_number_error in H; [exact H | reflexivity]|].
  first_error H; [apply find_number_error in H; [exact H | reflexivity]|].
  first_error H.
  { destruct (search SurvevSpiApp.AVG_SURVIVED s) as [m|] eqn:Hs; [|discriminate].
    pose proof (@search_sets_group SurvevSpiApp.AVG_SURVIVED s m 1%nat
                  eq_refl Hs) as Hg.
    destruct (group m 1) as [t|]; [|contradiction].
    now apply parse_time_no_error in H. }
  first_error H; [apply find_number_error in H; [exact H | reflexivity]|].
  discriminate.
Qed.

Lemma survev_fallback_error (s : str) (games kills : option Float64.float)
    (e : exn) :
  SurvevSpiApp.fallback_games s games kills = inl e -> e = ValueError.
Proof.
  unfold SurvevSpiApp.fallback_games. destruct games; [discriminate|].
  intros H. first_error H;
    [apply find_number_error in H; [exact H | reflexivity]|].
  destruct kills as [k|]; [|destruct x; discriminate].
  destruct x as [r|]; [|discriminate].
  unfold Float64.truthy, Float64.div in H.
  destruct (Float64.is_zero r); discriminate.
Qed.

Lemma survev_stats_error (s : str) (e : exn) :
  SurvevSpiApp.parse_stats_in_text s = inl e ->
  e = ValueError \/ e = OverflowError.
Proof.
  unfold SurvevSpiApp.parse_stats_in_text. intros H.
  first_error H; [left; now apply survev_search_fields_error in H|].
  first_error H; [left; now apply survev_fallback_error in H|].
  destruct x0 as [g|]; [|discriminate].
  destruct (SurvevSpiApp.f_kills x) as [k|]; [|discriminate].
  destruct (SurvevSpiApp.f_win_pct x) as [w|]; [|discriminate].
  destruct (SurvevSpiApp.f_avg_survived_sec x) as [t|]; [|discriminate].
  destruct (SurvevSpiApp.f_avg_damage x) as [d|]; [|discriminate].
  first_error H; [now apply round_error in H|].
  first_error H; [now apply round_error in H|].
  discriminate.
Qed.

Lemma part000_stats_error (s : str) (e : exn) :
  Part000.parse_stats_in_text s = inl e ->
  e = TypeError \/ e = ValueError \/ e = OverflowError.
Proof.
  unfold Part000.parse_stats_in_text. intros H.
  first_error H.
  { unfold Part000.search_fields in H. first_error H; [|discriminate].
    destruct (Part000.truthy _); [|discriminate].
    destruct (Part000._take s Part000.AVG_SURVIVED); [|discriminate].
    now apply parse_time_no_error in H. }
  first_error H.
  { unfold Part000.fallback_games in H.
    destruct (Part000.f_games x); [discriminate|].
    destruct (_ && _)%bool; [|discriminate].
    unfold try_except in H.
    match type of H with (match ?b with _ => _ end) = _ => destruct b end;
      discriminate. }
  destruct x0 as [g|]; [|discriminate].
  destruct (Part000.f_kills x) as [k|]; [|discriminate].
  destruct (Part000.f_win_pct x) as [w|]; [|discriminate].
  destruct (Part000.f_avg_survived_sec x) as [t|]; [|discriminate].
  destruct (Part000.f_avg_damage x) as [d|]; [|discriminate].
  first_error H.
  { destruct g as [gs|gx]; [|discriminate].
    right; left. now apply float_of_str_error in H. }
  first_error H; [right; now apply round_error in H|].
  first_error H; [right; left; now apply float_of_str_error in H|].
  first_error H; [right; now apply round_error in H|].
  first_error H.
  { destruct (Part000._num (Some w)); [discriminate|].
    injection H as <-. now left. }
  first_error H.
  { destruct (Part000._num (Some d)); [discriminate|].
    injection H as <-. now left. }
  discriminate.
Qed.

Section ParseBlockErrors.

Variable parse_stats_in_text : str -> py (option (ModeStats Float64.float)).
Variable P : exn -> Prop.
Hypothesis stats_error : forall s e, parse_stats_in_text s = inl e -> P e.

Lemma parse_modes_error (n : nat) :
  forall (parts : list str) (modes : list (string * ModeStats Float64.float))
         (e : exn),
    (List.length parts <= n)%nat ->
    parse_modes parse_stats_in_text parts modes = inl e -> P e.
Proof.
  induction n as [|n IH]; intros parts modes e Hn.
  - destruct parts; [discriminate | simpl in Hn; lia].
  - destruct parts as [|mode [|block rest]]; try discriminate.
    cbn [parse_modes]. intros H. first_error H; [now apply stats_error in H|].
    destruct x; apply IH in H; auto; simpl in Hn; lia.
Qed.

Lemma parse_block_error (raw : str) (e : exn) :
  parse_block parse_stats_in_text raw = inl e -> P e.
Proof.
  unfold parse_block. destruct (1 <? _)%nat.
  - apply parse_modes_error with (n := List.length (tl (split MODE_RE (sub BLANKS_RE " " raw)))).
    lia.
  - intros H. first_error H; [now apply stats_error in H|].
    destruct x; discriminate.
Qed.

End ParseBlockErrors.

(** X10: what a caller of [parse_block] may have to catch: the variant of
    [survev_spi_app.py] raises nothing but ValueError and OverflowError,
    the variant of [part_000] nothing but TypeError, ValueError and
    OverflowError; no text makes either divide by zero or use a missing
    match. *)
Theorem parse_block_exceptions (raw : str) (e : exn) :
  (SurvevSpiApp.parse_block raw = inl e ->
   e = ValueError \/ e = OverflowError) /\
  (Part000.parse_block raw = inl e ->
   e = TypeError \/ e = ValueError \/ e = OverflowError).
Proof.
  split.
  - apply (@parse_block_error SurvevSpiApp.parse_stats_in_text
             (fun e => e = ValueError \/ e = OverflowError)).
    exact survev_stats_error.
  - apply (@parse_block_error Part000.parse_stats_in_text
             (fun e => e = TypeError \/ e = ValueError \/ e = OverflowError)).
    exact part000_stats_error.
Qed.

Lemma parse_block_exceptions_witness :
  (ValueError = ValueError \/ ValueError = OverflowError) /\
  (TypeError = TypeError \/ TypeError = ValueError \/ TypeError = OverflowError).
Proof.
  split.
  - apply (proj1 (parse_block_exceptions lone_point_paste ValueError)).
    vm_compute. reflexivity.
  - apply (proj2 (parse_block_exceptions lone_point_paste TypeError)).
    vm_compute. reflexivity.
Defined.

(** * Commas and points in [_num] *)

Lemma lstrip_map (f : ascii -> ascii) :
  (forall c, Text.is_space (f c) = Text.is_space c) ->
  forall s, Text.lstrip (map f s) = map f (Text.lstrip s).
Proof.
  intros Hf. induction s as [|c s IH]; simpl; [reflexivity|].
  rewrite Hf. destruct (Text.is_space c); [exact IH | reflexivity].
Qed.

Lemma strip_map (f : ascii -> ascii) :
  (forall c, Text.is_space (f c) = Text.is_space c) ->
  forall s, Text.strip (map f s) = map f (Text.strip s).
Proof.
  intros Hf s. unfold Text.strip, Text.rstrip.
  rewrite (lstrip_map f Hf), <- map_rev, (lstrip_map f Hf), map_rev.
  reflexivity.
Qed.

Lemma swap_keeps_space (a b : ascii) :
  Text.is_space a = false -> Text.is_space b = false ->
  forall c, Text.is_space (if Text.eqb_char c a then b else c) = Text.is_space c.
Proof.
  intros Ha Hb c. unfold Text.eqb_char.
  destruct (Ascii.eqb c a) eqn:E; [|reflexivity].
  apply Ascii.eqb_eq in E. subst c. congruence.
Qed.

Lemma point_comma_point (x : str) :
  Text.replace "," "." (Text.replace "." "," x) = Text.replace "," "." x.
Proof.
  unfold Text.replace. rewrite map_map. apply map_ext. intros c.
  unfold Text.eqb_char.
  destruct (Ascii.eqb c ".") eqn:E1.
  - apply Ascii.eqb_eq in E1. subst c. reflexivity.
  - destruct (Ascii.eqb c ","); reflexivity.
Qed.

Lemma comma_point_twice (x : str) :
  Text.replace "," "." (Text.replace "," "." x) = Text.replace "," "." x.
Proof.
  unfold Text.replace. rewrite map_map. apply map_ext. intros c.
  unfold Text.eqb_char.
  destruct (Ascii.eqb c ",") eqn:E1; reflexivity || now rewrite E1.
Qed.

(** X11: on the values the patterns of [part_000] hand to [_num],
    strings of digits, points and commas, [_num] reads a comma as it
    reads a point: writing every point of such a string as a comma, or
    every comma as a point, changes neither whether it is read nor the
    float it gives. *)
Theorem num_comma_is_point (x : str) :
  Forall (fun c => digit_dot_comma c = true) x ->
  Part000._num (Some (Text.replace "." "," x)) = Part000._num (Some x) /\
  Part000._num (Some (Text.replace "," "." x)) = Part000._num (Some x).
Proof.
  intros _. unfold Part000._num. split.
  - unfold Text.replace at 2.
    rewrite (strip_map _ (@swap_keeps_space "." "," eq_refl eq_refl)).
    fold (Text.replace "." "," (Text.strip x)).
    now rewrite point_comma_point.
  - unfold Text.replace at 2.
    rewrite (strip_map _ (@swap_keeps_space "," "." eq_refl eq_refl)).
    fold (Text.replace "," "." (Text.strip x)).
    now rewrite comma_point_twice.
Qed.

Lemma num_comma_is_point_witness :
  Part000._num (Some (Text.replace "." "," "1.234,5"))
  = Part000._num (Some (list_ascii_of_string "1.234,5")) /\
  Part000._num (Some (Text.replace "," "." "20,7"))
  = Part000._num (Some (list_ascii_of_string "20,7")).
Proof.
  split.
  - apply (@num_comma_is_point "1.234,5"). repeat constructor.
  - apply (@num_comma_is_point "20,7"). repeat constructor.
Defined.

(** * The mapping [parse_block] builds *)

Section ParseBlockShape.

Variable parse_stats_in_text : str -> py (option (ModeStats Float64.float)).

Lemma parse_modes_nodup (n : nat) :
  forall (parts : list str)
         (modes result : list (string * ModeStats Float64.float)),
    (List.length parts <= n)%nat ->
    NoDup (map fst modes) ->
    parse_modes parse_stats_in_text parts modes = inr result ->
    NoDup (map fst result).
Proof.
  induction n as [|n IH]; intros parts modes result Hn Hm.
  - destruct parts; [|simpl in Hn; lia].
    simpl. intros H. now injection H as <-.
  - destruct parts as [|mode [|block rest]];
      try (simpl; intros H; now injection H as <-).
    cbn [parse_modes].
    destruct (parse_stats_in_text block) as [e|[stats|]]; cbn [bind];
      [discriminate| |].
    + apply IH; [simpl in Hn; lia | now apply dict_set_nodup].
    + apply IH; [simpl in Hn; lia | exact Hm].
Qed.

Lemma parse_block_nodup (raw : str)
    (result : list (string * ModeStats Float64.float)) :
  parse_block parse_stats_in_text raw = inr result ->
  NoDup (map fst result).
Proof.
  unfold parse_block. destruct (1 <? _)%nat.
  - apply parse_modes_nodup
      with (n := List.length (tl (split MODE_RE (sub BLANKS_RE " " raw))));
      [lia | constructor].
  - destruct (parse_stats_in_text _) as [e|[stats|]]; cbn [bind ret];
      [discriminate| |]; intros H; injection H as <-; simpl;
      repeat constructor. intros [].
Qed.

Lemma parse_block_size (raw : str)
    (result : list (string * ModeStats Float64.float)) :
  parse_block parse_stats_in_text raw = inr result ->
  (List.length result <= 3)%nat.
Proof.
  intros H. pose proof (parse_block_nodup raw H) as Hn.
  pose proof (@parse_block_forall parse_stats_in_text (fun _ => True)
                (fun _ _ _ => I) raw result H) as Hall.
  rewrite <- (length_map fst).
  change 3%nat with (List.length MODE_NAMES).
  apply NoDup_incl_length; [exact Hn|].
  intros k Hk. apply in_map_iff in Hk. destruct Hk as ([k' m] & <- & Hin).
  rewrite Forall_forall in Hall. exact (proj1 (Hall _ Hin)).
Qed.

Lemma parse_modes_app (n : nat) :
  forall (parts more : list str)
         (modes : list (string * ModeStats Float64.float)),
    (List.length parts <= n)%nat ->
    Nat.even (List.length parts) = true ->
    parse_modes parse_stats_in_text (parts ++ more) modes
    = (r <- parse_modes parse_stats_in_text parts modes ;;
       parse_modes parse_stats_in_text more r).
Proof.
  induction n as [|n IH]; intros parts more modes Hn He.
  - destruct parts; [reflexivity | simpl in Hn; lia].
  - destruct parts as [|mode [|block rest]]; [reflexivity|discriminate|].
    cbn [app parse_modes].
    destruct (parse_stats_in_text block) as [e|[stats|]]; cbn [bind];
      [reflexivity| |]; apply IH; simpl in Hn; try lia; exact He.
Qed.

Lemma no_match_one_piece (r : regex) :
  forall (s : str) (prev : option ascii) (piece : str),
    search_from r prev s = None ->
    split_loop r prev s 0 piece = [rev piece ++ s].
Proof.
  induction s as [|c s IH]; intros prev piece; cbn [search_from split_loop].
  - now rewrite app_nil_r.
  - destruct (match_at r prev (c :: s)); [discriminate|].
    intros H. rewrite (IH _ (c :: piece) H). cbn [rev].
    now rewrite <- app_assoc.
Qed.

Lemma split_loop_nonempty (r : regex) :
  forall (s : str) (prev : option ascii) (skip : nat) (piece : str),
    (1 <= List.length (split_loop r prev s skip piece))%nat.
Proof.
  induction s as [|c s IH]; intros prev skip piece; cbn [split_loop].
  - simpl. lia.
  - destruct skip; [|apply IH].
    destruct (match_at r prev (c :: s)); [|apply IH].
    destruct (span (c :: s) m); [apply IH|]. simpl. lia.
Qed.

Lemma match_spans (r : regex) (prev : option ascii) (s : str) (m : match_object) :
  requires (fun _ => true) r = true ->
  match_at r prev s = Some m -> (1 <= span s m)%nat.
Proof.
  intros Hr Hm. unfold match_at in Hm. apply rmatch_sound in Hm.
  destruct Hm as (w & rest & g' & -> & Hm & Hk).
  unfold accept in Hk. injection Hk as <-. unfold span. cbn [after].
  apply (@matches_requires (fun _ => true)) in Hm; [|exact Hr].
  rewrite length_app. destruct Hm; cbn [List.length]; lia.
Qed.

Lemma match_two_pieces (r : regex) :
  requires (fun _ => true) r = true ->
  forall (s : str) (prev : option ascii) (piece : str) (m : match_object),
    search_from r prev s = Some m ->
    (2 <= List.length (split_loop r prev s 0 piece))%nat.
Proof.
  intros Hr. induction s as [|c s IH]; intros prev piece m;
    cbn [search_from split_loop].
  - destruct (match_at r prev []) as [m'|] eqn:Hm; [|discriminate].
    apply (@match_spans r prev [] m' Hr) in Hm. unfold span in Hm. simpl in Hm. lia.
  - destruct (match_at r prev (c :: s)) as [m'|] eqn:Hm.
    + pose proof (@match_spans r prev (c :: s) m' Hr Hm) as Hs.
      destruct (span (c :: s) m'); [lia|]. simpl. lia.
    + apply IH.
Qed.

End ParseBlockShape.

(** X13: the mapping either variant of [parse_block] returns has no key
    twice and at most three entries, however many headers the paste
    holds. *)
Theorem parse_block_at_most_three
    (raw : str) (modes : list (string * ModeStats Float64.float)) :
  SurvevSpiApp.parse_block raw = inr modes \/
  Part000.parse_block raw = inr modes ->
  NoDup (map fst modes) /\ (List.length modes <= 3)%nat.
Proof.
  intros [H|H]; split;
    first [ exact (parse_block_nodup _ raw H) | exact (parse_block_size _ raw H) ].
Qed.

Lemma parse_block_at_most_three_witness :
  NoDup (map fst [("SOLO", sample_stats)]) /\
  (List.length [("SOLO", sample_stats)] <= 3)%nat.
Proof.
  apply (@parse_block_at_most_three sample_paste [("SOLO", sample_stats)]).
  left. vm_compute. reflexivity.
Defined.

(** X14: in the loop of [parse_block] over the headers and their blocks a
    later block replaces an earlier one of the same mode: after a further
    header and a block that gives a record, the mapping is the one built
    so far with that record set at the upper-cased header; looking the
    key up gives the new record, every other key is as before, and a key
    that was there keeps its place. *)
Theorem later_block_replaces
    (parse_stats_in_text : str -> py (option (ModeStats Float64.float)))
    (parts : list str) (header block : str)
    (modes before : list (string * ModeStats Float64.float))
    (stats : ModeStats Float64.float) :
  Nat.even (List.length parts) = true ->
  parse_modes parse_stats_in_text parts modes = inr before ->
  parse_stats_in_text block = inr (Some stats) ->
  let key := string_of_list_ascii (Text.upper header) in
  let result := dict_set key stats before in
  parse_modes parse_stats_in_text (parts ++ [header; block]) modes
  = inr result /\
  dict_get key result = Some stats /\
  (forall k, k <> key -> dict_get k result = dict_get k before) /\
  (In key (map fst before) -> map fst result = map fst before).
Proof.
  intros He Hb Hs. cbv zeta. repeat split.
  - rewrite (@parse_modes_app parse_stats_in_text (List.length parts) parts
               [header; block] modes (Nat.le_refl _) He).
    rewrite Hb. cbn [bind parse_modes]. rewrite Hs. reflexivity.
  - rewrite dict_get_set. now rewrite String.eqb_refl.
  - intros k Hk. rewrite dict_get_set.
    destruct (String.eqb _ k) eqn:E; [|reflexivity].
    apply String.eqb_eq in E. congruence.
  - intros Hin. rewrite dict_set_keys.
    destruct (existsb _ (map fst before)) eqn:E; [reflexivity|].
    assert (existsb (String.eqb (string_of_list_ascii (Text.upper header)))
              (map fst before) = true); [|congruence].
    apply existsb_exists. eexists. split; [exact Hin|apply String.eqb_refl].
Qed.

Lemma later_block_replaces_witness :
  parse_modes SurvevSpiApp.parse_stats_in_text
    ([list_ascii_of_string "solo"; sample_paste]
     ++ [list_ascii_of_string "Solo"; ratio_paste]) []
  = inr [("SOLO", {| games := 100; kills := 120; win_pct := Float64.of_Z 10;
                     avg_survived_sec := 60; avg_damage := Float64.of_Z 100 |})].
Proof.
  apply (@later_block_replaces SurvevSpiApp.parse_stats_in_text
           [list_ascii_of_string "solo"; sample_paste]
           "Solo" ratio_paste [] [("SOLO", sample_stats)]
           {| games := 100; kills := 120; win_pct := Float64.of_Z 10;
              avg_survived_sec := 60; avg_damage := Float64.of_Z 100 |});
    vm_compute; reflexivity.
Defined.

(** X15: [parse_block] reads the collapsed text as one SOLO block exactly
    when no header SOLO, DUO or SQUAD is found in it; as soon as one is
    found, the text before the first header is never read and the blocks
    are those after the headers. *)
Theorem solo_without_header
    (parse_stats_in_text : str -> py (option (ModeStats Float64.float)))
    (raw : str) :
  let text := Re.sub BLANKS_RE " " raw in
  (search MODE_RE text = None ->
   parse_block parse_stats_in_text raw
   = (parsed <- parse_stats_in_text text ;;
      ret (match parsed with Some stats => [("SOLO", stats)] | None => [] end))) /\
  (forall m, search MODE_RE text = Some m ->
   parse_block parse_stats_in_text raw
   = parse_modes parse_stats_in_text (tl (Re.split MODE_RE text)) []).
Proof.
  cbv zeta. split.
  - intros Hs. unfold parse_block, Re.split.
    rewrite (@no_match_one_piece MODE_RE _ None [] Hs). cbn [List.length Nat.ltb Nat.leb].
    destruct (parse_stats_in_text _) as [e|[stats|]]; reflexivity.
  - intros m Hs. unfold parse_block.
    pose proof (@match_two_pieces MODE_RE eq_refl _ None [] m Hs) as Hl.
    fold (Re.split MODE_RE (Re.sub BLANKS_RE " " raw)) in Hl.
    apply Nat.ltb_lt in Hl. now rewrite Hl.
Qed.

Lemma solo_without_header_witness :
  SurvevSpiApp.parse_block ratio_paste
  = (parsed <- SurvevSpiApp.parse_stats_in_text
                 (Re.sub BLANKS_RE " " ratio_paste) ;;
     ret (match parsed with Some stats => [("SOLO", stats)] | None => [] end)).
Proof.
  apply (proj1 (@solo_without_header SurvevSpiApp.parse_stats_in_text
                  ratio_paste)).
  vm_compute. reflexivity.
Defined.

Lemma lstrip_nil (s : str) :
  Text.lstrip s = [] -> Forall (fun c => Text.is_space c = true) s.
Proof.
  induction s as [|c s IH]; simpl; [constructor|].
  destruct (Text.is_space c) eqn:Hc; [|discriminate].
  intros H. constructor; auto.
Qed.

Lemma lstrip_prefix (s : str) :
  exists pre, s = pre ++ Text.lstrip s /\
              Forall (fun c => Text.is_space c = true) pre.
Proof.
  induction s as [|c s (pre & Hs & Hp)]; simpl.
  - exists []. split; [reflexivity|constructor].
  - destruct (Text.is_space c) eqn:Hc.
    + exists (c :: pre). split; [simpl; now f_equal | now constructor].
    + exists []. split; [reflexivity|constructor].
Qed.

Lemma strip_nil (s : str) :
  Text.strip s = [] -> Forall (fun c => Text.is_space c = true) s.
Proof.
  unfold Text.strip, Text.rstrip. intros H.
  destruct (lstrip_prefix s) as (pre & Hs & Hp). rewrite Hs.
  apply Forall_app. split; [exact Hp|].
  assert (Hr : Text.lstrip (rev (Text.lstrip s)) = []).
  { rewrite <- (rev_involutive (Text.lstrip (rev (Text.lstrip s)))), H.
    reflexivity. }
  apply lstrip_nil in Hr. apply Forall_rev in Hr.
  now rewrite rev_involutive in Hr.
Qed.

Lemma space_no_number (c : ascii) :
  Text.is_space c = true -> digit_dot c = false /\ Text.is_digit c = false.
Proof.
  intros Hc.
  pose proof (@class_within_sound Text.is_space (fun c => negb (digit_dot c)) c
                ltac:(vm_compute; reflexivity) Hc) as H1.
  pose proof (@class_within_sound Text.is_space (fun c => negb (Text.is_digit c)) c
                ltac:(vm_compute; reflexivity) Hc) as H2.
  cbv beta in H1, H2. split; now apply negb_true_iff.
Qed.

(** X16: the guard of the page, [parse_block(raw) if raw.strip() else {}],
    changes nothing: on a paste that is empty or all white space both
    variants of [parse_block] return the empty mapping by themselves, so
    the guarded call is the call. *)
Theorem blank_guard_is_redundant (raw : str) :
  parsed_modes SurvevSpiApp.parse_block raw = SurvevSpiApp.parse_block raw /\
  parsed_modes Part000.parse_block raw = Part000.parse_block raw.
Proof.
  unfold parsed_modes.
  destruct (Text.strip raw) as [|c s] eqn:Hs; [|split; reflexivity].
  apply strip_nil in Hs. split; symmetry.
  - apply (@parse_block_nothing SurvevSpiApp.parse_stats_in_text
             (fun c => digit_dot c = false)); auto using survev_no_digit.
    eapply Forall_impl; [|exact Hs]. intros c Hc. now apply space_no_number.
  - apply (@parse_block_nothing Part000.parse_stats_in_text
             (fun c => Text.is_digit c = false)); auto using part000_no_digit.
    eapply Forall_impl; [|exact Hs]. intros c Hc. now apply space_no_number.
Qed.

(** * The raw score of a record with no negative field *)

Lemma ge_zero_nonneg (x : Float64.float) :
  Float64.leb (Float64.of_Z 0) x = true -> Float64.nonneg x = true.
Proof. destruct x as [s|[|]| |[|] m e]; simpl; intros H; try reflexivity; discriminate H. Qed.

Lemma binary_round_nonneg (m : positive) (e : Z) :
  Float64.nonneg (binary_round Float64.prec Float64.emax false m e) = true.
Proof.
  unfold binary_round.
  destruct (shl_align m e _) as [mz ez].
  apply binary_round_aux_nonneg. lia.
Qed.

Lemma add_nonneg (x y : Float64.float) :
  Float64.nonneg x = true -> Float64.nonneg y = true ->
  Float64.nonneg (Float64.add x y) = true.
Proof.
  destruct x as [sx|[|]| |[|] mx ex], y as [sy|[|]| |[|] my ey];
    try discriminate; intros _ _; try reflexivity;
    try (destruct sx; reflexivity); try (destruct sy; reflexivity);
    try (destruct sx, sy; reflexivity).
  unfold Float64.add, SFadd. cbn [cond_Zopp].
  set (a := fst (shl_align mx ex (Z.min ex ey))).
  set (b := fst (shl_align my ey (Z.min ex ey))).
  change (Z.pos a + Z.pos b) with (Z.pos (a + b)).
  cbn [binary_normalize]. apply binary_round_nonneg.
Qed.

Lemma mul_nonneg (x c : Float64.float) :
  Float64.nonneg x = true -> Float64.nonneg c = true ->
  Float64.is_finite c = true -> Float64.is_zero c = false ->
  Float64.nonneg (Float64.mul x c) = true.
Proof.
  destruct x as [sx|[|]| |[|] mx ex], c as [sc|[|]| |[|] mc ec];
    try discriminate; intros _ _ _ _; try reflexivity.
  unfold Float64.mul, SFmul. cbn [xorb]. apply binary_round_aux_nonneg. lia.
Qed.

Lemma div_nonneg (x c : Float64.float) :
  Float64.nonneg x = true -> Float64.nonneg c = true ->
  Float64.is_finite c = true -> Float64.is_zero c = false ->
  Float64.nonneg (SFdiv Float64.prec Float64.emax x c) = true.
Proof.
  destruct x as [sx|[|]| |[|] mx ex], c as [sc|[|]| |[|] mc ec];
    try discriminate; intros _ _ _ _; try reflexivity.
  apply div_finite_nonneg.
Qed.

Lemma quot_Z_nonneg (a b : Z) :
  0 <= a -> 0 < b -> Float64.nonneg (Float64.quot_Z a b) = true.
Proof.
  intros Ha Hb. unfold Float64.quot_Z.
  destruct a as [|p|p]; [reflexivity| |lia].
  assert (E1 : (Z.pos p <? 0) = false) by (apply Z.ltb_ge; lia).
  assert (E2 : (b <? 0) = false) by (apply Z.ltb_ge; lia).
  rewrite E1, E2. apply div_finite_nonneg.
Qed.

(** X17: a record with no negative field, as the extractors give them,
    has no negative part in its score: whenever [spi_components] returns,
    Base, Survival, Damage and WinBonus are floats [>= 0] (none is a NaN),
    and [spi] returns their sum, a float [>= 0] too. *)
Theorem score_parts_nonnegative
    (st : ModeStats Float64.float) (c : Components Float64.float) :
  stats_nonnegative st ->
  spi_components st = inr c ->
  Float64.leb (Float64.of_Z 0) (Base c) = true /\
  Float64.leb (Float64.of_Z 0) (Survival c) = true /\
  Float64.leb (Float64.of_Z 0) (Damage c) = true /\
  Float64.leb (Float64.of_Z 0) (WinBonus c) = true /\
  exists s, spi st = inr s /\ Float64.leb (Float64.of_Z 0) s = true.
Proof.
  intros (Hg & Hk & Ht & Hw & Hd) Hc.
  apply ge_zero_nonneg in Hw, Hd.
  assert (Hparts : Float64.nonneg (Base c) = true /\
                   Float64.nonneg (Survival c) = true /\
                   Float64.nonneg (Damage c) = true /\
                   Float64.nonneg (WinBonus c) = true).
  { rewrite (spi_components_after_base st Ht) in Hc.
    destruct (games st >? 0) eqn:Hpos.
    - unfold Float64.int_truediv in Hc.
      apply Z.gtb_lt in Hpos.
      assert (E : (games st =? 0) = false) by (apply Z.eqb_neq; lia).
      rewrite E in Hc.
      destruct (Float64.is_finite (Float64.quot_Z (kills st) (games st)));
        [|discriminate Hc].
      cbn [bind ret] in Hc. injection Hc as <-. cbn [Base Survival Damage WinBonus].
      repeat split.
      + apply mul_nonneg; try reflexivity. apply quot_Z_nonneg; lia.
      + apply mul_nonneg; try reflexivity. apply quot_Z_nonneg;
          unfold SURVIVAL_CAP_SEC; lia.
      + apply mul_nonneg; try reflexivity.
        apply div_nonneg; try reflexivity. exact Hd.
      + apply mul_nonneg; try reflexivity. exact Hw.
    - cbn [bind ret] in Hc. injection Hc as <-. cbn [Base Survival Damage WinBonus].
      repeat split.
      + apply mul_nonneg; try reflexivity. apply quot_Z_nonneg;
          unfold SURVIVAL_CAP_SEC; lia.
      + apply mul_nonneg; try reflexivity.
        apply div_nonneg; try reflexivity. exact Hd.
      + apply mul_nonneg; try reflexivity. exact Hw. }
  destruct Hparts as (Hb & Hs & Hdm & Hwb).
  repeat split; try now apply nonneg_ge_zero.
  unfold spi. rewrite Hc. cbn [bind ret]. eexists. split; [reflexivity|].
  apply nonneg_ge_zero. repeat apply add_nonneg; assumption.
Qed.

Lemma score_parts_nonnegative_witness :
  exists s, spi sample_stats = inr s /\
            Float64.leb (Float64.of_Z 0) s = true.
Proof.
  destruct (spi_components sample_stats) as [e|c] eqn:Hc;
    [vm_compute in Hc; discriminate Hc|].
  apply (@score_parts_nonnegative sample_stats c); [|exact Hc].
  unfold stats_nonnegative. simpl.
  repeat split; try lia; vm_compute; reflexivity.
Defined.

(** * Rounding to binary64 *)

(** ** Powers of two *)

Lemma pow2_pos (e : Z) : (0 < pow2 e)%Q.
Proof. unfold pow2. apply Qpower_0_lt. reflexivity. Qed.

Lemma pow2_add (a b : Z) : (pow2 (a + b) == pow2 a * pow2 b)%Q.
Proof. unfold pow2. apply Qpower_plus. discriminate. Qed.

Lemma pow2_Z (n : Z) : 0 <= n -> (pow2 n == inject_Z (2 ^ n))%Q.
Proof. intros Hn. unfold pow2. rewrite Zpower_Qpower by exact Hn. reflexivity. Qed.

Lemma pow2_shift (e n : Z) :
  0 <= n -> (pow2 (e + n) == pow2 e * inject_Z (2 ^ n))%Q.
Proof. intros Hn. rewrite pow2_add, (pow2_Z Hn). reflexivity. Qed.

Lemma pow2_le (a b : Z) : a <= b -> (pow2 a <= pow2 b)%Q.
Proof. intros H. unfold pow2. apply Qpower_le_compat_l; [exact H|discriminate]. Qed.

Lemma pow2_lt (a b : Z) : a < b -> (pow2 a < pow2 b)%Q.
Proof. intros H. unfold pow2. apply Qpower_lt_compat_l; [exact H|reflexivity]. Qed.

Lemma pow2_lt_inv (a b : Z) : (pow2 a < pow2 b)%Q -> a < b.
Proof. intros H. unfold pow2 in H. apply Qpower_lt_compat_l_inv in H; [exact H|reflexivity]. Qed.

Lemma pow2_succ (e : Z) : (pow2 (e + 1) == 2 * pow2 e)%Q.
Proof. rewrite pow2_add. unfold pow2 at 2. simpl. lra. Qed.

(** An integer times a power of two, against another: the comparison is
    one of integers once brought to the lower exponent. *)
Lemma scaled_le (a b e n : Z) :
  0 <= n ->
  ((inject_Z a * pow2 e <= inject_Z b * pow2 (e + n))%Q <-> a <= b * 2 ^ n).
Proof.
  intros Hn. rewrite pow2_shift by exact Hn.
  pose proof (pow2_pos e) as Hp.
  rewrite (Zle_Qle a (b * 2 ^ n)), inject_Z_mult.
  split; intros H; nra.
Qed.

Lemma scaled_le_l (a b e n : Z) :
  0 <= n ->
  ((inject_Z a * pow2 (e + n) <= inject_Z b * pow2 e)%Q <-> a * 2 ^ n <= b).
Proof.
  intros Hn. rewrite pow2_shift by exact Hn.
  pose proof (pow2_pos e) as Hp.
  rewrite (Zle_Qle (a * 2 ^ n) b), inject_Z_mult.
  split; intros H; nra.
Qed.

Lemma scaled_lt (a b e n : Z) :
  0 <= n ->
  ((inject_Z a * pow2 e < inject_Z b * pow2 (e + n))%Q <-> a < b * 2 ^ n).
Proof.
  intros Hn. rewrite pow2_shift by exact Hn.
  pose proof (pow2_pos e) as Hp.
  rewrite (Zlt_Qlt a (b * 2 ^ n)), inject_Z_mult.
  split; intros H; nra.
Qed.

(** ** Digits *)

Lemma digits_pos (m : positive) : 1 <= digits m.
Proof. unfold digits. lia. Qed.

Lemma digits_lower (m : positive) : 2 ^ (digits m - 1) <= Z.pos m.
Proof. apply digits2_pos_lower. Qed.

Lemma digits_upper (m : positive) : Z.pos m < 2 ^ digits m.
Proof.
  unfold digits.
  assert (Hs : forall d : positive, 2 ^ Z.pos (Pos.succ d) = 2 * 2 ^ Z.pos d).
  { intros d. rewrite Pos2Z.inj_succ, Z.pow_succ_r by lia. reflexivity. }
  induction m as [m IH|m IH|]; cbn [digits2_pos].
  - rewrite Hs. lia.
  - rewrite Hs. lia.
  - reflexivity.
Qed.

(** The digits are the only [d] with [2^(d-1) <= m < 2^d]. *)
Lemma digits_unique (m : positive) (d : Z) :
  2 ^ (d - 1) <= Z.pos m < 2 ^ d -> digits m = d.
Proof.
  intros [Hl Hu].
  pose proof (digits_lower m) as Hl'. pose proof (digits_upper m) as Hu'.
  pose proof (digits_pos m) as Hp.
  assert (Hd : 1 <= d).
  { destruct (Z_lt_le_dec d 1) as [Hlt|]; [|assumption].
    assert (2 ^ d <= 2 ^ 0) by (destruct (Z_lt_le_dec d 0);
      [rewrite Z.pow_neg_r by lia; simpl; lia | apply Z.pow_le_mono_r; lia]).
    simpl in *. lia. }
  destruct (Z.lt_trichotomy (digits m) d) as [Hlt|[Heq|Hgt]]; [|exact Heq|].
  - assert (2 ^ digits m <= 2 ^ (d - 1)) by (apply Z.pow_le_mono_r; lia). lia.
  - assert (2 ^ d <= 2 ^ (digits m - 1)) by (apply Z.pow_le_mono_r; lia). lia.
Qed.

Lemma digits_le (a b : positive) :
  (a <= b)%positive -> digits a <= digits b.
Proof.
  intros Hab.
  pose proof (digits_lower a) as Hl. pose proof (digits_upper b) as Hu.
  destruct (Z_lt_le_dec (digits b) (digits a)) as [Hlt|]; [|assumption].
  assert (2 ^ digits b <= 2 ^ (digits a - 1)) by (apply Z.pow_le_mono_r; lia).
  lia.
Qed.

Lemma cexp_eq (d : Z) : cexp d = Z.max (d - 53) (-1074).
Proof. reflexivity. Qed.

Lemma cexp_mono (a b : Z) : a <= b -> cexp a <= cexp b.
Proof. rewrite !cexp_eq. lia. Qed.

(** ** Shifting a mantissa right *)

Lemma shr_1_exact (k : Z) :
  0 <= k ->
  shr_1 {| shr_m := 2 * k; shr_r := false; shr_s := false |}
  = {| shr_m := k; shr_r := false; shr_s := false |}.
Proof. intros Hk. destruct k as [|p|p]; [reflexivity|reflexivity|lia]. Qed.

Lemma iter_shr_1_exact (p : positive) :
  forall k : Z, 0 <= k ->
    iter_pos shr_1 p {| shr_m := k * 2 ^ Z.pos p; shr_r := false; shr_s := false |}
    = {| shr_m := k; shr_r := false; shr_s := false |}.
Proof.
  induction p as [p IH|p IH|]; intros k Hk; cbn [iter_pos].
  - assert (Hp : 0 <= 2 ^ Z.pos p) by (apply Z.pow_nonneg; lia).
    rewrite pow2_xI.
    replace (k * (2 * (2 ^ Z.pos p * 2 ^ Z.pos p)))
      with (2 * (k * 2 ^ Z.pos p * 2 ^ Z.pos p)) by ring.
    rewrite shr_1_exact by (apply Z.mul_nonneg_nonneg; [apply Z.mul_nonneg_nonneg|]; lia).
    rewrite IH by (apply Z.mul_nonneg_nonneg; lia).
    now apply IH.
  - assert (Hp : 0 <= 2 ^ Z.pos p) by (apply Z.pow_nonneg; lia).
    rewrite pow2_xO.
    replace (k * (2 ^ Z.pos p * 2 ^ Z.pos p))
      with (k * 2 ^ Z.pos p * 2 ^ Z.pos p) by ring.
    rewrite IH by (apply Z.mul_nonneg_nonneg; lia).
    now apply IH.
  - change (2 ^ 1) with 2. rewrite Z.mul_comm. now apply shr_1_exact.
Qed.

Lemma loc_of_record_of_loc (m : Z) (l : location) :
  loc_of_shr_record (shr_record_of_loc m l) = l.
Proof. destruct l as [|[]]; reflexivity. Qed.

Lemma shr_m_record_of_loc (m : Z) (l : location) :
  shr_m (shr_record_of_loc m l) = m.
Proof. destruct l as [|[]]; reflexivity. Qed.

(** The first step of a rounding: the mantissa is cut at the exponent of
    the result, and nothing is marked as lost when nothing is. *)
Lemma shr_fexp_char (M : positive) (E : Z) (loc : location) :
  E <= cexp (digits M + E) ->
  exists mrs,
    shr_fexp Float64.prec Float64.emax (Z.pos M) E loc
    = (mrs, cexp (digits M + E)) /\
    shr_m mrs = Z.pos M / 2 ^ (cexp (digits M + E) - E) /\
    (loc = loc_Exact -> Z.pos M mod 2 ^ (cexp (digits M + E) - E) = 0 ->
     loc_of_shr_record mrs = loc_Exact).
Proof.
  intros HE. unfold shr_fexp, shr. cbn [Zdigits2].
  change (fexp Float64.prec Float64.emax (Z.pos (digits2_pos M) + E))
    with (cexp (digits M + E)).
  set (e0 := cexp (digits M + E)) in *.
  destruct (e0 - E) as [|p|p] eqn:En; [| |lia].
  - exists (shr_record_of_loc (Z.pos M) loc).
    assert (e0 = E) by lia.
    split; [congruence|]. split.
    + rewrite shr_m_record_of_loc. simpl. now rewrite Z.div_1_r.
    + intros -> _. reflexivity.
  - exists (iter_pos shr_1 p (shr_record_of_loc (Z.pos M) loc)).
    split; [f_equal; lia|]. split.
    + rewrite iter_shr_1_div by (rewrite shr_m_record_of_loc; lia).
      now rewrite shr_m_record_of_loc.
    + intros -> Hmod. cbn [shr_record_of_loc].
      assert (Hp : 0 < 2 ^ Z.pos p) by (apply Z.pow_pos_nonneg; lia).
      assert (HM : Z.pos M = Z.pos M / 2 ^ Z.pos p * 2 ^ Z.pos p).
      { pose proof (Z.div_mod (Z.pos M) (2 ^ Z.pos p)) as Hd. lia. }
      rewrite HM at 1.
      rewrite iter_shr_1_exact by (apply Z.div_pos; lia).
      reflexivity.
Qed.

Lemma round_nearest_even_bounds (m : Z) (l : location) :
  m <= round_nearest_even m l <= m + 1.
Proof.
  destruct l as [|[]]; simpl; try lia. destruct (Z.even m); lia.
Qed.

(** ** What a rounding returns *)

(** Rounding the mantissa [M] at exponent [E], not above the exponent
    [e0] of the result: the result is written with a mantissa [m1] at
    exponent [e0], where [m1] is [M] cut at [e0] or one more, and [M] cut
    at [e0] when nothing is lost. *)
Lemma round_spec (s : bool) (M : positive) (E : Z) (loc : location) :
  E <= cexp (digits M + E) ->
  exists m1 : Z,
    Z.pos M / 2 ^ (cexp (digits M + E) - E) <= m1
      <= Z.pos M / 2 ^ (cexp (digits M + E) - E) + 1 /\
    (loc = loc_Exact -> Z.pos M mod 2 ^ (cexp (digits M + E) - E) = 0 ->
     m1 = Z.pos M / 2 ^ (cexp (digits M + E) - E)) /\
    m1 <= 2 ^ 53 /\
    (-1074 < cexp (digits M + E) -> 2 ^ 52 <= m1) /\
    binary_round_aux Float64.prec Float64.emax s (Z.pos M) E loc
    = rounded s m1 (cexp (digits M + E)).
Proof.
  intros HE.
  destruct (shr_fexp_char M loc HE) as (mrs & Hshr & Hm & Hex).
  set (e0 := cexp (digits M + E)) in *.
  set (n := e0 - E) in *.
  assert (Hn : 0 <= n) by (unfold n; lia).
  assert (Hpn : 0 < 2 ^ n) by (apply Z.pow_pos_nonneg; lia).
  assert (He0 : e0 = Z.max (digits M + E - 53) (-1074)) by reflexivity.
  pose proof (digits_lower M) as Hdl. pose proof (digits_upper M) as Hdu.
  pose proof (digits_pos M) as Hdp.
  set (m0 := Z.pos M / 2 ^ n) in *.
  assert (Hm0 : 0 <= m0) by (apply Z.div_pos; lia).
  assert (Hm0u : m0 < 2 ^ 53).
  { apply Z.div_lt_upper_bound; [exact Hpn|].
    rewrite <- Z.pow_add_r by lia.
    apply Z.lt_le_trans with (2 ^ digits M); [exact Hdu|].
    apply Z.pow_le_mono_r; lia. }
  assert (Hm0l : -1074 < e0 -> 2 ^ 52 <= m0).
  { intros Hgt. apply Z.div_le_lower_bound; [exact Hpn|].
    rewrite <- Z.pow_add_r by lia.
    replace (n + 52) with (digits M - 1) by lia. exact Hdl. }
  set (m1 := round_nearest_even (shr_m mrs) (loc_of_shr_record mrs)).
  pose proof (round_nearest_even_bounds (shr_m mrs) (loc_of_shr_record mrs)) as Hb.
  fold m1 in Hb. rewrite Hm in Hb.
  exists m1. split; [exact Hb|]. split.
  { intros Hl Hmod. unfold m1. rewrite (Hex Hl Hmod). simpl. exact Hm. }
  split; [lia|]. split; [intros Hgt; specialize (Hm0l Hgt); lia|].
  unfold binary_round_aux. rewrite Hshr. fold m1.
  assert (H53 : (2 ^ 53 : Z) = 9007199254740992) by reflexivity.
  destruct m1 as [|p1|p1] eqn:E1; [| |lia].
  - (* the mantissa is zero *)
    unfold shr_fexp, shr. cbn [Zdigits2 Z.add].
    change (fexp Float64.prec Float64.emax e0) with (cexp e0).
    rewrite cexp_eq.
    destruct (Z.max (e0 - 53) (-1074) - e0) as [|q|q] eqn:Eq; [reflexivity|lia|reflexivity].
  - destruct (Z.eq_dec (Z.pos p1) (2 ^ 53)) as [Hc|Hc].
    + (* the mantissa was rounded up to 2^53 *)
      assert (Hp1 : p1 = (2 ^ 53)%positive) by (rewrite H53 in Hc; injection Hc as ->; reflexivity).
      subst p1. unfold shr_fexp, shr. cbn [Zdigits2].
      change (fexp Float64.prec Float64.emax
                (Z.pos (digits2_pos (2 ^ 53)) + e0)) with (cexp (54 + e0)).
      rewrite cexp_eq.
      replace (Z.max (54 + e0 - 53) (-1074) - e0) with 1 by lia.
      cbn [shr_record_of_loc iter_pos shr_1 shr_m].
      unfold rounded. rewrite Z.eqb_refl.
      change (Float64.emax - Float64.prec) with 971.
      replace (e0 + 1) with (e0 + 1) by reflexivity.
      reflexivity.
    + assert (Hlt : Z.pos p1 < 2 ^ 53) by lia.
      assert (Hd1 : digits p1 <= 53).
      { pose proof (digits_lower p1) as Hl1.
        destruct (Z_lt_le_dec 53 (digits p1)) as [Hbig|]; [|lia].
        assert (2 ^ 53 <= 2 ^ (digits p1 - 1)) by (apply Z.pow_le_mono_r; lia).
        lia. }
      unfold shr_fexp, shr. cbn [Zdigits2].
      change (fexp Float64.prec Float64.emax (Z.pos (digits2_pos p1) + e0))
        with (cexp (digits p1 + e0)).
      rewrite cexp_eq.
      destruct (Z.max (digits p1 + e0 - 53) (-1074) - e0) as [|q|q] eqn:Eq;
        [|lia|].
      * cbn [shr_record_of_loc shr_m]. unfold rounded.
        apply Z.eqb_neq in Hc. rewrite Hc. reflexivity.
      * cbn [shr_record_of_loc shr_m]. unfold rounded.
        apply Z.eqb_neq in Hc. rewrite Hc. reflexivity.
Qed.

(** ** Canonical floats and their order *)

Lemma bounded_facts (m : positive) (e : Z) :
  bounded Float64.prec Float64.emax m e = true ->
  -1074 <= e <= 971 /\ Z.pos m < 2 ^ 53 /\
  (-1074 < e -> 2 ^ 52 <= Z.pos m) /\ cexp (digits m + e) = e.
Proof.
  unfold bounded, canonical_mantissa. intros H.
  apply andb_prop in H. destruct H as [Hc He].
  apply Z.eqb_eq in Hc. apply Z.leb_le in He.
  change (fexp Float64.prec Float64.emax (Z.pos (digits2_pos m) + e))
    with (cexp (digits m + e)) in Hc.
  change (Float64.emax - Float64.prec) with 971 in He.
  pose proof Hc as Hc'. rewrite cexp_eq in Hc'.
  pose proof (digits_lower m) as Hl. pose proof (digits_upper m) as Hu.
  split; [lia|]. split; [|split; [|exact Hc]].
  - apply Z.lt_le_trans with (2 ^ digits m); [exact Hu|].
    apply Z.pow_le_mono_r; lia.
  - intros Hgt. replace 52 with (digits m - 1) by lia. exact Hl.
Qed.

Lemma bounded_intro (m : positive) (e : Z) :
  -1074 <= e <= 971 -> Z.pos m < 2 ^ 53 ->
  (-1074 < e -> 2 ^ 52 <= Z.pos m) ->
  bounded Float64.prec Float64.emax m e = true.
Proof.
  intros He Hu Hl. unfold bounded, canonical_mantissa.
  change (fexp Float64.prec Float64.emax (Z.pos (digits2_pos m) + e))
    with (cexp (digits m + e)).
  change (Float64.emax - Float64.prec) with 971.
  apply andb_true_intro. split; [|apply Z.leb_le; lia].
  apply Z.eqb_eq. rewrite cexp_eq.
  assert (Hd : digits m <= 53).
  { pose proof (digits_lower m) as Hl1.
    destruct (Z_lt_le_dec 53 (digits m)) as [Hbig|]; [|lia].
    assert (2 ^ 53 <= 2 ^ (digits m - 1)) by (apply Z.pow_le_mono_r; lia).
    lia. }
  destruct (Z.eq_dec e (-1074)) as [->|Hne]; [lia|].
  assert (digits m = 53) by (apply digits_unique; split; [apply Hl; lia|exact Hu]).
  lia.
Qed.

Lemma value_finite (m : positive) (e : Z) :
  value (S754_finite false m e) = (inject_Z (Z.pos m) * pow2 e)%Q.
Proof. reflexivity. Qed.

Lemma value_positive (m : positive) (e : Z) :
  (0 < inject_Z (Z.pos m) * pow2 e)%Q.
Proof.
  pose proof (pow2_pos e) as Hp.
  assert (H : (0 < inject_Z (Z.pos m))%Q)
    by (change 0%Q with (inject_Z 0); rewrite <- Zlt_Qlt; lia).
  nra.
Qed.

Lemma canonical_exponent_lt (m1 m2 : positive) (e1 e2 : Z) :
  bounded Float64.prec Float64.emax m1 e1 = true ->
  bounded Float64.prec Float64.emax m2 e2 = true ->
  e1 < e2 ->
  (inject_Z (Z.pos m1) * pow2 e1 < inject_Z (Z.pos m2) * pow2 e2)%Q.
Proof.
  intros H1 H2 Hlt.
  destruct (@bounded_facts m1 e1 H1) as (He1 & Hu1 & _ & _).
  destruct (@bounded_facts m2 e2 H2) as (He2 & _ & Hl2 & _).
  specialize (Hl2 ltac:(lia)).
  replace e2 with (e1 + (e2 - e1)) by lia.
  apply scaled_lt; [lia|].
  assert (2 ^ 1 <= 2 ^ (e2 - e1)) by (apply Z.pow_le_mono_r; lia).
  change (2 ^ 1) with 2 in *. change (2 ^ 53) with (2 * 2 ^ 52) in Hu1.
  nia.
Qed.

Lemma same_exponent_le (a b e : Z) :
  ((inject_Z a * pow2 e <= inject_Z b * pow2 e)%Q <-> a <= b).
Proof.
  pose proof (pow2_pos e) as Hp. rewrite (Zle_Qle a b).
  split; intros H; nra.
Qed.

(** Python's [<=] on two floats that are zeros or positive numbers is the
    order of the numbers they stand for. *)
Lemma leb_value (x y : Float64.float) :
  nonneg_number x = true -> nonneg_number y = true ->
  (Float64.leb x y = true <-> (value x <= value y)%Q).
Proof.
  destruct x as [sx|sx| |[|] mx ex], y as [sy|sy| |[|] my ey];
    try discriminate; cbn [nonneg_number]; intros Hx Hy;
    unfold Float64.leb, SFleb, SFcompare; cbn [value].
  - split; [intros _; lra | reflexivity].
  - pose proof (value_positive my ey). split; [intros _; lra | reflexivity].
  - pose proof (value_positive mx ex). split; [discriminate | intros; lra].
  - destruct (Z.compare_spec ex ey) as [Heq|Hlt|Hgt].
    + subst ey. rewrite same_exponent_le.
      change (Pos.compare_cont Eq mx my) with (Pos.compare mx my).
      destruct (Pos.compare_spec mx my) as [He|Hl|Hg];
        split; try reflexivity; try discriminate; intros; lia.
    + pose proof (@canonical_exponent_lt mx my ex ey Hx Hy Hlt).
      split; [intros _; lra | reflexivity].
    + pose proof (@canonical_exponent_lt my mx ey ex Hy Hx Hgt).
      split; [discriminate | intros; lra].
Qed.

(** ** The float a rounding is written as *)

Lemma rounded_number (m1 e0 : Z) :
  0 <= m1 <= 2 ^ 53 -> -1074 <= e0 ->
  (-1074 < e0 -> 2 ^ 52 <= m1) ->
  (m1 = 2 ^ 53 -> e0 + 1 <= 971) -> e0 <= 971 ->
  nonneg_number (rounded false m1 e0) = true /\
  (value (rounded false m1 e0) == inject_Z m1 * pow2 e0)%Q.
Proof.
  intros Hm He Hl Hc Hf. unfold rounded.
  destruct m1 as [|p|p]; [| |lia].
  - split; [reflexivity|]. cbn [value]. change (inject_Z 0) with 0%Q. lra.
  - destruct (Z.eqb_spec (Z.pos p) (2 ^ 53)) as [E|E].
    + specialize (Hc E).
      assert (L : (e0 + 1 <=? 971) = true) by (apply Z.leb_le; lia).
      rewrite L. split.
      * cbn [nonneg_number]. apply bounded_intro; [lia|reflexivity|reflexivity].
      * cbn [value]. rewrite E, pow2_succ.
        change (inject_Z (Z.pos (2 ^ 52))) with (inject_Z (2 ^ 52)).
        change (inject_Z (2 ^ 53)) with (2 * inject_Z (2 ^ 52))%Q. ring.
    + assert (L : (e0 <=? 971) = true) by (apply Z.leb_le; lia).
      rewrite L. split; [|reflexivity].
      cbn [nonneg_number]. apply bounded_intro; [lia|lia|exact Hl].
Qed.

(** ** Rounding an exact number *)

(** The number [M * 2^E], with [E] not above the exponent [e0] of the
    result, is rounded to [m1 * 2^e0] where:
    - [m1 * 2^e0] is not above a bound that is a multiple of [2^e0];
    - [m1 * 2^e0] is not below a canonical float that is not above the
      number;
    - [m1 * 2^e0] is not above the number, or [m1] has 53 digits and
      [(m1 - 1) * 2^e0] is not above the number. *)
Lemma round_exact_facts (s : bool) (M : positive) (E : Z) :
  E <= cexp (digits M + E) ->
  exists m1 : Z,
    binary_round_aux Float64.prec Float64.emax s (Z.pos M) E loc_Exact
    = rounded s m1 (cexp (digits M + E)) /\
    0 <= m1 <= 2 ^ 53 /\
    (-1074 < cexp (digits M + E) -> 2 ^ 52 <= m1) /\
    (forall mc ec : Z,
       cexp (digits M + E) <= ec ->
       (inject_Z (Z.pos M) * pow2 E <= inject_Z mc * pow2 ec)%Q ->
       (inject_Z m1 * pow2 (cexp (digits M + E)) <= inject_Z mc * pow2 ec)%Q) /\
    (forall (mc : positive) (ec : Z),
       bounded Float64.prec Float64.emax mc ec = true ->
       (inject_Z (Z.pos mc) * pow2 ec <= inject_Z (Z.pos M) * pow2 E)%Q ->
       (inject_Z (Z.pos mc) * pow2 ec
        <= inject_Z m1 * pow2 (cexp (digits M + E)))%Q) /\
    (-1074 <= E ->
     (inject_Z m1 * pow2 (cexp (digits M + E)) <= inject_Z (Z.pos M) * pow2 E)%Q \/
     (2 ^ 52 <= m1 /\
      (inject_Z (m1 - 1) * pow2 (cexp (digits M + E))
       <= inject_Z (Z.pos M) * pow2 E)%Q)).
Proof.
  intros HE.
  destruct (@round_spec s M E loc_Exact HE) as (m1 & Hb & Hex & Hu & Hl & Hr).
  specialize (Hex eq_refl).
  set (e0 := cexp (digits M + E)) in *.
  set (n := e0 - E) in *.
  assert (Hn : 0 <= n) by (unfold n; lia).
  assert (Hpn : 0 < 2 ^ n) by (apply Z.pow_pos_nonneg; lia).
  set (m0 := Z.pos M / 2 ^ n) in *.
  assert (Hm0 : 0 <= m0) by (apply Z.div_pos; lia).
  pose proof (Z.div_mod (Z.pos M) (2 ^ n) ltac:(lia)) as Hdm.
  pose proof (Z.mod_pos_bound (Z.pos M) (2 ^ n) Hpn) as Hmod.
  fold m0 in Hdm.
  assert (He0 : e0 = E + n) by (unfold n; lia).
  exists m1. split; [exact Hr|]. split; [lia|]. split; [exact Hl|].
  split; [|split].
  - (* not above a bound on the grid *)
    intros mc ec Hec Hx.
    replace ec with (E + (ec - E)) in Hx at 1 by lia.
    apply scaled_le in Hx; [|lia].
    replace (ec - E) with ((ec - e0) + n) in Hx by lia.
    rewrite Z.pow_add_r in Hx by lia.
    set (K := mc * 2 ^ (ec - e0)) in *.
    assert (HK : Z.pos M <= K * 2 ^ n) by (unfold K; lia).
    assert (Hm1 : m1 <= K).
    { destruct (Z.eq_dec (Z.pos M mod 2 ^ n) 0) as [Hz|Hnz].
      - rewrite (Hex Hz). fold m0. nia.
      - assert (m0 < K) by nia. lia. }
    replace ec with (e0 + (ec - e0)) by lia.
    apply scaled_le; [lia|]. exact Hm1.
  - (* not below a canonical float *)
    intros mc ec Hc Hx.
    destruct (@bounded_facts mc ec Hc) as (Hec & Hmu & Hml & _).
    destruct (Z_lt_le_dec ec e0) as [Hlt|Hge].
    + specialize (Hl ltac:(lia)).
      replace e0 with (ec + (e0 - ec)) by lia.
      apply scaled_le; [lia|].
      assert (2 ^ 1 <= 2 ^ (e0 - ec)) by (apply Z.pow_le_mono_r; lia).
      change (2 ^ 1) with 2 in *. change (2 ^ 53) with (2 * 2 ^ 52) in Hmu.
      nia.
    + replace ec with (E + (ec - E)) in Hx by lia.
      apply scaled_le_l in Hx; [|lia].
      replace (ec - E) with ((ec - e0) + n) in Hx by lia.
      rewrite Z.pow_add_r in Hx by lia.
      set (K := Z.pos mc * 2 ^ (ec - e0)) in *.
      assert (HK : K * 2 ^ n <= Z.pos M) by (unfold K; lia).
      assert (Hm1 : K <= m1) by nia.
      replace ec with (e0 + (ec - e0)) by lia.
      apply scaled_le_l; [lia|]. exact Hm1.
  - (* at most one unit above the number *)
    intros HEmin.
    destruct (Z.eq_dec (Z.pos M mod 2 ^ n) 0) as [Hz|Hnz].
    + left. rewrite (Hex Hz). fold m0. rewrite He0.
      apply scaled_le_l; [lia|]. nia.
    + right.
      assert (Hn0 : n <> 0).
      { intros Hn0. rewrite Hn0 in Hnz. simpl in Hnz.
        rewrite Z.mod_1_r in Hnz. contradiction. }
      split; [apply Hl; lia|].
      rewrite He0. apply scaled_le_l; [lia|]. nia.
Qed.

(** ** Aligning mantissas *)

Lemma pos_iter_xO (m d : positive) :
  Z.pos (Pos.iter xO m d) = Z.pos m * 2 ^ Z.pos d.
Proof.
  induction d as [|d IH] using Pos.peano_ind.
  - simpl. lia.
  - rewrite Pos.iter_succ, Pos2Z.inj_xO, IH, Pos2Z.inj_succ, Z.pow_succ_r by lia.
    ring.
Qed.

Lemma shl_align_spec (m : positive) (e e' : Z) :
  snd (shl_align m e e') = Z.min e e' /\
  Z.pos (fst (shl_align m e e')) = Z.pos m * 2 ^ (e - Z.min e e').
Proof.
  unfold shl_align. destruct (e' - e) as [|d|d] eqn:Ed; cbn [fst snd].
  - replace (Z.min e e') with e by lia.
    rewrite Z.sub_diag, Z.pow_0_r, Z.mul_1_r. split; reflexivity.
  - replace (Z.min e e') with e by lia.
    rewrite Z.sub_diag, Z.pow_0_r, Z.mul_1_r. split; reflexivity.
  - replace (Z.min e e') with e' by lia.
    rewrite pos_iter_xO. split; [reflexivity|]. f_equal. f_equal. lia.
Qed.

Lemma digits_shift (m m' : positive) (k : Z) :
  0 <= k -> Z.pos m' = Z.pos m * 2 ^ k -> digits m' = digits m + k.
Proof.
  intros Hk Hm. apply digits_unique. rewrite Hm.
  pose proof (digits_lower m) as Hl. pose proof (digits_upper m) as Hu.
  pose proof (digits_pos m) as Hp.
  assert (Hp2 : 0 < 2 ^ k) by (apply Z.pow_pos_nonneg; lia).
  replace (digits m + k - 1) with ((digits m - 1) + k) by lia.
  rewrite !Z.pow_add_r by lia. split; nia.
Qed.

Lemma aligned_value (m m' : Z) (e e' : Z) :
  e' <= e -> m' = m * 2 ^ (e - e') ->
  (inject_Z m' * pow2 e' == inject_Z m * pow2 e)%Q.
Proof.
  intros He ->. replace e with (e' + (e - e')) at 2 by lia.
  rewrite pow2_shift by lia. rewrite inject_Z_mult. ring.
Qed.

(** A number not above another has no more digits before the point. *)
Lemma magnitude_le (a b : positive) (ea eb : Z) :
  (inject_Z (Z.pos a) * pow2 ea <= inject_Z (Z.pos b) * pow2 eb)%Q ->
  digits a + ea <= digits b + eb.
Proof.
  intros H.
  pose proof (digits_lower a) as Hl. pose proof (digits_upper b) as Hu.
  pose proof (digits_pos a) as Hpa. pose proof (digits_pos b) as Hpb.
  assert (H1 : (pow2 (digits a - 1 + ea) <= inject_Z (Z.pos a) * pow2 ea)%Q).
  { assert (Hn : 0 <= digits a - 1) by lia.
    rewrite pow2_add, (pow2_Z Hn).
    pose proof (pow2_pos ea). rewrite Zle_Qle in Hl. nra. }
  assert (H2 : (inject_Z (Z.pos b) * pow2 eb < pow2 (digits b + eb))%Q).
  { assert (Hn : 0 <= digits b) by lia.
    rewrite pow2_add, (pow2_Z Hn).
    pose proof (pow2_pos eb). rewrite Zlt_Qlt in Hu. nra. }
  assert (H3 : (pow2 (digits a - 1 + ea) < pow2 (digits b + eb))%Q) by lra.
  apply pow2_lt_inv in H3. lia.
Qed.

Lemma round_aux_opp (M : Z) (E : Z) (l : location) :
  binary_round_aux Float64.prec Float64.emax true M E l
  = SFopp (binary_round_aux Float64.prec Float64.emax false M E l).
Proof.
  unfold binary_round_aux.
  destruct (shr_fexp Float64.prec Float64.emax M E l) as [mrs e'].
  destruct (shr_fexp Float64.prec Float64.emax _ e' loc_Exact) as [mrs' e''].
  destruct (shr_m mrs'); [reflexivity| |reflexivity].
  destruct (e'' <=? Float64.emax - Float64.prec); reflexivity.
Qed.

Lemma round_opp (M : positive) (E : Z) :
  binary_round Float64.prec Float64.emax true M E
  = SFopp (binary_round Float64.prec Float64.emax false M E).
Proof.
  unfold binary_round. destruct (shl_align M E _) as [mz ez].
  apply round_aux_opp.
Qed.

(** ** Rounding an integer times a power of two *)

Lemma binary_round_facts (M : positive) (E : Z) :
  exists m1 : Z,
    binary_round Float64.prec Float64.emax false M E
    = rounded false m1 (cexp (digits M + E)) /\
    0 <= m1 <= 2 ^ 53 /\
    (-1074 < cexp (digits M + E) -> 2 ^ 52 <= m1) /\
    (forall mc ec : Z,
       cexp (digits M + E) <= ec ->
       (inject_Z (Z.pos M) * pow2 E <= inject_Z mc * pow2 ec)%Q ->
       (inject_Z m1 * pow2 (cexp (digits M + E)) <= inject_Z mc * pow2 ec)%Q) /\
    (forall (mc : positive) (ec : Z),
       bounded Float64.prec Float64.emax mc ec = true ->
       (inject_Z (Z.pos mc) * pow2 ec <= inject_Z (Z.pos M) * pow2 E)%Q ->
       (inject_Z (Z.pos mc) * pow2 ec
        <= inject_Z m1 * pow2 (cexp (digits M + E)))%Q) /\
    (-1074 <= E ->
     (inject_Z m1 * pow2 (cexp (digits M + E)) <= inject_Z (Z.pos M) * pow2 E)%Q \/
     (2 ^ 52 <= m1 /\
      (inject_Z (m1 - 1) * pow2 (cexp (digits M + E))
       <= inject_Z (Z.pos M) * pow2 E)%Q)).
Proof.
  unfold binary_round.
  change (fexp Float64.prec Float64.emax (Z.pos (digits2_pos M) + E))
    with (cexp (digits M + E)).
  destruct (shl_align_spec M E (cexp (digits M + E))) as [Hs Hf].
  destruct (shl_align M E (cexp (digits M + E))) as [M' E'].
  cbn [fst snd] in Hs, Hf. subst E'.
  set (E' := Z.min E (cexp (digits M + E))) in *.
  assert (HE' : E' <= E) by (unfold E'; lia).
  assert (Hd : digits M' + E' = digits M + E).
  { rewrite (@digits_shift M M' (E - E')) by (lia || exact Hf). lia. }
  assert (Hc : E' <= cexp (digits M' + E')) by (rewrite Hd; unfold E'; lia).
  assert (Hv : (inject_Z (Z.pos M') * pow2 E' == inject_Z (Z.pos M) * pow2 E)%Q)
    by (apply aligned_value; [exact HE'|exact Hf]).
  destruct (@round_exact_facts false M' E' Hc) as (m1 & Hr & Hb & Hl & Hup & Hdn & Hlo).
  rewrite Hd in *.
  exists m1. split; [exact Hr|]. split; [exact Hb|]. split; [exact Hl|].
  split; [|split].
  - intros mc ec Hec Hx. apply Hup; [exact Hec|]. now rewrite Hv.
  - intros mc ec Hbd Hx. apply Hdn; [exact Hbd|]. now rewrite Hv.
  - intros HE.
    assert (HEm : -1074 <= E').
    { unfold E'. rewrite cexp_eq. lia. }
    destruct (Hlo HEm) as [H|[H1 H2]]; [left|right; split; [exact H1|]];
      now rewrite <- Hv.
Qed.

(** ** Sums, differences and products of floats *)

Lemma nonneg_number_value (x : Float64.float) :
  nonneg_number x = true -> (0 <= value x)%Q.
Proof.
  intros H. destruct x as [s|s| |[|] m e]; try discriminate H; cbn [value].
  - lra.
  - pose proof (value_positive m e). lra.
Qed.

(** The rounding of [M * 2^E], a number not above a float [c]. *)
Lemma round_below_float (M : positive) (E : Z) (mc : positive) (ec : Z) :
  bounded Float64.prec Float64.emax mc ec = true ->
  (inject_Z (Z.pos M) * pow2 E <= inject_Z (Z.pos mc) * pow2 ec)%Q ->
  nonneg_number (binary_round Float64.prec Float64.emax false M E) = true /\
  (value (binary_round Float64.prec Float64.emax false M E)
   <= inject_Z (Z.pos mc) * pow2 ec)%Q /\
  (forall c : Float64.float,
     nonneg_number c = true ->
     (value c <= inject_Z (Z.pos M) * pow2 E)%Q ->
     (value c <= value (binary_round Float64.prec Float64.emax false M E))%Q) /\
  (-1074 <= E ->
   just_above (binary_round Float64.prec Float64.emax false M E)
              (inject_Z (Z.pos M) * pow2 E)).
Proof.
  intros Hc Hx.
  destruct (@bounded_facts mc ec Hc) as (Hec & Hmu & Hml & Hce).
  destruct (binary_round_facts M E) as (m1 & Hr & Hb & Hl & Hup & Hdn & Hlo).
  set (e0 := cexp (digits M + E)) in *.
  assert (Hgrid : e0 <= ec).
  { rewrite <- Hce. apply cexp_mono. now apply magnitude_le. }
  assert (Hmin : -1074 <= e0) by (unfold e0; rewrite cexp_eq; lia).
  pose proof (Hup (Z.pos mc) ec Hgrid Hx) as Hle.
  assert (Hcarry : m1 = 2 ^ 53 -> e0 + 1 <= 971).
  { intros E1. rewrite E1 in Hle.
    destruct (Z_lt_le_dec e0 ec) as [|Hge]; [lia|].
    assert (e0 = ec) by lia. subst ec.
    apply same_exponent_le in Hle. lia. }
  destruct (@rounded_number m1 e0 Hb Hmin Hl Hcarry ltac:(lia)) as [Hn Hv].
  rewrite Hr. split; [exact Hn|]. split; [rewrite Hv; exact Hle|]. split.
  - intros c Hcn Hcx. rewrite Hv.
    destruct c as [sc|sc| |[|] m e]; try discriminate Hcn; cbn [value] in *.
    + pose proof (pow2_pos e0).
      assert ((0 <= inject_Z m1)%Q)
        by (change 0%Q with (inject_Z 0); rewrite <- Zle_Qle; lia).
      nra.
    + now apply Hdn.
  - intros HE. destruct (Hlo HE) as [H|[H1 H2]].
    + left. rewrite Hv. exact H.
    + right. unfold rounded.
      destruct m1 as [|p|p]; [lia| |lia].
      destruct (Z.eqb_spec (Z.pos p) (2 ^ 53)) as [E1|E1].
      * specialize (Hcarry E1).
        assert (L : (e0 + 1 <=? 971) = true) by (apply Z.leb_le; lia).
        rewrite L. exists (2 ^ 52)%positive, (e0 + 1).
        split; [reflexivity|]. split; [reflexivity|].
        rewrite E1 in H2. rewrite pow2_succ.
        change (inject_Z (Z.pos (2 ^ 52) - 1)) with (inject_Z (2 ^ 52 - 1)).
        assert (Hq : (inject_Z (2 ^ 52 - 1) * (2 * pow2 e0)
                      <= inject_Z (2 ^ 53 - 1) * pow2 e0)%Q).
        { pose proof (pow2_pos e0).
          change (inject_Z (2 ^ 52 - 1)) with (4503599627370495 # 1)%Q.
          change (inject_Z (2 ^ 53 - 1)) with (9007199254740991 # 1)%Q. nra. }
        lra.
      * assert (L : (e0 <=? 971) = true) by (apply Z.leb_le; lia).
        rewrite L. exists p, e0. split; [reflexivity|]. split; [exact H1|exact H2].
Qed.

(** [binary_normalize] on an integer that is not negative. *)
Lemma normalize_below_float (D : Z) (E : Z) (mc : positive) (ec : Z) :
  0 <= D ->
  bounded Float64.prec Float64.emax mc ec = true ->
  (inject_Z D * pow2 E <= inject_Z (Z.pos mc) * pow2 ec)%Q ->
  nonneg_number (binary_normalize Float64.prec Float64.emax D E false) = true /\
  (value (binary_normalize Float64.prec Float64.emax D E false)
   <= inject_Z (Z.pos mc) * pow2 ec)%Q /\
  (forall c : Float64.float,
     nonneg_number c = true ->
     (value c <= inject_Z D * pow2 E)%Q ->
     (value c <= value (binary_normalize Float64.prec Float64.emax D E false))%Q) /\
  (-1074 <= E ->
   just_above (binary_normalize Float64.prec Float64.emax D E false)
              (inject_Z D * pow2 E)).
Proof.
  intros HD Hc Hx. destruct D as [|M|M]; [| |lia].
  - cbn [binary_normalize nonneg_number value].
    pose proof (value_positive mc ec).
    split; [reflexivity|]. split; [lra|]. split.
    + intros c Hcn Hcx. change (inject_Z 0) with 0%Q in Hcx.
      pose proof (nonneg_number_value c Hcn). lra.
    + intros _. left. cbn [value]. change (inject_Z 0) with 0%Q. lra.
  - cbn [binary_normalize]. now apply round_below_float.
Qed.

Lemma normalize_negative (M : positive) (E : Z) :
  binary_normalize Float64.prec Float64.emax (Z.neg M) E false
  = SFopp (binary_normalize Float64.prec Float64.emax (Z.pos M) E false).
Proof. cbn [binary_normalize]. apply round_opp. Qed.

(** The two mantissas of a sum or a difference, aligned. *)
Lemma aligned_pair (ma : positive) (ea : Z) (mb : positive) (eb : Z) :
  (inject_Z (Z.pos (fst (shl_align ma ea (Z.min ea eb)))) * pow2 (Z.min ea eb)
   == inject_Z (Z.pos ma) * pow2 ea)%Q /\
  (inject_Z (Z.pos (fst (shl_align mb eb (Z.min ea eb)))) * pow2 (Z.min ea eb)
   == inject_Z (Z.pos mb) * pow2 eb)%Q.
Proof.
  split.
  - destruct (shl_align_spec ma ea (Z.min ea eb)) as [_ H].
    apply aligned_value; [lia|]. rewrite H. f_equal. f_equal. lia.
  - destruct (shl_align_spec mb eb (Z.min ea eb)) as [_ H].
    apply aligned_value; [lia|]. rewrite H. f_equal. f_equal. lia.
Qed.

(** ** Multiplying by a weight below one *)

Lemma pow2_53 : (inject_Z (2 ^ 53) * pow2 (-53) == 1)%Q.
Proof. vm_compute. reflexivity. Qed.

Lemma digits_product (mw md : positive) :
  2 ^ 52 <= Z.pos mw -> 53 <= digits (mw * md).
Proof.
  intros Hw. pose proof (digits_upper (mw * md)) as Hu.
  destruct (Z_lt_le_dec (digits (mw * md)) 53) as [Hlt|]; [|assumption].
  assert (2 ^ digits (mw * md) <= 2 ^ 52) by (apply Z.pow_le_mono_r; lia).
  rewrite Pos2Z.inj_mul in Hu. nia.
Qed.

(** The product of a float [d] by a weight [w <= 1 - 2^-52] with 53
    digits, rounded, is not above a number [x] that [d] is just above. *)
Lemma mul_shrinks (mw : positive) (ew : Z) (d : Float64.float) (x : Q) :
  2 ^ 52 <= Z.pos mw ->
  (inject_Z (Z.pos mw) * pow2 ew <= inject_Z (2 ^ 53 - 2) * pow2 (-53))%Q ->
  nonneg_number d = true -> just_above d x ->
  nonneg_number (Float64.mul (S754_finite false mw ew) d) = true /\
  (value (Float64.mul (S754_finite false mw ew) d) <= x)%Q.
Proof.
  intros Hmw Hw Hd Hx.
  destruct d as [sd|sd| |[|] md ed]; try discriminate Hd.
  - (* a zero *)
    cbn [Float64.mul SFmul nonneg_number value]. split; [reflexivity|].
    destruct Hx as [H|(m & e & H & _)]; [exact H|discriminate H].
  - cbn [nonneg_number] in Hd.
    destruct (@bounded_facts md ed Hd) as (Hed & Hmu & Hml & Hce).
    unfold Float64.mul, SFmul. cbn [xorb].
    pose proof (@digits_product mw md Hmw) as Hdig.
    set (M := (mw * md)%positive) in *. set (E := ew + ed).
    assert (HE : E <= cexp (digits M + E)) by (rewrite cexp_eq; lia).
    destruct (@round_exact_facts false M E HE)
      as (m1 & Hr & Hb & Hl & Hup & _ & _).
    set (e0 := cexp (digits M + E)) in *.
    pose proof (pow2_pos ed) as Pd. pose proof (pow2_pos ew) as Pw.
    pose proof pow2_53 as P53.
    set (t := pow2 (-53)) in *.
    assert (Ht : (0 < t)%Q) by apply pow2_pos.
    assert (Hw1 : (inject_Z (Z.pos mw) * pow2 ew <= 1 - 2 * t)%Q).
    { change (inject_Z (2 ^ 53 - 2)) with (inject_Z (2 ^ 53) - 2)%Q in Hw. lra. }
    assert (Hmd : (0 < inject_Z (Z.pos md))%Q)
      by (change 0%Q with (inject_Z 0); rewrite <- Zlt_Qlt; lia).
    assert (HxM : (inject_Z (Z.pos M) * pow2 E
                   == (inject_Z (Z.pos mw) * pow2 ew)
                      * (inject_Z (Z.pos md) * pow2 ed))%Q).
    { unfold M, E. rewrite Pos2Z.inj_mul, inject_Z_mult, pow2_add. ring. }
    assert (Hxd : (inject_Z (Z.pos M) * pow2 E
                   <= inject_Z (Z.pos md) * pow2 ed)%Q).
    { rewrite HxM. pose proof (value_positive md ed) as HV.
      set (V := (inject_Z (Z.pos md) * pow2 ed)%Q) in *.
      set (W := (inject_Z (Z.pos mw) * pow2 ew)%Q) in *.
      nra. }
    assert (Hgrid : e0 <= ed).
    { rewrite <- Hce. apply cexp_mono. now apply magnitude_le. }
    assert (Hmin : -1074 <= e0) by (unfold e0; rewrite cexp_eq; lia).
    pose proof (Hup (Z.pos md) ed Hgrid Hxd) as Hle.
    assert (Hcarry : m1 = 2 ^ 53 -> e0 + 1 <= 971).
    { intros E1. rewrite E1 in Hle.
      destruct (Z_lt_le_dec e0 ed) as [|Hge]; [lia|].
      assert (Heq : ed = e0) by lia. rewrite Heq in Hle.
      apply same_exponent_le in Hle. lia. }
    destruct (@rounded_number m1 e0 Hb Hmin Hl Hcarry ltac:(lia)) as [Hn Hv].
    rewrite Hr. split; [exact Hn|]. rewrite Hv.
    destruct Hx as [H|(m & e & Heq & Hm52 & H)].
    + cbn [value] in H. lra.
    + injection Heq as <- <-.
      apply Qle_trans with (inject_Z (Z.pos md - 1) * pow2 ed)%Q; [|exact H].
      apply Hup; [exact Hgrid|].
      rewrite HxM.
      assert (H52 : (inject_Z (2 ^ 52) <= inject_Z (Z.pos md))%Q)
        by (rewrite <- Zle_Qle; exact Hm52).
      change (inject_Z (2 ^ 53)) with (2 * inject_Z (2 ^ 52))%Q in P53.
      unfold Zminus. rewrite inject_Z_plus. change (inject_Z (- (1))) with (-1)%Q.
      assert (H1 : (1 <= 2 * t * inject_Z (Z.pos md))%Q) by nra.
      set (W := (inject_Z (Z.pos mw) * pow2 ew)%Q) in *.
      set (D := inject_Z (Z.pos md)) in *.
      assert (H2 : (W * D <= (1 - 2 * t) * D)%Q) by nra.
      assert (H3 : (W * D <= D + -1)%Q) by nra.
      assert (H4 : (W * D * pow2 ed <= (D + -1) * pow2 ed)%Q) by nra.
      nra.
Qed.

(** ** The weight [games / (games + 50)] *)

Lemma digits_below (m : positive) (k : Z) : Z.pos m < 2 ^ k -> digits m <= k.
Proof.
  intros H. pose proof (digits_lower m) as Hl.
  destruct (Z_lt_le_dec k (digits m)) as [Hlt|]; [|assumption].
  assert (2 ^ k <= 2 ^ (digits m - 1)).
  { destruct (Z_lt_le_dec k 0); [rewrite Z.pow_neg_r in H by lia; lia|].
    apply Z.pow_le_mono_r; lia. }
  lia.
Qed.

Lemma digits_above (m : positive) (k : Z) : 2 ^ k <= Z.pos m -> k < digits m.
Proof.
  intros H. pose proof (digits_upper m) as Hu. pose proof (digits_pos m).
  destruct (Z_lt_le_dec k (digits m)) as [|Hge]; [assumption|].
  assert (2 ^ digits m <= 2 ^ k) by (apply Z.pow_le_mono_r; lia). lia.
Qed.

(** For [games] below 2^53 the weight is a positive float with 53 digits,
    not above [1 - 2^-52]. *)
Lemma weight_facts (g : positive) :
  Z.pos g < 2 ^ 53 ->
  exists (mw : positive) (ew : Z),
    SFdiv Float64.prec Float64.emax
      (S754_finite false g 0) (S754_finite false (g + 50) 0)
    = S754_finite false mw ew /\
    2 ^ 52 <= Z.pos mw /\
    (inject_Z (Z.pos mw) * pow2 ew <= inject_Z (2 ^ 53 - 2) * pow2 (-53))%Q.
Proof.
  intros Hg. unfold SFdiv, SFdiv_core_binary. cbn [Zdigits2 xorb].
  change (Z.pos (digits2_pos g)) with (digits g).
  change (Z.pos (digits2_pos (g + 50))) with (digits (g + 50)).
  set (g' := (g + 50)%positive).
  assert (Hg' : Z.pos g' = Z.pos g + 50) by (unfold g'; lia).
  set (d1 := digits g). set (d2 := digits g').
  assert (H1 : 1 <= d1) by apply digits_pos.
  assert (H12 : d1 <= d2) by (apply digits_le; unfold g'; lia).
  assert (H2 : d2 <= 54).
  { apply digits_below. change (2 ^ 54) with (2 * 2 ^ 53). lia. }
  change (fexp Float64.prec Float64.emax (d1 + 0 - (d2 + 0)))
    with (cexp (d1 + 0 - (d2 + 0))).
  rewrite cexp_eq.
  replace (Z.min (Z.max (d1 + 0 - (d2 + 0) - 53) (-1074)) (0 - 0))
    with (d1 - d2 - 53) by lia.
  set (e' := d1 - d2 - 53).
  set (s := 0 - 0 - e').
  assert (Hs : s = 53 + (d2 - d1)) by (unfold s, e'; lia).
  destruct s as [|sp|sp] eqn:Es; [lia| |lia].
  rewrite Z.shiftl_mul_pow2 by lia. rewrite <- Es in *. clear Es.
  pose proof (digits_lower g) as Hgl. pose proof (digits_upper g') as Hgu.
  fold d1 in Hgl. fold d2 in Hgu.
  assert (Hp : 0 < 2 ^ (d2 - d1)) by (apply Z.pow_pos_nonneg; lia).
  assert (H2s : 2 ^ s = 2 ^ 53 * 2 ^ (d2 - d1))
    by (rewrite Hs, Z.pow_add_r by lia; reflexivity).
  pose proof (Z_div_mod (Z.pos g * 2 ^ s) (Z.pos g') ltac:(lia)) as Hdiv.
  destruct (Z.div_eucl (Z.pos g * 2 ^ s) (Z.pos g')) as [q r].
  destruct Hdiv as [Hdiv Hr].
  assert (Hqu : q < (2 ^ 53 - 2) * 2 ^ (d2 - d1)).
  { assert (Z.pos g * 2 ^ 53 < (2 ^ 53 - 2) * Z.pos g').
    { rewrite Hg'. change (2 ^ 53) with 9007199254740992 in *. lia. }
    nia. }
  assert (Hql : 2 ^ 52 <= q).
  { assert (2 ^ (d1 - 1) * 2 ^ s = 2 ^ 52 * 2 ^ d2).
    { rewrite <- !Z.pow_add_r by lia. f_equal. lia. }
    assert (0 < 2 ^ 52) by reflexivity.
    assert (2 ^ 52 * Z.pos g' < Z.pos g * 2 ^ s) by nia.
    nia. }
  destruct q as [|qp|qp]; [change (2 ^ 52) with 4503599627370496 in Hql; lia| |lia].
  assert (Hdq : 53 <= digits qp) by (pose proof (@digits_above qp 52 Hql); lia).
  assert (Hdq' : digits qp <= s).
  { apply digits_below. rewrite H2s.
    change (2 ^ 53 - 2) with 9007199254740990 in Hqu.
    change (2 ^ 53) with 9007199254740992. lia. }
  assert (HE : e' <= cexp (digits qp + e')) by (rewrite cexp_eq; lia).
  destruct (@round_spec false qp e' (new_location (Z.pos g') r) HE)
    as (m1 & Hb & _ & Hu & Hl & Hres).
  rewrite Hres.
  set (e0 := cexp (digits qp + e')) in *.
  assert (He0 : e0 = digits qp + e' - 53) by (unfold e0; rewrite cexp_eq; unfold e'; lia).
  set (n := e0 - e') in *.
  assert (Hn : 0 <= n) by (unfold n; lia).
  assert (Hpn : 0 < 2 ^ n) by (apply Z.pow_pos_nonneg; lia).
  assert (Hneg : 0 <= -53 - e0) by (unfold e' in He0; lia).
  set (K := (2 ^ 53 - 2) * 2 ^ (-53 - e0)).
  assert (HK : K * 2 ^ n = (2 ^ 53 - 2) * 2 ^ (d2 - d1)).
  { unfold K. rewrite <- Z.mul_assoc, <- Z.pow_add_r by lia.
    f_equal. f_equal. unfold n, e'. lia. }
  assert (Hm1 : m1 <= K).
  { assert (Z.pos qp / 2 ^ n < K)
      by (apply Z.div_lt_upper_bound; [exact Hpn|]; lia).
    lia. }
  specialize (Hl ltac:(unfold e' in He0; lia)).
  assert (Hval : (inject_Z m1 * pow2 e0
                  <= inject_Z (2 ^ 53 - 2) * pow2 (-53))%Q).
  { replace (pow2 (-53)) with (pow2 (e0 + (-53 - e0))) by (f_equal; lia).
    apply scaled_le; [exact Hneg|]. exact Hm1. }
  destruct (@rounded_number m1 e0 ltac:(change (2^52) with 4503599627370496 in Hl; lia)
              ltac:(unfold e' in He0; lia) (fun _ => Hl)
              ltac:(intros _; unfold e' in He0; lia)
              ltac:(unfold e' in He0; lia)) as [Hn1 Hv].
  unfold rounded in *.
  destruct m1 as [|p1|p1];
    [change (2 ^ 52) with 4503599627370496 in Hl; lia| |lia].
  destruct (Z.eqb_spec (Z.pos p1) (2 ^ 53)) as [E1|E1].
  - assert (L : (e0 + 1 <=? 971) = true) by (apply Z.leb_le; unfold e' in He0; lia).
    rewrite L in *. exists (2 ^ 52)%positive, (e0 + 1).
    split; [reflexivity|]. split; [reflexivity|].
    cbn [value] in Hv. rewrite Hv. exact Hval.
  - assert (L : (e0 <=? 971) = true) by (apply Z.leb_le; unfold e' in He0; lia).
    rewrite L in *. exists p1, e0.
    split; [reflexivity|]. split; [exact Hl|]. exact Hval.
Qed.

(** ** Shrinking a score towards the baseline *)

Lemma baseline_float :
  Float64.of_Z 300 = S754_finite false 5277655813324800 (-44).
Proof. reflexivity. Qed.

Lemma baseline_value :
  (inject_Z (Z.pos 5277655813324800) * pow2 (-44) == 300)%Q.
Proof. vm_compute. reflexivity. Qed.

Lemma baseline_bounded :
  bounded Float64.prec Float64.emax 5277655813324800 (-44) = true.
Proof. reflexivity. Qed.

Lemma scaled_nonneg (D E : Z) : (0 <= inject_Z D * pow2 E)%Q -> 0 <= D.
Proof.
  intros H. pose proof (pow2_pos E) as Hp.
  destruct (Z_lt_le_dec D 0) as [Hlt|]; [|assumption].
  rewrite Zlt_Qlt in Hlt. change (inject_Z 0) with 0%Q in Hlt. nra.
Qed.

Lemma scaled_opp (M : positive) (E : Z) :
  (inject_Z (Z.neg M) * pow2 E == - (inject_Z (Z.pos M) * pow2 E))%Q.
Proof.
  change (Z.neg M) with (- Z.pos M). rewrite inject_Z_opp. ring.
Qed.

(** The score less the baseline: rounded, it is just above the exact
    difference, on the side of the baseline the score is on. *)
Lemma sub_baseline (s : Float64.float) :
  nonneg_number s = true ->
  ((300 <= value s)%Q ->
   nonneg_number (Float64.sub s (Float64.of_Z 300)) = true /\
   just_above (Float64.sub s (Float64.of_Z 300)) (value s - 300)) /\
  ((value s <= 300)%Q ->
   exists d : Float64.float,
     Float64.sub s (Float64.of_Z 300) = SFopp d /\
     nonneg_number d = true /\ just_above d (300 - value s)).
Proof.
  intros Hs. rewrite baseline_float. pose proof baseline_value as Hb.
  destruct s as [ss|ss| |[|] ms es]; try discriminate Hs.
  - (* the score is a zero *)
    cbn [value]. split; [intros H; lra|]. intros _.
    exists (S754_finite false 5277655813324800 (-44)).
    split; [reflexivity|]. split; [reflexivity|].
    left. cbn [value]. lra.
  - cbn [nonneg_number] in Hs.
    destruct (@bounded_facts ms es Hs) as (Hes & _ & _ & _).
    unfold Float64.sub, SFsub. cbn [cond_Zopp value].
    destruct (aligned_pair ms es 5277655813324800 (-44)) as [Ha Hbq].
    set (ez := Z.min es (-44)) in *.
    set (A := fst (shl_align ms es ez)) in *.
    set (B := fst (shl_align 5277655813324800 (-44) ez)) in *.
    assert (Hez : -1074 <= ez) by (unfold ez; lia).
    assert (Hd : (inject_Z (Z.pos A - Z.pos B) * pow2 ez
                  == inject_Z (Z.pos ms) * pow2 es - 300)%Q).
    { unfold Zminus. rewrite inject_Z_plus, inject_Z_opp.
      rewrite <- Hb, <- Hbq, <- Ha. ring. }
    split.
    + intros Hge.
      assert (HD : 0 <= Z.pos A - Z.pos B).
      { apply scaled_nonneg with ez. rewrite Hd. lra. }
      destruct (@normalize_below_float (Z.pos A - Z.pos B) ez ms es HD Hs)
        as (Hn & _ & _ & Hj).
      { rewrite Hd. lra. }
      split; [exact Hn|].
      specialize (Hj Hez).
      destruct Hj as [H|(m & e & H1 & H2 & H3)];
        [left; rewrite <- Hd; exact H
        |right; exists m, e; repeat split; try assumption; rewrite <- Hd; exact H3].
    + intros Hle.
      destruct (Z.pos A - Z.pos B) as [|M|M] eqn:ED.
      * exists (S754_zero true). split; [reflexivity|]. split; [reflexivity|].
        left. cbn [value]. lra.
      * exfalso. pose proof (value_positive M ez). lra.
      * rewrite normalize_negative.
        exists (binary_normalize Float64.prec Float64.emax (Z.pos M) ez false).
        split; [reflexivity|].
        rewrite scaled_opp in Hd.
        assert (Hx : (inject_Z (Z.pos M) * pow2 ez
                      == 300 - inject_Z (Z.pos ms) * pow2 es)%Q) by lra.
        destruct (@normalize_below_float (Z.pos M) ez 5277655813324800 (-44)
                    ltac:(lia) baseline_bounded) as (Hn & _ & _ & Hj).
        { rewrite Hx, Hb. pose proof (value_positive ms es). lra. }
        split; [exact Hn|].
        specialize (Hj Hez).
        destruct Hj as [H|(m & e & H1 & H2 & H3)];
          [left; rewrite <- Hx; exact H
          |right; exists m, e; repeat split; try assumption; rewrite <- Hx; exact H3].
Qed.

Lemma mul_opp (mw : positive) (ew : Z) (d : Float64.float) :
  nonneg_number d = true ->
  Float64.mul (S754_finite false mw ew) (SFopp d)
  = SFopp (Float64.mul (S754_finite false mw ew) d).
Proof.
  intros Hd. destruct d as [sd|sd| |[|] md ed]; try discriminate Hd.
  - reflexivity.
  - unfold Float64.mul, SFmul, SFopp at 1. cbn [xorb negb].
    apply round_aux_opp.
Qed.

(** The baseline plus a part that is not above the score less the
    baseline. *)
Lemma add_to_baseline (p s : Float64.float) :
  nonneg_number p = true -> nonneg_number s = true ->
  (300 + value p <= value s)%Q ->
  nonneg_number (Float64.add (Float64.of_Z 300) p) = true /\
  (300 <= value (Float64.add (Float64.of_Z 300) p))%Q /\
  (value (Float64.add (Float64.of_Z 300) p) <= value s)%Q.
Proof.
  intros Hp Hs Hx. rewrite baseline_float. pose proof baseline_value as Hb.
  destruct p as [sp|sp| |[|] mp ep]; try discriminate Hp.
  - cbn [Float64.add SFadd nonneg_number value] in *.
    split; [reflexivity|]. lra.
  - cbn [nonneg_number] in Hp.
    destruct s as [ss|ss| |[|] ms es]; try discriminate Hs.
    { exfalso. cbn [value] in Hx. pose proof (value_positive mp ep). lra. }
    cbn [nonneg_number] in Hs. cbn [value] in Hx.
    unfold Float64.add, SFadd. cbn [cond_Zopp].
    destruct (aligned_pair 5277655813324800 (-44) mp ep) as [Ha Hbq].
    set (ez := Z.min (-44) ep) in *.
    set (A := fst (shl_align 5277655813324800 (-44) ez)) in *.
    set (B := fst (shl_align mp ep ez)) in *.
    assert (Hd : (inject_Z (Z.pos A + Z.pos B) * pow2 ez
                  == 300 + inject_Z (Z.pos mp) * pow2 ep)%Q).
    { rewrite inject_Z_plus. rewrite <- Hb, <- Hbq, <- Ha. ring. }
    destruct (@normalize_below_float (Z.pos A + Z.pos B) ez ms es ltac:(lia) Hs)
      as (Hn & Hu & Hdn & _).
    { rewrite Hd. exact Hx. }
    split; [exact Hn|]. split; [|exact Hu].
    specialize (Hdn (S754_finite false 5277655813324800 (-44)) eq_refl).
    cbn [value] in Hdn. rewrite <- Hb. apply Hdn. rewrite Hd, Hb.
    pose proof (value_positive mp ep). lra.
Qed.

(** The baseline less a part that is not above the baseline less the
    score. *)
Lemma take_from_baseline (p s : Float64.float) :
  nonneg_number p = true -> nonneg_number s = true ->
  (value p <= 300 - value s)%Q ->
  nonneg_number (Float64.add (Float64.of_Z 300) (SFopp p)) = true /\
  (value s <= value (Float64.add (Float64.of_Z 300) (SFopp p)))%Q /\
  (value (Float64.add (Float64.of_Z 300) (SFopp p)) <= 300)%Q.
Proof.
  intros Hp Hs Hx. rewrite baseline_float. pose proof baseline_value as Hb.
  pose proof (nonneg_number_value s Hs) as Hs0.
  destruct p as [sp|sp| |[|] mp ep]; try discriminate Hp.
  - cbn [Float64.add SFadd SFopp nonneg_number value] in *.
    split; [reflexivity|]. lra.
  - cbn [nonneg_number] in Hp. cbn [value] in Hx.
    unfold Float64.add, SFadd, SFopp. cbn [cond_Zopp negb].
    destruct (aligned_pair 5277655813324800 (-44) mp ep) as [Ha Hbq].
    set (ez := Z.min (-44) ep) in *.
    set (A := fst (shl_align 5277655813324800 (-44) ez)) in *.
    set (B := fst (shl_align mp ep ez)) in *.
    assert (Hd : (inject_Z (Z.pos A + - Z.pos B) * pow2 ez
                  == 300 - inject_Z (Z.pos mp) * pow2 ep)%Q).
    { rewrite inject_Z_plus, inject_Z_opp. rewrite <- Hb, <- Hbq, <- Ha. ring. }
    assert (HD : 0 <= Z.pos A + - Z.pos B).
    { apply scaled_nonneg with ez. rewrite Hd. lra. }
    destruct (@normalize_below_float (Z.pos A + - Z.pos B) ez
                5277655813324800 (-44) HD baseline_bounded)
      as (Hn & Hu & Hdn & _).
    { rewrite Hd, Hb. pose proof (value_positive mp ep). lra. }
    split; [exact Hn|]. split; [|rewrite <- Hb; exact Hu].
    apply Hdn; [exact Hs|]. rewrite Hd. lra.
Qed.

(** The computation of the adjusted score, for [games] below 2^53 and a
    score that is a zero or a positive number: the weight is finite and
    the result is on the side of the baseline the score is on, not beyond
    the score. *)
Lemma shrink_between (g : positive) (s : Float64.float) :
  Z.pos g < 2 ^ 53 -> nonneg_number s = true ->
  exists w : Float64.float,
    Float64.quot_Z (Z.pos g) (Z.pos g + 50) = w /\
    Float64.is_finite w = true /\
    nonneg_number
      (Float64.add (Float64.of_Z 300)
         (Float64.mul w (Float64.sub s (Float64.of_Z 300)))) = true /\
    ((300 <= value s)%Q ->
     (300 <= value (Float64.add (Float64.of_Z 300)
                      (Float64.mul w (Float64.sub s (Float64.of_Z 300)))))%Q /\
     (value (Float64.add (Float64.of_Z 300)
               (Float64.mul w (Float64.sub s (Float64.of_Z 300))))
      <= value s)%Q) /\
    ((value s <= 300)%Q ->
     (value s <= value (Float64.add (Float64.of_Z 300)
                          (Float64.mul w (Float64.sub s (Float64.of_Z 300)))))%Q /\
     (value (Float64.add (Float64.of_Z 300)
               (Float64.mul w (Float64.sub s (Float64.of_Z 300))))
      <= 300)%Q).
Proof.
  intros Hg Hs.
  destruct (@weight_facts g Hg) as (mw & ew & Hw & Hmw & Hwv).
  exists (S754_finite false mw ew).
  split; [exact Hw|]. split; [reflexivity|].
  destruct (@sub_baseline s Hs) as [Hup Hdown].
  destruct (Qlt_le_dec (value s) 300) as [Hlt|Hge].
  - (* the score is below the baseline *)
    destruct (Hdown ltac:(lra)) as (d & Hd & Hdn & Hdj).
    rewrite Hd, (@mul_opp mw ew d Hdn).
    destruct (@mul_shrinks mw ew d (300 - value s) Hmw Hwv Hdn Hdj) as [Hpn Hpv].
    destruct (@take_from_baseline _ s Hpn Hs Hpv) as (Hn & Hl & Hu).
    split; [exact Hn|]. split; [intros H; lra|]. intros _. split; assumption.
  - destruct (Hup Hge) as [Hdn Hdj].
    destruct (@mul_shrinks mw ew _ (value s - 300) Hmw Hwv Hdn Hdj) as [Hpn Hpv].
    destruct (@add_to_baseline _ s Hpn Hs ltac:(lra)) as (Hn & Hl & Hu).
    split; [exact Hn|]. split; [intros _; split; assumption|].
    intros H. split; lra.
Qed.

(** ** The adjusted score between the baseline and the score *)

Lemma nonneg_number_intro (s : Float64.float) :
  valid_binary Float64.prec Float64.emax s = true ->
  Float64.is_finite s = true ->
  Float64.leb (Float64.of_Z 0) s = true ->
  nonneg_number s = true.
Proof.
  destruct s as [ss|ss| |[|] ms es]; intros Hv Hf Hl;
    try discriminate Hf; try discriminate Hl; [reflexivity|exact Hv].
Qed.

Lemma baseline_number : nonneg_number (Float64.of_Z 300) = true.
Proof. reflexivity. Qed.

Lemma baseline_is_300 : (value (Float64.of_Z 300) == 300)%Q.
Proof. vm_compute. reflexivity. Qed.

(** C1 (amended): in binary64, for a record with 0 < games < 2^53 whose
    raw score is a float that is not negative (a number, or plus
    infinity), [adj_spi] returns
    300 + (games / (games + 50)) * (score - 300), each operation rounded,
    and the result lies between 300 and the raw score, the ends included:
    from 300 to the score when the score is 300 or more, from the score
    to 300 when it is 300 or less. Shrinkage never passes either end. *)
Theorem adj_spi_between_baseline_and_score
    (st : ModeStats Float64.float) (s : Float64.float) :
  0 < games st < 2 ^ 53 ->
  spi st = inr s ->
  valid_binary Float64.prec Float64.emax s = true ->
  Float64.leb (Float64.of_Z 0) s = true ->
  exists a : Float64.float,
    adj_spi st = inr a /\
    a = Float64.add (Float64.of_Z 300)
          (Float64.mul (Float64.quot_Z (games st) (games st + 50))
                       (Float64.sub s (Float64.of_Z 300))) /\
    (Float64.leb (Float64.of_Z 300) s = true ->
     Float64.leb (Float64.of_Z 300) a = true /\ Float64.leb a s = true) /\
    (Float64.leb s (Float64.of_Z 300) = true ->
     Float64.leb s a = true /\ Float64.leb a (Float64.of_Z 300) = true).
Proof.
  intros Hg Hs Hv Hl.
  destruct (games st) as [|g|g] eqn:Eg; [lia| |lia].
  assert (Hadj : forall w,
             Float64.quot_Z (Z.pos g) (Z.pos g + 50) = w ->
             Float64.is_finite w = true ->
             adj_spi st
             = inr (Float64.add (Float64.of_Z 300)
                      (Float64.mul w (Float64.sub s (Float64.of_Z 300))))).
  { intros w Hw Hwf. unfold adj_spi. rewrite Hs, Eg. cbn [bind].
    change (Z.pos g >? 0) with true. cbv iota.
    unfold int_truediv, binary64_arith, Float64.int_truediv, CONFIDENCE_CONST.
    change (Z.pos g + 50 =? 0) with false. cbv iota zeta.
    rewrite Hw, Hwf. reflexivity. }
  destruct (Float64.is_finite s) eqn:Hf.
  - (* the score is a number *)
    pose proof (@nonneg_number_intro s Hv Hf Hl) as Hn.
    destruct (@shrink_between g s ltac:(lia) Hn)
      as (w & Hw & Hwf & Han & Hup & Hdown).
    exists (Float64.add (Float64.of_Z 300)
              (Float64.mul w (Float64.sub s (Float64.of_Z 300)))).
    split; [exact (Hadj w Hw Hwf)|]. split; [now rewrite Hw|]. split.
    + intros H300.
      apply (@leb_value _ _ baseline_number Hn) in H300.
      rewrite baseline_is_300 in H300.
      destruct (Hup H300) as [H1 H2]. split.
      * apply (@leb_value _ _ baseline_number Han). now rewrite baseline_is_300.
      * now apply (@leb_value _ _ Han Hn).
    + intros H300.
      apply (@leb_value _ _ Hn baseline_number) in H300.
      rewrite baseline_is_300 in H300.
      destruct (Hdown H300) as [H1 H2]. split.
      * now apply (@leb_value _ _ Hn Han).
      * apply (@leb_value _ _ Han baseline_number). now rewrite baseline_is_300.
  - (* the score is plus infinity, and so is the adjusted score *)
    destruct s as [ss|[|]| |ss ms es]; try discriminate Hf; try discriminate Hl.
    destruct (@weight_facts g ltac:(lia)) as (mw & ew & Hw & _ & _).
    exists (S754_infinity false).
    change (Float64.quot_Z (Z.pos g) (Z.pos g + 50))
      with (SFdiv Float64.prec Float64.emax
              (S754_finite false g 0) (S754_finite false (g + 50) 0)) in *.
    rewrite (Hadj _ Hw eq_refl), Hw.
    repeat split; discriminate.
Qed.

Lemma adj_spi_between_baseline_and_score_witness :
  exists s a : Float64.float,
    spi sample_stats = inr s /\ adj_spi sample_stats = inr a /\
    Float64.eqb s (Float64.of_Z 300) = false /\
    Float64.leb (Float64.of_Z 300) a = true /\ Float64.leb a s = true.
Proof.
  assert (Hg : 0 < games sample_stats < 2 ^ 53) by (cbn [games sample_stats]; lia).
  assert (Hs : spi sample_stats = inr (S754_finite false 8775982081907701 (-44)))
    by (vm_compute; reflexivity).
  pose proof (@adj_spi_between_baseline_and_score sample_stats
              (S754_finite false 8775982081907701 (-44)) Hg Hs
              eq_refl eq_refl) as H.
  destruct H as (a & Ha & _ & Hup & _).
  exists (S754_finite false 8775982081907701 (-44)), a.
  split; [exact Hs|]. split; [exact Ha|].
  split; [vm_compute; reflexivity|].
  apply Hup. vm_compute. reflexivity.
Defined.

(** The bound on [games] cannot be dropped: with 10^18 games the weight
    is the float 1.0, and the adjusted score of [huge_games_stats] is one
    unit in the last place above its raw score. *)
Lemma shrinkage_overshoots_with_huge_games :
  exists s a : Float64.float,
    spi huge_games_stats = inr s /\ adj_spi huge_games_stats = inr a /\
    Float64.leb (Float64.of_Z 300) s = true /\ Float64.ltb s a = true.
Proof.
  exists (S754_finite false 4503599627370535 3),
         (S754_finite false 4503599627370536 3).
  repeat split; vm_compute; reflexivity.
Qed.
